(** * Memory Vault: entity deduplication, incremental processing, search and
      viewport culling

    A shallow embedding of the JavaScript sources of the memory graph:
    - [MemoryProcessor]: extraction, deduplication, sparse filter,
      co-occurrence links and persistence of the entity graph;
    - [DBManager]: the IndexedDB wrapper, as keyed collections;
    - [SearchEngine]: index lookup, fuzzy scan and ranking;
    - [GraphRenderer]: viewport culling and the type filter.

    Conventions of the embedding.
    - A JavaScript string is a [string]; its code units are [ascii]
      characters, so the development covers the texts whose code units
      are below 256. Of these, the letters of [\w] and of the patterns
      are the ASCII ones, the white space of [\s] and [trim] is the ASCII
      one and the no-break space, and [toLowerCase] changes the ASCII
      capitals and those from U+00C0 to U+00DE.
    - A JavaScript [Map] is an association list in insertion order, a [Set]
      a duplicate-free list in insertion order, an IndexedDB object store a
      [gmap] from its key path to its records (read back in key order).
    - Counters are [nat], epoch timestamps are [Z] (whole seconds);
      [Date.now()], [Math.random()] and the collation of [localeCompare]
      are read from an explicit environment.
    - [Array.prototype.sort] is the stable sort [js_sort].
    - An absent property is the falsy value of its type ([""] or [0]), which
      is how the sources test for it ([a || b]).
    - An exception raised by the source is the [Throw] of a [result]; a
      loop that does not end is [Throw NoReturn].

    The first part holds the embedding, the second part the properties, the
    third part the properties on concrete conversations, stores and views,
    the fourth part further properties of the functions. *)

From Stdlib Require Import ZArith QArith Lia Ascii String.
From stdpp Require Import base tactics option list strings gmap sorting pretty.

Set Default Proof Using "Type".
Close Scope Q_scope.

(** * Part I: the embedding *)

(** ** JavaScript values: numbers, arrays, strings *)

(** [Math.min(a, b, c)]. *)
Definition min3 (a b c : nat) : nat := a `min` (b `min` c).

(** [a[i] = v] on an array overwrites index [i] when it exists and extends
    the array otherwise, leaving holes below [i]. *)
Definition js_set {B : Type} (hole : B) (l : list B) (i : nat) (v : B) : list B :=
  if decide (i < length l) then <[i:=v]> l
  else l ++ replicate (i - length l) hole ++ [v].

(** The code units of a string, and back. *)
Definition chars (s : string) : list ascii := String.list_ascii_of_string s.
Definition str (l : list ascii) : string := String.string_of_list_ascii l.

Definition code (c : ascii) : N := N_of_ascii c.
Definition is_upper (c : ascii) : bool := (65 <=? code c)%N && (code c <=? 90)%N.
Definition is_lower (c : ascii) : bool := (97 <=? code c)%N && (code c <=? 122)%N.
Definition is_digit (c : ascii) : bool := (48 <=? code c)%N && (code c <=? 57)%N.
Definition is_letter (c : ascii) : bool := is_upper c || is_lower c.
(** The class [\w], and the class [\s], which is also the white space of
    [trim]: the code units 9 to 13, 32 and 160 (the no-break space) are the
    ones below 256. *)
Definition is_word (c : ascii) : bool := is_letter c || is_digit c || (code c =? 95)%N.
Definition is_space (c : ascii) : bool := Ascii.is_space c || (code c =? 160)%N.

(** The capital letters above 127: U+00C0 to U+00DE without the
    multiplication sign U+00D7. *)
Definition is_upper_latin1 (c : ascii) : bool :=
  (192 <=? code c)%N && (code c <=? 222)%N && negb (code c =? 215)%N.

Definition to_lower (c : ascii) : ascii :=
  if is_upper c || is_upper_latin1 c then ascii_of_N (code c + 32) else c.

(** [s.toLowerCase()]. *)
Definition toLowerCase (s : string) : string := str (to_lower <$> chars s).

Fixpoint drop_spaces (l : list ascii) : list ascii :=
  match l with
  | c :: l' => if is_space c then drop_spaces l' else l
  | [] => []
  end.

(** [s.trim()]. *)
Definition trim_chars (l : list ascii) : list ascii :=
  reverse (drop_spaces (reverse (drop_spaces l))).
Definition trim (s : string) : string := str (trim_chars (chars s)).

(** [s.length]. *)
Definition js_length (s : string) : nat := length (chars s).

(** [s.substring(from, to)]: the arguments are clamped to the string and
    swapped when out of order. *)
Definition substring_chars (from to : nat) (l : list ascii) : list ascii :=
  let a := from `min` to in
  let b := from `max` to in
  take (b - a) (drop a l).
Definition substring (from to : nat) (s : string) : string :=
  str (substring_chars from to (chars s)).

(** [s.startsWith(p)] and [s.includes(p)]. *)
Definition starts_with (p l : list ascii) : bool := bool_decide (p `prefix_of` l).
Fixpoint includes_chars (l p : list ascii) : bool :=
  starts_with p l ||
  match l with
  | [] => false
  | _ :: l' => includes_chars l' p
  end.
Definition startsWith (s p : string) : bool := starts_with (chars p) (chars s).
Definition includes (s p : string) : bool := includes_chars (chars s) (chars p).

(** [s.split(/\s+/)]: the pieces between the maximal runs of white space,
    empty pieces at both ends included. *)
Fixpoint split_spaces_go (cur : list ascii) (skipping : bool) (l : list ascii)
  : list (list ascii) :=
  match l with
  | [] => [reverse cur]
  | c :: l' =>
      if is_space c then
        if skipping then split_spaces_go cur true l'
        else reverse cur :: split_spaces_go [] true l'
      else split_spaces_go (c :: cur) false l'
  end.
Definition split_spaces (s : string) : list string :=
  str <$> split_spaces_go [] false (chars s).

(** The string of one line feed. *)
Definition newline : string := String (ascii_of_N 10) "".

(** [parts.join(sep)]. *)
Fixpoint join (sep : string) (l : list string) : string :=
  match l with
  | [] => ""
  | [s] => s
  | s :: l' => s +:+ sep +:+ join sep l'
  end.

(** [xs.includes(x)] on an array of strings. *)
Definition array_includes (x : string) (xs : list string) : bool :=
  bool_decide (x ∈ xs).

(** ** [Map] and [Set] in insertion order *)

Section JsMap.
Context {V : Type}.

(** [m.get(k)], [m.has(k)], [m.set(k, v)], [m.delete(k)], [m.values()]. *)
Fixpoint map_get (k : string) (m : list (string * V)) : option V :=
  match m with
  | [] => None
  | (k', v) :: m' => if decide (k' = k) then Some v else map_get k m'
  end.

Definition map_has (k : string) (m : list (string * V)) : bool :=
  bool_decide (is_Some (map_get k m)).

Fixpoint map_set (k : string) (v : V) (m : list (string * V)) : list (string * V) :=
  match m with
  | [] => [(k, v)]
  | (k', v') :: m' =>
      if decide (k' = k) then (k, v) :: m' else (k', v') :: map_set k v m'
  end.

Definition map_delete (k : string) (m : list (string * V)) : list (string * V) :=
  filter (λ kv, kv.1 ≠ k) m.

Definition map_keys (m : list (string * V)) : list string := fst <$> m.
Definition map_values (m : list (string * V)) : list V := snd <$> m.
End JsMap.

(** [s.add(x)] on a [Set] of strings. *)
Definition set_add (x : string) (s : list string) : list string :=
  if bool_decide (x ∈ s) then s else s ++ [x].

(** ** Two-dimensional arrays of numbers *)

(** [matrix[i][j]] and [matrix[i][j] = v]. *)
Definition cell (m : list (list nat)) (i j : nat) : nat :=
  default 0 (m !! i ≫= (.!! j)).
Definition set_cell (m : list (list nat)) (i j v : nat) : list (list nat) :=
  alter (λ row, js_set 0 row j v) i m.


(** ** [Array.prototype.sort]

    [js_sort before xs] is [xs.sort(compare)], where [before a b] reads
    [compare(a, b) <= 0]: an element goes behind the elements that compare
    equal to it and stood before it, so the order of ties is kept. *)
Section JsSort.
Context {B : Type} (before : B → B → Prop) `{!RelDecision before}.

Fixpoint sort_insert (x : B) (l : list B) : list B :=
  match l with
  | [] => [x]
  | y :: l' => if decide (before x y) then x :: l else y :: sort_insert x l'
  end.

Definition js_sort (l : list B) : list B := foldr sort_insert [] l.
End JsSort.
(** ** Regular expressions

    The patterns of the extractor use character classes, literals,
    alternation, optional groups, greedy repetition of a class, [\b] and one
    capture group. [rmatch] is the backtracking matcher of JavaScript for
    these forms: alternatives are tried from left to right and a greedy
    repetition gives characters back one at a time. *)

Inductive regex : Type :=
  | REps
  | RChar (p : ascii → bool)
  | RSeq (r1 r2 : regex)
  | RAlt (r1 r2 : regex)
  | RRep (p : ascii → bool) (lo : nat) (hi : option nat)
  | RWordB
  | RGroup (r : regex).

(** A position of the matcher: the index in the text, the character before
    it, the text from it on, and the bounds of group 1 when it is closed. *)
Record MState : Type := mkMState {
  m_pos : nat;
  m_prev : option ascii;
  m_rest : list ascii;
  m_group : option (nat * nat)
}.

Definition at_word (c : option ascii) : bool := from_option is_word false c.

Definition below (hi : option nat) (n : nat) : bool :=
  match hi with
  | Some h => bool_decide (n < h)
  | None => true
  end.

(** Greedy [class{lo,hi}] after [n] characters of it. *)
Fixpoint rrep {R : Type} (p : ascii → bool) (lo : nat) (hi : option nat) (n : nat)
    (pos : nat) (prev : option ascii) (rest : list ascii) (g : option (nat * nat))
    (k : MState → option R) : option R :=
  let stop := if bool_decide (lo ≤ n) then k (mkMState pos prev rest g) else None in
  match rest with
  | c :: rest' =>
      if p c && below hi n then
        match rrep p lo hi (S n) (S pos) (Some c) rest' g k with
        | Some x => Some x
        | None => stop
        end
      else stop
  | [] => stop
  end.

Fixpoint rmatch {R : Type} (r : regex) (st : MState) (k : MState → option R)
  : option R :=
  match r with
  | REps => k st
  | RChar p =>
      match m_rest st with
      | c :: rest' =>
          if p c then k (mkMState (S (m_pos st)) (Some c) rest' (m_group st))
          else None
      | [] => None
      end
  | RSeq r1 r2 => rmatch r1 st (λ st', rmatch r2 st' k)
  | RAlt r1 r2 =>
      match rmatch r1 st k with
      | Some x => Some x
      | None => rmatch r2 st k
      end
  | RRep p lo hi => rrep p lo hi 0 (m_pos st) (m_prev st) (m_rest st) (m_group st) k
  | RWordB =>
      if xorb (at_word (m_prev st)) (at_word (head (m_rest st))) then k st else None
  | RGroup r =>
      rmatch r st (λ st',
        k (mkMState (m_pos st') (m_prev st') (m_rest st')
             (Some (m_pos st, m_pos st'))))
  end.

(** A match as [exec] returns it: [match.index], [match[0]], [match[1]]. *)
Record Match : Type := mkMatch {
  index : nat;
  whole : string;
  group1 : string
}.

Definition match_at (r : regex) (text : list ascii) (pos : nat)
    (prev : option ascii) (rest : list ascii) : option Match :=
  rmatch r (mkMState pos prev rest None) (λ st,
    Some (mkMatch pos
            (str (substring_chars pos (m_pos st) text))
            (match m_group st with
             | Some (a, b) => str (substring_chars a b text)
             | None => ""
             end))).

(** The matches of a global pattern from left to right, each search starting
    where the previous match ended ([lastIndex]). [skip] counts the
    characters still inside the previous match. None of the patterns below
    matches the empty string. *)
Fixpoint scan (r : regex) (text : list ascii) (pos : nat) (prev : option ascii)
    (rest : list ascii) (skip : nat) : list Match :=
  match rest with
  | [] => []
  | c :: rest' =>
      match skip with
      | S n => scan r text (S pos) (Some c) rest' n
      | 0 =>
          match match_at r text pos prev rest with
          | Some m =>
              m :: scan r text (S pos) (Some c) rest' (js_length (whole m) - 1)
          | None => scan r text (S pos) (Some c) rest' 0
          end
      end
  end.

(** [while ((match = pattern.exec(text)) !== null)] and
    [text.match(pattern)] for a pattern with the [g] flag. *)
Definition exec_all (r : regex) (text : string) : list Match :=
  scan r (chars text) 0 None (chars text) 0.

(** *** Pattern combinators *)

Definition is_char (c : ascii) : ascii → bool := λ x, bool_decide (x = c).
(** A character of a pattern under the [i] flag. *)
Definition is_char_ci (c : ascii) : ascii → bool :=
  λ x, bool_decide (to_lower x = to_lower c).
Definition none_of (s : string) : ascii → bool := λ x, bool_decide (x ∉ chars s).

Fixpoint rseq (rs : list regex) : regex :=
  match rs with
  | [] => REps
  | [r] => r
  | r :: rs' => RSeq r (rseq rs')
  end.

Fixpoint ralt (rs : list regex) : regex :=
  match rs with
  | [] => RChar (λ _, false)
  | [r] => r
  | r :: rs' => RAlt r (ralt rs')
  end.

(** A literal, and a literal under the [i] flag. *)
Definition lit (s : string) : regex := rseq (RChar ∘ is_char <$> chars s).
Definition lit_ci (s : string) : regex := rseq (RChar ∘ is_char_ci <$> chars s).
(** [(?:r)?], [c+], [c*] and [c{lo,hi}]. *)
Definition ropt (r : regex) : regex := RAlt r REps.
Definition rplus (p : ascii → bool) : regex := RRep p 1 None.
Definition rstar (p : ascii → bool) : regex := RRep p 0 None.
Definition rbetween (p : ascii → bool) (lo hi : nat) : regex := RRep p lo (Some hi).

(** ** Entities and the records of the processor *)

Inductive EntityType : Type :=
  | person | project | knowledge | question | thought | pattern.

Global Instance EntityType_eq_dec : EqDecision EntityType.
Proof. solve_decision. Defined.

(** The type as the string the sources write. *)
Definition type_name (t : EntityType) : string :=
  match t with
  | person => "person"
  | project => "project"
  | knowledge => "knowledge"
  | question => "question"
  | thought => "thought"
  | pattern => "pattern"
  end.

Module Entity.
(** [normalizedKey] and [context] are the two fields of [entity.metadata]. *)
Record t : Type := mk {
  id : string;
  type : EntityType;
  name : string;
  description : string;
  firstSeen : Z;
  lastSeen : Z;
  occurrences : nat;
  conversations : list string;
  links : list string;
  normalizedKey : string;
  context : string
}.
End Entity.

(** A candidate of the extractor: [{type, name, description?, context}]. *)
Module Extracted.
Record t : Type := mk {
  type : EntityType;
  name : string;
  description : string;
  context : string
}.
End Extracted.

(** The summary of a conversation, [convData]. *)
Module ConvData.
Record t : Type := mk {
  id : string;
  title : string;
  timestamp : Z;
  date : string;
  entities : list string
}.
End ConvData.

(** An entry of the timeline: the entity ids form a [Set] in the live map
    and an array once built. *)
Module TimelineEntry.
Record t : Type := mk {
  date : string;
  entities : list string;
  conversations : list string
}.
End TimelineEntry.

(** The export format: a conversation with the nodes of its [mapping] in
    the iteration order of the object. [parts] is [None] when
    [node.message], its [content] or its [parts] is missing. *)
Inductive Part : Type :=
  | PartText (s : string)
  | PartOther.

Module Node.
Record t : Type := mk {
  parts : option (list Part);
  role : string
}.
End Node.

Module Conversation.
Record t : Type := mk {
  id : string;
  conversation_id : string;
  title : string;
  create_time : Z;
  update_time : Z;
  mapping : list Node.t
}.
End Conversation.

Module Message.
Record t : Type := mk {
  role : string;
  content : string
}.
End Message.

(** [a || b] on strings and on numbers. *)
Definition or_str (a b : string) : string := if decide (a = "") then b else a.
Definition or_num (a b : Z) : Z := if decide (a = 0%Z) then b else a.

(** ** The extractor *)

Module Extractor.

(** [getContext(text, position, radius)]. *)
Definition getContext (text : string) (position radius : nat) : string :=
  let start := position - radius in
  let end_ := js_length text `min` (position + radius) in
  trim (substring start end_ text).

(** [summarize(text, maxLength)]. *)
Definition summarize (text : string) (maxLength : nat) : string :=
  if bool_decide (js_length text ≤ maxLength) then text
  else trim (substring 0 maxLength text) +:+ "...".

(** [isCommonNonName(name)]. *)
Definition common : list string :=
  ["ChatGPT"; "The"; "This"; "That"; "There"; "What"; "Where"; "When"; "Why";
   "How"; "Can"; "Will"; "Would"; "Could"; "Should"; "May"; "Might"; "Must";
   "Yes"; "No"; "True"; "False"; "Error"; "Success"; "Warning"; "Info"].
Definition isCommonNonName (name : string) : bool := array_includes name common.

(** [/\b([A-Z][a-z]+ (?:[A-Z][a-z]+))\b/g] *)
Definition namePattern : regex :=
  rseq [RWordB;
        RGroup (rseq [RChar is_upper; rplus is_lower; RChar (is_char " ");
                      RChar is_upper; rplus is_lower]);
        RWordB].

(** [/(?:with|by|from|to|for|about|ask|meet|talk|call|email|message)\s+([A-Z][a-z]+)\b/gi] *)
Definition personIndicators : regex :=
  rseq [ralt (lit_ci <$> ["with"; "by"; "from"; "to"; "for"; "about"; "ask";
                          "meet"; "talk"; "call"; "email"; "message"]);
        rplus is_space;
        RGroup (rseq [RChar is_letter; rplus is_letter]);
        RWordB].

Definition extractPeople (text : string) : list Extracted.t :=
  let people1 :=
    omap (λ m,
      let name := group1 m in
      if negb (isCommonNonName name) then
        Some (Extracted.mk person name "" (getContext text (index m) 100))
      else None) (exec_all namePattern text) in
  let people2 :=
    omap (λ m,
      let name := group1 m in
      if bool_decide (2 < js_length name) && negb (isCommonNonName name) then
        Some (Extracted.mk person name "" (getContext text (index m) 100))
      else None) (exec_all personIndicators text) in
  people1 ++ people2.

(** [[A-Z][a-zA-Z\s]{3,30}] under the [i] flag. *)
Definition projectName : regex :=
  RGroup (rseq [RChar is_letter;
                rbetween (λ c, is_letter c || is_space c) 3 30]).

Definition projectPatterns : list regex :=
  [ rseq [ralt (lit_ci <$> ["working on"; "building"; "creating"; "developing";
                            "making"]);
          rplus is_space;
          ropt (rseq [lit_ci "a"; rplus is_space]);
          ropt (rseq [lit_ci "new"; rplus is_space]);
          projectName];
    rseq [ralt (lit_ci <$> ["project"; "app"; "application"; "system"; "tool";
                            "website"; "platform"]);
          rplus is_space;
          ralt (lit_ci <$> ["called"; "named"]);
          rplus is_space;
          projectName];
    rseq [ralt (lit_ci <$> ["my"; "our"; "the"]);
          rplus is_space;
          projectName;
          rplus is_space;
          ralt (lit_ci <$> ["project"; "app"; "application"; "system"; "tool"])] ].

Definition extractProjects (text : string) : list Extracted.t :=
  mjoin ((λ pattern,
    omap (λ m,
      let name := trim (group1 m) in
      if bool_decide (3 < js_length name) && bool_decide (js_length name < 50) then
        Some (Extracted.mk project name "" (getContext text (index m) 150))
      else None) (exec_all pattern text)) <$> projectPatterns).

(** [([^.!?]{10,200})[.!?]] and [([^.!?\n]{10,200})[.!?\n]]. *)
Definition sentence : list regex :=
  [RGroup (rbetween (none_of ".!?") 10 200); RChar (negb ∘ none_of ".!?")].
Definition line_sentence : list regex :=
  [RGroup (rbetween (none_of (".!?" +:+ newline)) 10 200);
   RChar (negb ∘ none_of (".!?" +:+ newline))].

Definition learningPatterns : list regex :=
  [ rseq ([ralt (lit_ci <$> ["I learned"; "I discovered"; "I found out";
                             "I realized"; "I understood"]);
           rplus is_space;
           ropt (rseq [lit_ci "that"; rplus is_space])] ++ sentence);
    rseq ([ralt (lit_ci <$> ["TIL"; "Today I learned"]); lit_ci ":";
           rstar is_space] ++ line_sentence);
    rseq ([ralt (lit_ci <$> ["interesting"; "fascinating"; "cool"]); lit_ci ":";
           rplus is_space] ++ line_sentence) ].

Definition extractKnowledge (text : string) : list Extracted.t :=
  mjoin ((λ pattern,
    (λ m,
      let concept := trim (group1 m) in
      Extracted.mk knowledge (summarize concept 50) concept
        (getContext text (index m) 150)) <$> exec_all pattern text)
    <$> learningPatterns).

(** [/[^.!?]*\?/g] *)
Definition questionPattern : regex :=
  rseq [rstar (none_of ".!?"); lit "?"].

Definition extractQuestions (text : string) (messages : list Message.t)
  : list Extracted.t :=
  mjoin ((λ message,
    if decide (Message.role message = "user") then
      omap (λ m,
        let q := trim (whole m) in
        if bool_decide (10 < js_length q) then
          Some (Extracted.mk question (summarize q 60) q q)
        else None) (exec_all questionPattern (Message.content message))
    else []) <$> messages).

Definition thoughtPatterns : list regex :=
  [ rseq ([ralt (lit_ci <$> ["I think"; "I believe"; "I feel"; "my opinion is";
                             "in my view"]);
           rplus is_space;
           ropt (rseq [lit_ci "that"; rplus is_space])] ++ sentence);
    rseq ([ralt (lit_ci <$> ["my idea is"; "my thought is"; "what if"]);
           rplus is_space] ++ sentence) ].

Definition extractThoughts (text : string) : list Extracted.t :=
  mjoin ((λ pattern,
    (λ m,
      let thought_ := trim (group1 m) in
      Extracted.mk thought (summarize thought_ 50) thought_
        (getContext text (index m) 150)) <$> exec_all pattern text)
    <$> thoughtPatterns).

(** [extractEntities(text, messages)]. *)
Definition extractEntities (text : string) (messages : list Message.t)
  : list Extracted.t :=
  extractPeople text ++ extractProjects text ++ extractKnowledge text
  ++ extractQuestions text messages ++ extractThoughts text.

(** [extractMessages(conversation)]. *)
Definition extractMessages (conversation : Conversation.t) : list Message.t :=
  mjoin ((λ node,
    match Node.parts node with
    | Some parts =>
        let role := or_str (Node.role node) "unknown" in
        omap (λ part,
          match part with
          | PartText s =>
              if bool_decide (0 < js_length (trim s)) then
                Some (Message.mk role s)
              else None
          | PartOther => None
          end) parts
    | None => []
    end) <$> Conversation.mapping conversation).

End Extractor.

(** ** Exceptions

    [NoReturn] stands for a loop of the source that does not end. *)

Inductive Error : Type := TypeError | RangeError | NoReturn.

Inductive result (A : Type) : Type :=
  | Ok (a : A)
  | Throw (e : Error).
Global Arguments Ok {A} a.
Global Arguments Throw {A} e.

Global Instance result_ret : MRet result := λ A a, Ok a.
Global Instance result_bind : MBind result := λ A B f r,
  match r with
  | Ok a => f a
  | Throw e => Throw e
  end.

(** A loop whose body may throw. *)
Fixpoint for_each {A S : Type} (body : S → A → result S) (s : S) (l : list A)
  : result S :=
  match l with
  | [] => Ok s
  | a :: l' => s' ← body s a ; for_each body s' l'
  end.

(** ** Dates: [new Date(timestamp * 1000).toISOString().split('T')[0]] *)

Definition pad (width : nat) (n : Z) : string :=
  let digits := pretty (Z.to_N n) in
  str (replicate (width - js_length digits) "0"%char) +:+ digits.

(** The calendar date of a day counted from 1970-01-01. *)
Definition civil_from_days (days : Z) : Z * Z * Z :=
  let z := (days + 719468)%Z in
  let era := (z `div` 146097)%Z in
  let doe := (z - era * 146097)%Z in
  let yoe := ((doe - doe `div` 1460 + doe `div` 36524 - doe `div` 146096) `div` 365)%Z in
  let doy := (doe - (365 * yoe + yoe `div` 4 - yoe `div` 100))%Z in
  let mp := ((5 * doy + 2) `div` 153)%Z in
  let d := (doy - (153 * mp + 2) `div` 5 + 1)%Z in
  let m := (if decide (mp < 10)%Z then mp + 3 else mp - 9)%Z in
  let y := (yoe + era * 400 + (if decide (m ≤ 2)%Z then 1 else 0))%Z in
  (y, m, d).

Definition iso_year (y : Z) : string :=
  if decide (0 ≤ y ≤ 9999)%Z then pad 4 y
  else (if decide (0 ≤ y)%Z then "+" else "-") +:+ pad 6 (Z.abs y).

(** A [Date] holds at most 8.64e15 milliseconds on either side of the epoch;
    [toISOString] throws a [RangeError] on an invalid date. *)
Definition iso_date (timestamp : Z) : result string :=
  if decide (Z.abs (timestamp * 1000) ≤ 8640000000000000)%Z then
    let '(y, m, d) := civil_from_days (timestamp `div` 86400)%Z in
    Ok (iso_year y +:+ "-" +:+ pad 2 m +:+ "-" +:+ pad 2 d)
  else Throw RangeError.

(** ** The environment: the clock, the random source and the collation

    [now k] is what the [k]-th reading of [Date.now()] returns, [random k]
    what the [k]-th [Math.random().toString(36).substr(2, 9)] returns, and
    [localeCompare a b] tells whether [a.localeCompare(b) <= 0] in the
    locale of the browser. *)
Module Env.
Record t : Type := mk {
  now : nat → Z;
  random : nat → string;
  localeCompare : string → string → bool
}.
End Env.

(** ** The database manager *)

Module DBManager.

Record t : Type := mk {
  entities : gmap string Entity.t;
  conversations : gmap string ConvData.t;
  searchIndex : gmap string (list string);
  timeline : gmap string TimelineEntry.t;
  metadata : gmap string Z
}.

Definition empty : t := mk ∅ ∅ ∅ ∅ ∅.

(** [store.getAll()]: the records in the order of their keys. *)
Definition getAll {V : Type} (store : gmap string V) : list V :=
  snd <$> merge_sort (λ a b : string * V, String.le a.1 b.1) (map_to_list store).

Definition saveEntity (db : t) (entity : Entity.t) : t :=
  mk (<[Entity.id entity := entity]> (entities db)) (conversations db)
     (searchIndex db) (timeline db) (metadata db).
Definition getEntity (db : t) (entityId : string) : option Entity.t :=
  entities db !! entityId.
Definition getAllEntities (db : t) : list Entity.t := getAll (entities db).

Definition saveConversation (db : t) (conversation : ConvData.t) : t :=
  mk (entities db) (<[ConvData.id conversation := conversation]> (conversations db))
     (searchIndex db) (timeline db) (metadata db).
Definition getConversation (db : t) (convId : string) : option ConvData.t :=
  conversations db !! convId.
Definition getAllConversations (db : t) : list ConvData.t :=
  getAll (conversations db).

(** [addToSearchIndex(word, entityId)]. *)
Definition addToSearchIndex (db : t) (word entityId : string) : t :=
  let entry :=
    match searchIndex db !! word with
    | Some existing =>
        if array_includes entityId existing then existing
        else existing ++ [entityId]
    | None => [entityId]
    end in
  mk (entities db) (conversations db) (<[word := entry]> (searchIndex db))
     (timeline db) (metadata db).

(** [searchIndex(query)]: the entities indexed under a word of the query. *)
Definition searchIndexQuery (db : t) (query : string) : list Entity.t :=
  let words :=
    filter (λ w, 2 < js_length w) (split_spaces (toLowerCase query)) in
  let entityIds :=
    foldl (λ ids word,
      match searchIndex db !! word with
      | Some found => foldl (λ ids id, set_add id ids) ids found
      | None => ids
      end) [] words in
  omap (getEntity db) entityIds.

Definition saveTimeline (db : t) (entries : list TimelineEntry.t) : t :=
  mk (entities db) (conversations db) (searchIndex db)
     (foldl (λ store entry, <[TimelineEntry.date entry := entry]> store)
        (timeline db) entries)
     (metadata db).
Definition getTimeline (db : t) : list TimelineEntry.t := getAll (timeline db).

Definition saveMetadata (db : t) (key : string) (value : Z) : t :=
  mk (entities db) (conversations db) (searchIndex db) (timeline db)
     (<[key := value]> (metadata db)).
Definition getMetadata (db : t) (key : string) : option Z := metadata db !! key.

(** [getEntitiesByType(type)]: [index.getAll(type)] on the index [type]
    gives the records of the type in the order of their keys. *)
Definition getEntitiesByType (db : t) (type : EntityType) : list Entity.t :=
  filter (λ entity, Entity.type entity = type) (getAllEntities db).

(** [searchEntitiesByName(searchTerm)]. *)
Definition searchEntitiesByName (db : t) (searchTerm : string) : list Entity.t :=
  let term := toLowerCase searchTerm in
  filter (λ entity,
    includes (toLowerCase (Entity.name entity)) term
    || includes (toLowerCase (Entity.description entity)) term)
    (getAllEntities db).

(** [clearAll()]. *)
Definition clearAll (db : t) : t := empty.

(** What [getStats()] returns; [entityTypes] is the object of the counts,
    its keys in the order of their first entity. *)
Record Stats : Type := mkStats {
  totalEntities : nat;
  totalConversations : nat;
  timelineEntries : nat;
  entityTypes : list (string * nat);
  dateRange : option (string * string)
}.

(** [counts[key] = (counts[key] || 0) + 1]. *)
Definition count_up (counts : list (string * nat)) (key : string)
  : list (string * nat) :=
  map_set key (default 0 (map_get key counts) + 1) counts.

(** [getStats()]. *)
Definition getStats (db : t) : Stats :=
  let entities := getAllEntities db in
  let conversations := getAllConversations db in
  let timeline := getTimeline db in
  let entityTypes :=
    foldl (λ counts e, count_up counts (type_name (Entity.type e))) [] entities in
  mkStats (length entities) (length conversations) (length timeline) entityTypes
    (match head timeline, last timeline with
     | Some first, Some final =>
         Some (TimelineEntry.date first, TimelineEntry.date final)
     | _, _ => None
     end).

End DBManager.

(** ** The memory processor *)

(** A value of a progress event, and the event as the object literal. *)
Inductive JsVal : Type :=
  | VNum (n : Z)
  | VBool (b : bool)
  | VFixed1 (num den : nat).

Module MemoryProcessor.

(** The fields of [this]. [onProgress] tells whether a callback is set. *)
Record t : Type := mk {
  batchSize : nat;
  processedCount : nat;
  totalConversations : nat;
  entities : list (string * Entity.t);
  conversationEntities : list (string * ConvData.t);
  timeline : list (string * TimelineEntry.t);
  onProgress : bool;
  minOccurrences : nat
}.

(** [new MemoryProcessor(dbManager)]. *)
Definition create : t := mk 500 0 0 [] [] [] false 2.

(** The processor with the database it writes, the events it has reported
    and the number of readings of the environment so far. *)
Record World : Type := mkWorld {
  this : t;
  db : DBManager.t;
  reported : list (list (string * JsVal));
  tick : nat
}.

Definition with_entities (w : World) (es : list (string * Entity.t)) : World :=
  let p := this w in
  mkWorld (mk (batchSize p) (processedCount p) (totalConversations p) es
             (conversationEntities p) (timeline p) (onProgress p)
             (minOccurrences p))
    (db w) (reported w) (tick w).
Definition with_conversationEntities (w : World)
    (cs : list (string * ConvData.t)) : World :=
  let p := this w in
  mkWorld (mk (batchSize p) (processedCount p) (totalConversations p)
             (entities p) cs (timeline p) (onProgress p) (minOccurrences p))
    (db w) (reported w) (tick w).
Definition with_timeline (w : World)
    (tl : list (string * TimelineEntry.t)) : World :=
  let p := this w in
  mkWorld (mk (batchSize p) (processedCount p) (totalConversations p)
             (entities p) (conversationEntities p) tl (onProgress p)
             (minOccurrences p))
    (db w) (reported w) (tick w).
Definition with_counts (w : World) (processed total : nat) : World :=
  let p := this w in
  mkWorld (mk (batchSize p) processed total (entities p)
             (conversationEntities p) (timeline p) (onProgress p)
             (minOccurrences p))
    (db w) (reported w) (tick w).
Definition with_onProgress (w : World) (cb : bool) : World :=
  let p := this w in
  mkWorld (mk (batchSize p) (processedCount p) (totalConversations p)
             (entities p) (conversationEntities p) (timeline p) cb
             (minOccurrences p))
    (db w) (reported w) (tick w).
Definition with_db (w : World) (d : DBManager.t) : World :=
  mkWorld (this w) d (reported w) (tick w).
Definition with_tick (w : World) (n : nat) : World :=
  mkWorld (this w) (db w) (reported w) n.
(** [if (this.onProgress) this.onProgress(event)]. *)
Definition report (w : World) (event : list (string * JsVal)) : World :=
  if onProgress (this w) then
    mkWorld (this w) (db w) (reported w ++ [event]) (tick w)
  else w.

(** [levenshteinDistance(str1, str2)]. *)
Definition levenshteinDistance (str1 str2 : string) : nat :=
  let len1 := js_length str1 in
  let len2 := js_length str2 in
  if decide (len1 = 0) then len2
  else if decide (len2 = 0) then len1
  else
    let matrix := foldl (λ m i, js_set [] m i [i]) [] (seq 0 (S len1)) in
    let matrix := foldl (λ m j, set_cell m 0 j j) matrix (seq 0 (S len2)) in
    let matrix :=
      foldl (λ m i,
        foldl (λ m j,
          let cost :=
            if bool_decide (chars str1 !! (i - 1) = chars str2 !! (j - 1))
            then 0 else 1 in
          set_cell m i j
            (min3 (cell m (i - 1) j + 1)
                  (cell m i (j - 1) + 1)
                  (cell m (i - 1) (j - 1) + cost)))
          m (seq 1 len2))
        matrix (seq 1 len1) in
    cell matrix len1 len2.

(** [normalizeEntityName(name)]:
    [name.toLowerCase().trim().replace(/[^\w\s]/g, '')]. *)
Definition normalizeEntityName (name : string) : string :=
  str (filter (λ c, is_word c || is_space c) (chars (trim (toLowerCase name)))).

(** The two loops of [findExistingEntity(normalizedKey, type)]. *)
Fixpoint find_exact (entities : list (string * Entity.t))
    (normalizedKey : string) (type : EntityType) : option string :=
  match entities with
  | [] => None
  | (id, entity) :: rest =>
      if bool_decide (Entity.type entity = type)
         && bool_decide (Entity.normalizedKey entity = normalizedKey)
      then Some id
      else find_exact rest normalizedKey type
  end.

Fixpoint find_fuzzy (entities : list (string * Entity.t))
    (normalizedKey : string) (type : EntityType) : option string :=
  match entities with
  | [] => None
  | (id, entity) :: rest =>
      if bool_decide (Entity.type entity = type)
         && bool_decide
              (levenshteinDistance (Entity.normalizedKey entity) normalizedKey ≤ 2)
      then Some id
      else find_fuzzy rest normalizedKey type
  end.

Definition findExistingEntity (entities : list (string * Entity.t))
    (normalizedKey : string) (type : EntityType) : option string :=
  match find_exact entities normalizedKey type with
  | Some id => Some id
  | None =>
      if bool_decide (5 < js_length normalizedKey) then
        find_fuzzy entities normalizedKey type
      else None
  end.

(** The entity that [getOrCreateEntity] builds, with its id
    [`${type}_${key}_${Date.now()}_${Math.random().toString(36).substr(2, 9)}`]. *)
Definition newEntityId (type : EntityType) (key : string) (now : Z)
    (random : string) : string :=
  type_name type +:+ "_" +:+ key +:+ "_" +:+ pretty now +:+ "_" +:+ random.

Definition newEntity (entityId key : string) (extracted : Extracted.t)
    (timestamp : Z) : Entity.t :=
  Entity.mk entityId (Extracted.type extracted) (Extracted.name extracted)
    (or_str (Extracted.description extracted) (Extracted.context extracted))
    timestamp timestamp 0 [] [] key (Extracted.context extracted).

(** [getOrCreateEntity(extracted, convId, timestamp)]: the id, the entity
    map and the number of readings of the environment afterwards. An id is
    truthy when it is not the empty string. *)
Definition getOrCreateEntity (env : Env.t) (tick : nat)
    (entities : list (string * Entity.t)) (extracted : Extracted.t)
    (convId : string) (timestamp : Z)
  : string * list (string * Entity.t) * nat :=
  let key := normalizeEntityName (Extracted.name extracted) in
  let existingId := findExistingEntity entities key (Extracted.type extracted) in
  match existingId with
  | Some id =>
      if decide (id ≠ "") then (id, entities, tick)
      else
        let entityId :=
          newEntityId (Extracted.type extracted) key (Env.now env tick)
            (Env.random env tick) in
        (entityId,
         map_set entityId (newEntity entityId key extracted timestamp) entities,
         S tick)
  | None =>
      let entityId :=
        newEntityId (Extracted.type extracted) key (Env.now env tick)
          (Env.random env tick) in
      (entityId,
       map_set entityId (newEntity entityId key extracted timestamp) entities,
       S tick)
  end.

(** The bookkeeping of [processConversation] on the resolved entity. *)
Definition touch (entity : Entity.t) (convId : string) (timestamp : Z) : Entity.t :=
  Entity.mk (Entity.id entity) (Entity.type entity) (Entity.name entity)
    (Entity.description entity) (Entity.firstSeen entity)
    (Entity.lastSeen entity `max` timestamp)%Z
    (S (Entity.occurrences entity))
    (if array_includes convId (Entity.conversations entity)
     then Entity.conversations entity
     else Entity.conversations entity ++ [convId])
    (Entity.links entity) (Entity.normalizedKey entity) (Entity.context entity).

(** The body of the loop over the extracted entities: the state is the
    entity map, the readings so far and [convData.entities]. Reading a
    property of an entity that is not in the map is a [TypeError]. *)
Definition resolve (env : Env.t) (convId : string) (timestamp : Z)
    (s : list (string * Entity.t) * nat * list string) (extracted : Extracted.t)
  : result (list (string * Entity.t) * nat * list string) :=
  let '(entities, tick, convEntities) := s in
  let '(entityId, entities, tick) :=
    getOrCreateEntity env tick entities extracted convId timestamp in
  let convEntities := convEntities ++ [entityId] in
  match map_get entityId entities with
  | Some entity =>
      Ok (map_set entityId (touch entity convId timestamp) entities, tick,
          convEntities)
  | None => Throw TypeError
  end.

(** [updateTimeline(date, entityIds, convId)]. *)
Definition updateTimeline (timeline : list (string * TimelineEntry.t))
    (date : string) (entityIds : list string) (convId : string)
  : list (string * TimelineEntry.t) :=
  let timeline :=
    if map_has date timeline then timeline
    else map_set date (TimelineEntry.mk date [] []) timeline in
  match map_get date timeline with
  | Some entry =>
      map_set date
        (TimelineEntry.mk (TimelineEntry.date entry)
           (foldl (λ s id, set_add id s) (TimelineEntry.entities entry) entityIds)
           (TimelineEntry.conversations entry ++ [convId]))
        timeline
  | None => timeline
  end.

(** [processConversation(conversation)]. *)
Definition processConversation (env : Env.t) (w : World)
    (conversation : Conversation.t) : result World :=
  let convId :=
    or_str (Conversation.id conversation)
      (Conversation.conversation_id conversation) in
  let title := or_str (Conversation.title conversation) "Untitled" in
  let stored :=
    or_num (Conversation.create_time conversation)
      (Conversation.update_time conversation) in
  let '(timestamp, tick0) :=
    if decide (stored = 0%Z) then ((Env.now env (tick w) `div` 1000)%Z, S (tick w))
    else (stored, tick w) in
  date ← iso_date timestamp ;
  let messages := Extractor.extractMessages conversation in
  let fullText := join (newline +:+ newline) (Message.content <$> messages) in
  let extractedEntities := Extractor.extractEntities fullText messages in
  '(entities, tick1, convEntities) ←
    for_each (resolve env convId timestamp) (entities (this w), tick0, [])
      extractedEntities ;
  let convData := ConvData.mk convId title timestamp date convEntities in
  let w := with_tick (with_entities w entities) tick1 in
  let w :=
    with_conversationEntities w
      (map_set convId convData (conversationEntities (this w))) in
  Ok (with_timeline w
        (updateTimeline (timeline (this w)) date convEntities convId)).

(** [processBatch(batch)]. *)
Definition processBatch (env : Env.t) (w : World) (batch : list Conversation.t)
  : result World :=
  for_each (processConversation env) w batch.

(** [loadExistingEntities()]. *)
Definition loadExistingEntities (w : World) : World :=
  let w :=
    with_entities w
      (foldl (λ m entity, map_set (Entity.id entity) entity m)
         (entities (this w)) (DBManager.getAllEntities (db w))) in
  with_conversationEntities w
    (foldl (λ m conv, map_set (ConvData.id conv) conv m)
       (conversationEntities (this w)) (DBManager.getAllConversations (db w))).

(** [filterNewConversations(conversations)]. *)
Definition filterNewConversations (w : World) (conversations : list Conversation.t)
  : list Conversation.t :=
  let processedConvIds :=
    foldl (λ s conv, set_add (ConvData.id conv) s) []
      (DBManager.getAllConversations (db w)) in
  filter (λ conv,
    let convId :=
      or_str (Conversation.id conv) (Conversation.conversation_id conv) in
    convId ∉ processedConvIds) conversations.

Definition without_entity (entityId : string) (convData : ConvData.t) : ConvData.t :=
  ConvData.mk (ConvData.id convData) (ConvData.title convData)
    (ConvData.timestamp convData) (ConvData.date convData)
    (filter (λ id, id ≠ entityId) (ConvData.entities convData)).

Definition with_links (entity : Entity.t) (links : list string) : Entity.t :=
  Entity.mk (Entity.id entity) (Entity.type entity) (Entity.name entity)
    (Entity.description entity) (Entity.firstSeen entity) (Entity.lastSeen entity)
    (Entity.occurrences entity) (Entity.conversations entity) links
    (Entity.normalizedKey entity) (Entity.context entity).

(** [filterSparseEntities()]. *)
Definition filterSparseEntities (w : World) : World :=
  let '(toDelete, convs) :=
    foldl (λ '(toDelete, convs) '(entityId, entity),
      if bool_decide (Entity.occurrences entity < minOccurrences (this w)) then
        (toDelete ++ [entityId],
         prod_map id (without_entity entityId) <$> convs)
      else (toDelete, convs))
      ([], conversationEntities (this w)) (entities (this w)) in
  let kept := foldl (λ m id, map_delete id m) (entities (this w)) toDelete in
  let kept :=
    prod_map id (λ entity,
      with_links entity
        (filter (λ linkId, map_has linkId kept) (Entity.links entity))) <$> kept in
  with_conversationEntities (with_entities w kept) convs.

(** The comparator [(a, b) => a.date.localeCompare(b.date)]. *)
Definition by_date (env : Env.t) (a b : TimelineEntry.t) : Prop :=
  Env.localeCompare env (TimelineEntry.date a) (TimelineEntry.date b).
Global Instance by_date_dec env : RelDecision (by_date env).
Proof. intros a b. unfold by_date. apply _. Defined.

(** [buildTimeline()]. *)
Definition buildTimeline (env : Env.t) (w : World) : list TimelineEntry.t :=
  js_sort (by_date env)
    ((λ '(date, data),
        TimelineEntry.mk date (TimelineEntry.entities data)
          (TimelineEntry.conversations data)) <$> timeline (this w)).

(** The link that [computeRelationships] pushes when it is missing. *)
Definition add_link (entities : list (string * Entity.t)) (a b : string)
  : list (string * Entity.t) :=
  match map_get a entities with
  | Some entity =>
      if array_includes b (Entity.links entity) then entities
      else map_set a (with_links entity (Entity.links entity ++ [b])) entities
  | None => entities
  end.

(** The body of the two nested loops, on [entities[i]] and [entities[j]]. *)
Definition link_pair (entities : list (string * Entity.t)) (a b : string)
  : list (string * Entity.t) :=
  if map_has a entities && map_has b entities
  then add_link (add_link entities a b) b a
  else entities.

(** [for (i ...) for (j = i + 1 ...)] over the entity ids of a conversation. *)
Fixpoint link_all (entities : list (string * Entity.t)) (ids : list string)
  : list (string * Entity.t) :=
  match ids with
  | [] => entities
  | a :: rest => link_all (foldl (λ m b, link_pair m a b) entities rest) rest
  end.

(** [computeRelationships()]. *)
Definition computeRelationships (w : World) : World :=
  with_entities w
    (foldl (λ m '(convId, convData), link_all m (ConvData.entities convData))
       (entities (this w)) (conversationEntities (this w))).

(** [buildSearchIndex()]. *)
Definition buildSearchIndex (w : World) : World :=
  with_db w
    (foldl (λ d entity,
       let searchText :=
         toLowerCase (Entity.name entity +:+ " " +:+ Entity.description entity) in
       let words := filter (λ word, 2 < js_length word) (split_spaces searchText) in
       foldl (λ d word, DBManager.addToSearchIndex d word (Entity.id entity)) d words)
       (db w) (map_values (entities (this w)))).

(** [saveToDatabase()]. *)
Definition saveToDatabase (env : Env.t) (w : World) : World :=
  let w := computeRelationships w in
  let w := with_db w (foldl DBManager.saveEntity (db w) (map_values (entities (this w)))) in
  let w :=
    with_db w
      (foldl DBManager.saveConversation (db w)
         (map_values (conversationEntities (this w)))) in
  let w := with_db w (DBManager.saveTimeline (db w) (buildTimeline env w)) in
  buildSearchIndex w.

(** What [processConversations] returns. *)
Record Output : Type := mkOutput {
  out_entities : list Entity.t;
  out_conversations : list (string * ConvData.t);
  out_timeline : list TimelineEntry.t
}.

Definition output (env : Env.t) (w : World) : Output :=
  mkOutput (map_values (entities (this w))) (conversationEntities (this w))
    (buildTimeline env w).

(** [conversationsToProcess.slice(i, i + this.batchSize)] for the values
    [i = 0, batchSize, ...] of the loop, which are at most as many as the
    conversations when [batchSize] is positive. *)
Fixpoint batches (fuel size : nat) (l : list Conversation.t)
  : list (list Conversation.t) :=
  match fuel with
  | 0 => []
  | S fuel' =>
      match l with
      | [] => []
      | _ => take size l :: batches fuel' size (drop size l)
      end
  end.

(** One round of the batch loop: the state carries the index [i]. *)
Definition batch_round (env : Env.t) (resumeMode : bool) (total : nat)
    (s : World * nat) (batch : list Conversation.t) : result (World * nat) :=
  let '(w, i) := s in
  w ← processBatch env w batch ;
  let processed := (i + batchSize (this w)) `min` total in
  let w := with_counts w processed total in
  let w :=
    report w
      [("processed", VNum (Z.of_nat processed));
       ("total", VNum (Z.of_nat total));
       ("percentage", VFixed1 (processed * 100) total);
       ("entitiesFound", VNum (Z.of_nat (length (entities (this w)))));
       ("recentBatch", VNum (Z.of_nat (length batch)));
       ("resumeMode", VBool resumeMode)] in
  Ok (w, i + batchSize (this w)).

(** The first statements of [processConversations]: the callback is kept
    and, in resume mode, the stored entities and summaries are loaded. *)
Definition prepare (w : World) (onProgress resumeMode : bool) : World :=
  let w := with_onProgress w onProgress in
  if resumeMode then loadExistingEntities w else w.

(** The event of a run that finds nothing to process. *)
Definition nothing_new (w : World) (conversations : list Conversation.t)
  : list (string * JsVal) :=
  [("processed", VNum (Z.of_nat (length conversations)));
   ("total", VNum (Z.of_nat (length conversations)));
   ("percentage", VNum 100);
   ("entitiesFound", VNum (Z.of_nat (length (entities (this w)))));
   ("recentBatch", VNum 0);
   ("alreadyProcessed", VBool true)].

(** The last statements of [processConversations], after the batch loop:
    the sparse filter, the writes to the store and the two metadata
    records. *)
Definition finish (env : Env.t) (w : World) (conversations : list Conversation.t)
  : World :=
  let w := filterSparseEntities w in
  let w := saveToDatabase env w in
  let w :=
    with_tick
      (with_db w
         (DBManager.saveMetadata (db w) "lastProcessedTime"
            (Env.now env (tick w))))
      (S (tick w)) in
  with_db w
    (DBManager.saveMetadata (db w) "totalConversationsProcessed"
       (Z.of_nat (length conversations))).

(** The loop over the batches, for a positive [batchSize]: the state it
    leaves and the last value of [i]. *)
Definition batch_loop (env : Env.t) (w : World)
    (conversationsToProcess : list Conversation.t) (resumeMode : bool)
  : result (World * nat) :=
  let total := length conversationsToProcess in
  let w := with_counts w 0 total in
  for_each (batch_round env resumeMode total) (w, 0)
    (batches total (batchSize (this w)) conversationsToProcess).

(** [processConversations(conversations, onProgress, resumeMode = false)]. *)
Definition processConversations (env : Env.t) (w : World)
    (conversations : list Conversation.t) (onProgress resumeMode : bool)
  : result (World * Output) :=
  let w := prepare w onProgress resumeMode in
  let conversationsToProcess := filterNewConversations w conversations in
  if decide (length conversationsToProcess = 0) then
    let w := report w (nothing_new w conversations) in
    Ok (w, output env w)
  else if decide (batchSize (this w) = 0) then
    (* [i += 0]: the loop over the batches does not end *)
    Throw NoReturn
  else
    '(w, _) ← batch_loop env w conversationsToProcess resumeMode ;
    let w := finish env w conversations in
    Ok (w, output env w).

(** The object [{ start, end }] that the application passes for a range of
    conversations. *)
Record CustomRange : Type := mkRange {
  range_start : nat;
  range_end : nat
}.

(** A number or [null] taken as a condition. *)
Definition truthy (n : option Z) : bool :=
  match n with
  | Some n => bool_decide (n ≠ 0%Z)
  | None => false
  end.

(** The call [processConversations(conversations, onProgress, maxToProcess,
    customRange)] that the application makes: the function has three
    parameters, so the third argument is its [resumeMode] and the fourth
    is bound to nothing. The events carry the truth value of the third
    argument as their [resumeMode]. *)
Definition processConversations_call (env : Env.t) (w : World)
    (conversations : list Conversation.t) (onProgress : bool)
    (maxToProcess : option Z) (customRange : option CustomRange)
  : result (World * Output) :=
  processConversations env w conversations onProgress (truthy maxToProcess).

End MemoryProcessor.

(** ** The search engine *)

(** [Math.log]: the double it returns for a whole number is a rational. *)
Module MathEnv.
Record t : Type := mk {
  log : nat → Q
}.
End MathEnv.

Module SearchEngine.

(** An entity of a result list with its [_searchScore]. *)
Record Hit : Type := mkHit {
  entity : Entity.t;
  searchScore : Q
}.

(** [this.cache]: the cached entities with the time of their fetch. *)
Record t : Type := mk {
  cache : option (list Entity.t * Z)
}.

(** [new SearchEngine(dbManager)]. *)
Definition create : t := mk None.

(** The options of [search], with the defaults of the source. The bounds
    of [dateRange] are the epoch seconds [new Date(...)] reads from the two
    date strings. *)
Record Options : Type := mkOptions {
  types : list EntityType;
  dateRange : option (Z * Z);
  maxResults : nat;
  fuzzy : bool
}.
Definition defaults : Options := mkOptions [] None 50 true.

(** [levenshteinDistance(str1, str2)]. *)
Definition levenshteinDistance (str1 str2 : string) : nat :=
  let len1 := js_length str1 in
  let len2 := js_length str2 in
  if decide (len1 = 0) then len2
  else if decide (len2 = 0) then len1
  else
    let matrix := foldl (λ m i, js_set [] m i [i]) [] (seq 0 (S len1)) in
    let matrix := foldl (λ m j, set_cell m 0 j j) matrix (seq 0 (S len2)) in
    let matrix :=
      foldl (λ m i,
        foldl (λ m j,
          let cost :=
            if bool_decide (chars str1 !! (i - 1) = chars str2 !! (j - 1))
            then 0 else 1 in
          set_cell m i j
            (min3 (cell m (i - 1) j + 1)
                  (cell m i (j - 1) + 1)
                  (cell m (i - 1) (j - 1) + cost)))
          m (seq 1 len2))
        matrix (seq 1 len1) in
    cell matrix len1 len2.

(** [fuzzyMatch(text, term)]. *)
Definition fuzzyMatch (text term : string) : bool :=
  let words := split_spaces text in
  bool_decide
    (Exists (λ word,
       levenshteinDistance word term ≤ 2 `min` (js_length term `div` 3)) words).

(** The points of one entity in [fuzzySearch]: the score and the number of
    matching terms. *)
Definition term_points (entity : Entity.t) (searchText : string)
    (s : Z * nat) (term : string) : Z * nat :=
  let '(score, matches) := s in
  if bool_decide (js_length term < 2) then (score, matches)
  else if includes (toLowerCase (Entity.name entity)) term then
    ((score + 10)%Z, S matches)
  else if includes (toLowerCase (Entity.description entity)) term then
    ((score + 5)%Z, S matches)
  else if fuzzyMatch searchText term then ((score + 2)%Z, S matches)
  else (score, matches).

(** [fuzzySearch(entities, query)]. *)
Definition fuzzySearch (entities : list Entity.t) (query : string) : list Hit :=
  let queryTerms := split_spaces query in
  omap (λ entity,
    let searchText :=
      toLowerCase (Entity.name entity +:+ " " +:+ Entity.description entity) in
    let '(score, matches) :=
      foldl (term_points entity searchText) (0%Z, 0) queryTerms in
    if bool_decide (0 < matches) then Some (mkHit entity (inject_Z score))
    else None) entities.

(** The score [scoreResults] gives to one result at the time [now]
    (milliseconds). *)
Definition rescore (math : MathEnv.t) (now : Z) (queryLower : string) (h : Hit)
  : Hit :=
  let e := entity h in
  let score := searchScore h in
  let score :=
    if decide (toLowerCase (Entity.name e) = queryLower) then (score + 100)%Q
    else if startsWith (toLowerCase (Entity.name e)) queryLower then (score + 50)%Q
    else score in
  let score := (score + MathEnv.log math (Entity.occurrences e + 1) * 2)%Q in
  let score :=
    if decide (now - 1000 * Entity.lastSeen e < 7 * 86400000)%Z then (score + 10)%Q
    else if decide (now - 1000 * Entity.lastSeen e < 30 * 86400000)%Z then (score + 5)%Q
    else score in
  mkHit e score.

Definition by_score (a b : Hit) : Prop := Qle_bool (searchScore b) (searchScore a).
Global Instance by_score_dec : RelDecision by_score.
Proof. intros a b. unfold by_score. apply _. Defined.

(** [scoreResults(results, query)]: every result reads the clock once. *)
Definition scoreResults (math : MathEnv.t) (env : Env.t) (tick : nat)
    (results : list Hit) (query : string) : list Hit * nat :=
  let queryLower := toLowerCase query in
  let scored :=
    imap (λ i h, rescore math (Env.now env (tick + i)) queryLower h) results in
  (js_sort by_score scored, tick + length results).

(** [getAllEntities()], with the cache of five minutes. *)
Definition getAllEntities (env : Env.t) (tick : nat) (db : DBManager.t) (s : t)
  : list Entity.t * t * nat :=
  match cache s with
  | Some (allEntities, lastUpdated) =>
      if decide (lastUpdated ≠ 0%Z) then
        if decide (Env.now env tick - lastUpdated < 5 * 60 * 1000)%Z then
          (allEntities, s, S tick)
        else
          let entities := DBManager.getAllEntities db in
          (entities, mk (Some (entities, Env.now env (S tick))), S (S tick))
      else
        let entities := DBManager.getAllEntities db in
        (entities, mk (Some (entities, Env.now env tick)), S tick)
  | None =>
      let entities := DBManager.getAllEntities db in
      (entities, mk (Some (entities, Env.now env tick)), S tick)
  end.

Definition by_lastSeen (a b : Entity.t) : Prop :=
  (Entity.lastSeen b ≤ Entity.lastSeen a)%Z.
Global Instance by_lastSeen_dec : RelDecision by_lastSeen.
Proof. intros a b. unfold by_lastSeen. apply _. Defined.

(** [getRecentEntities(maxResults)]; [sort] orders the cached array itself. *)
Definition getRecentEntities (env : Env.t) (tick : nat) (db : DBManager.t)
    (s : t) (maxResults : nat) : list Hit * t * nat :=
  let '(allEntities, s, tick) := getAllEntities env tick db s in
  let sorted := js_sort by_lastSeen allEntities in
  let s :=
    match cache s with
    | Some (_, lastUpdated) => mk (Some (sorted, lastUpdated))
    | None => s
    end in
  ((λ e, mkHit e 0%Q) <$> take maxResults sorted, s, tick).

(** [search(query, options)]. *)
Definition search (math : MathEnv.t) (env : Env.t) (tick : nat)
    (db : DBManager.t) (s : t) (query : string) (options : Options)
  : list Hit * t * nat :=
  if bool_decide (query = "") || bool_decide (js_length (trim query) = 0) then
    getRecentEntities env tick db s (maxResults options)
  else
    let searchTerm := trim (toLowerCase query) in
    let results := (λ e, mkHit e 0%Q) <$> DBManager.searchIndexQuery db searchTerm in
    let '(results, s, tick) :=
      if bool_decide (length results = 0) || fuzzy options then
        let '(allEntities, s, tick) := getAllEntities env tick db s in
        let fuzzyResults := fuzzySearch allEntities searchTerm in
        let exactIds :=
          foldl (λ ids r, set_add (Entity.id (entity r)) ids) [] results in
        (foldl (λ results result,
           if bool_decide (Entity.id (entity result) ∉ exactIds)
           then results ++ [result] else results) results fuzzyResults,
         s, tick)
      else (results, s, tick) in
    let results :=
      if bool_decide (0 < length (types options)) then
        filter (λ r, Entity.type (entity r) ∈ types options) results
      else results in
    let results :=
      match dateRange options with
      | Some (startTime, endTime) =>
          filter (λ r,
            (startTime ≤ Entity.firstSeen (entity r))%Z
            ∧ (Entity.lastSeen (entity r) ≤ endTime)%Z) results
      | None => results
      end in
    let '(results, tick) := scoreResults math env tick results searchTerm in
    (take (maxResults options) results, s, tick).

Definition by_occurrences (a b : Entity.t) : Prop :=
  Entity.occurrences b ≤ Entity.occurrences a.
Global Instance by_occurrences_dec : RelDecision by_occurrences.
Proof. intros a b. unfold by_occurrences. apply _. Defined.

(** [allEntities.sort(compare)] on the array of [getAllEntities()], which
    is the array of the cache: the cache holds the sorted array afterwards. *)
Definition sort_cached (s : t) (sorted : list Entity.t) : t :=
  match cache s with
  | Some (_, lastUpdated) => mk (Some (sorted, lastUpdated))
  | None => s
  end.

(** [getPopularEntities(maxResults)]. *)
Definition getPopularEntities (env : Env.t) (tick : nat) (db : DBManager.t)
    (s : t) (maxResults : nat) : list Entity.t * t * nat :=
  let '(allEntities, s, tick) := getAllEntities env tick db s in
  let sorted := js_sort by_occurrences allEntities in
  (take maxResults sorted, sort_cached s sorted, tick).

(** [getEntitiesByType(type)]. *)
Definition getEntitiesByType (db : DBManager.t) (type : EntityType)
  : list Entity.t :=
  DBManager.getEntitiesByType db type.

(** A suggestion [{text, type, id}]. *)
Record Suggestion : Type := mkSuggestion {
  text : string;
  suggestion_type : EntityType;
  suggestion_id : string
}.

(** [getSuggestions(partialQuery, maxSuggestions)]; [filter] makes a new
    array, so the cache keeps its order. *)
Definition getSuggestions (env : Env.t) (tick : nat) (db : DBManager.t) (s : t)
    (partialQuery : string) (maxSuggestions : nat)
  : list Suggestion * t * nat :=
  if bool_decide (partialQuery = "") || bool_decide (js_length partialQuery < 2)
  then ([], s, tick)
  else
    let query := toLowerCase partialQuery in
    let '(allEntities, s, tick) := getAllEntities env tick db s in
    let suggestions :=
      take maxSuggestions
        (js_sort by_occurrences
           (filter (λ entity, startsWith (toLowerCase (Entity.name entity)) query)
              allEntities)) in
    ((λ entity,
        mkSuggestion (Entity.name entity) (Entity.type entity) (Entity.id entity))
       <$> suggestions, s, tick).

Definition by_timestamp (a b : ConvData.t) : Prop :=
  (ConvData.timestamp b ≤ ConvData.timestamp a)%Z.
Global Instance by_timestamp_dec : RelDecision by_timestamp.
Proof. intros a b. unfold by_timestamp. apply _. Defined.

(** [searchConversations(query, maxResults)]. *)
Definition searchConversations (db : DBManager.t) (query : string)
    (maxResults : nat) : list ConvData.t :=
  let queryLower := toLowerCase query in
  take maxResults
    (js_sort by_timestamp
       (filter (λ conv, includes (toLowerCase (ConvData.title conv)) queryLower)
          (DBManager.getAllConversations db))).

(** The parameters of [advancedSearch]; [maxOccurrences] is [None] for
    [Infinity], [hasLinks] is [None] for [null], and [Relevance] stands for
    ['relevance'] and for every string [sortBy] that is not one of the
    other three. *)
Inductive SortBy : Type := Relevance | Occurrences | Recent | Alphabetical.

Record SearchParams : Type := mkSearchParams {
  param_query : string;
  param_types : list EntityType;
  param_dateRange : option (Z * Z);
  param_minOccurrences : nat;
  param_maxOccurrences : option nat;
  param_hasLinks : option bool;
  param_sortBy : SortBy
}.

(** The defaults of the destructuring. *)
Definition default_params : SearchParams :=
  mkSearchParams "" [] None 0 None None Relevance.


(** The three comparators of [advancedSearch]; [localeCompare a b] reads
    [a.localeCompare(b) <= 0] in the locale of the browser. *)
Definition hit_by_occurrences (a b : Hit) : Prop :=
  by_occurrences (entity a) (entity b).
Global Instance hit_by_occurrences_dec : RelDecision hit_by_occurrences.
Proof. intros a b. unfold hit_by_occurrences. apply _. Defined.

Definition hit_by_lastSeen (a b : Hit) : Prop := by_lastSeen (entity a) (entity b).
Global Instance hit_by_lastSeen_dec : RelDecision hit_by_lastSeen.
Proof. intros a b. unfold hit_by_lastSeen. apply _. Defined.

Definition hit_by_name (localeCompare : string → string → Prop) (a b : Hit)
  : Prop :=
  localeCompare (Entity.name (entity a)) (Entity.name (entity b)).
Global Instance hit_by_name_dec (localeCompare : string → string → Prop)
    `{!RelDecision localeCompare} : RelDecision (hit_by_name localeCompare).
Proof. intros a b. unfold hit_by_name. apply _. Defined.


(** [averageOccurrences]: a quotient, [Infinity] for a positive number
    over [0], or [NaN] for [0 / 0]. *)
Inductive Average : Type := Quotient (q : Q) | Infinity | NaN.

(** What [getSearchStats()] returns. *)
Record Stats : Type := mkStats {
  totalEntities : nat;
  byType : list (string * nat);
  totalOccurrences : nat;
  averageOccurrences : Average;
  entitiesWithLinks : nat;
  totalLinks : nat
}.

(** The body of the loop of [getSearchStats] on one entity. *)
Definition count_entity (stats : Stats) (e : Entity.t) : Stats :=
  let linked := bool_decide (0 < length (Entity.links e)) in
  mkStats (totalEntities stats)
    (DBManager.count_up (byType stats) (type_name (Entity.type e)))
    (totalOccurrences stats + Entity.occurrences e)
    (averageOccurrences stats)
    (if linked then S (entitiesWithLinks stats) else entitiesWithLinks stats)
    (if linked then totalLinks stats + length (Entity.links e)
     else totalLinks stats).

(** [getSearchStats()]. *)
Definition getSearchStats (env : Env.t) (tick : nat) (db : DBManager.t) (s : t)
  : Stats * t * nat :=
  let '(allEntities, s, tick) := getAllEntities env tick db s in
  let stats :=
    foldl count_entity (mkStats (length allEntities) [] 0 (Quotient 0) 0 0)
      allEntities in
  (mkStats (totalEntities stats) (byType stats) (totalOccurrences stats)
     (if decide (totalEntities stats = 0) then
        if decide (totalOccurrences stats = 0) then NaN else Infinity
      else
        Quotient (Z.of_nat (totalOccurrences stats)
                  # Pos.of_nat (totalEntities stats)))
     (entitiesWithLinks stats) (totalLinks stats),
   s, tick).

(** [clearCache()]. *)
Definition clearCache (s : t) : t := mk None.

(** An entity of [findRelatedEntities] with its [_coOccurrenceCount]. *)
Record Related : Type := mkRelated {
  related : Entity.t;
  coOccurrenceCount : nat
}.

Definition by_count (a b : string * nat) : Prop := b.2 ≤ a.2.
Global Instance by_count_dec : RelDecision by_count.
Proof. intros a b. unfold by_count. apply _. Defined.

(** The counts of the ids that share a conversation with [entityId]. *)
Definition relatedCounts (db : DBManager.t) (entityId : string)
    (conversations : list string) : list (string * nat) :=
  foldl (λ counts convId,
    match DBManager.getConversation db convId with
    | Some conv =>
        foldl (λ counts otherId,
          if decide (otherId ≠ entityId) then DBManager.count_up counts otherId
          else counts) counts (ConvData.entities conv)
    | None => counts
    end) [] conversations.

(** [findRelatedEntities(entityId, maxResults)]. *)
Definition findRelatedEntities (db : DBManager.t) (entityId : string)
    (maxResults : nat) : list Related :=
  match DBManager.getEntity db entityId with
  | None => []
  | Some entity =>
      let counts := relatedCounts db entityId (Entity.conversations entity) in
      let chosen := take maxResults (js_sort by_count counts) in
      omap (λ '(otherId, count),
        (λ otherEntity, mkRelated otherEntity count)
        <$> DBManager.getEntity db otherId) chosen
  end.

End SearchEngine.

(** ** The graph renderer

    Coordinates, offsets and the scale are JavaScript numbers. The culling
    only adds, subtracts, negates, divides and compares them, so it is
    written over any type with these operations: the doubles of the source
    are one, the rationals another. *)

Class JsNumber (num : Type) : Type := {
  n_add : num → num → num;
  n_sub : num → num → num;
  n_neg : num → num;
  n_div : num → num → num;
  n_le : num → num → bool;
  n_of_Z : Z → num
}.

Global Instance Q_JsNumber : JsNumber Q := {|
  n_add := Qplus;
  n_sub := Qminus;
  n_neg := Qopp;
  n_div := Qdiv;
  n_le := Qle_bool;
  n_of_Z := inject_Z
|}.

Module GraphRenderer.
Section Renderer.
Context {num : Type} `{JsNumber num}.

Record Node : Type := mkNode {
  id : string;
  label : string;
  type : EntityType;
  x : num;
  y : num;
  visible : bool
}.

(** An edge refers to its two node objects: their positions in [nodes]. *)
Record Edge : Type := mkEdge {
  source : nat;
  target : nat
}.

Record Viewport : Type := mkViewport {
  offsetX : num;
  offsetY : num;
  scale : num
}.

Record t : Type := mk {
  width : num;
  height : num;
  nodes : list Node;
  edges : list Edge;
  viewport : Viewport;
  visibleNodes : list Node;
  visibleEdges : list Edge
}.







End Renderer.
End GraphRenderer.


(** ** The timeline view *)

Module TimelineView.

(** [this.timeline] and [this.entities]. *)
Record t : Type := mk {
  timeline : list TimelineEntry.t;
  entities : list (string * Entity.t)
}.

(** [new TimelineView(container, dbManager)]. *)
Definition create : t := mk [] [].

(** [loadData()]. *)
Definition loadData (db : DBManager.t) (v : t) : t :=
  mk (DBManager.getTimeline db)
    (foldl (λ m entity, map_set (Entity.id entity) entity m) []
       (DBManager.getAllEntities db)).

(** [entry.date >= startDate && entry.date <= endDate]: strings compare by
    their code units. *)
Definition in_range (startDate endDate : string) (entry : TimelineEntry.t) : bool :=
  bool_decide (String.le startDate (TimelineEntry.date entry))
  && bool_decide (String.le (TimelineEntry.date entry) endDate).

(** [getEntitiesInRange(startDate, endDate)]. *)
Definition getEntitiesInRange (v : t) (startDate endDate : string)
  : list Entity.t :=
  let entitySet :=
    foldl (λ s entry,
      if in_range startDate endDate entry then
        foldl (λ s id, set_add id s) s (TimelineEntry.entities entry)
      else s) [] (timeline v) in
  omap (λ id, map_get id (entities v)) entitySet.

(** [getConversationsInRange(startDate, endDate)]. *)
Definition getConversationsInRange (v : t) (startDate endDate : string)
  : list string :=
  foldl (λ convIds entry,
    if in_range startDate endDate entry then
      convIds ++ TimelineEntry.conversations entry
    else convIds) [] (timeline v).

End TimelineView.
(** * Part II: properties *)

(** ** Edit distance: reference definition and edit scripts *)

Section EditDistance.
Context {A : Type} `{EqDecision A}.

(** The reference recursive definition of the Levenshtein distance. *)
Fixpoint lev (s t : list A) : nat :=
  match s with
  | [] => length t
  | a :: s' =>
      (fix lev_row (t : list A) : nat :=
         match t with
         | [] => length s
         | b :: t' =>
             if decide (a = b) then lev s' t'
             else S (min3 (lev s' t) (lev_row t') (lev s' t'))
         end) t
  end.

Definition subst_cost (a b : A) : nat := if decide (a = b) then 0 else 1.

(** The Wagner-Fischer recurrence, with the three unit-cost operations
    written out in every cell. *)
Fixpoint lev_min3 (s t : list A) : nat :=
  match s with
  | [] => length t
  | a :: s' =>
      (fix lev_row (t : list A) : nat :=
         match t with
         | [] => length s
         | b :: t' =>
             min3 (lev_min3 s' t + 1) (lev_row t' + 1)
                  (lev_min3 s' t' + subst_cost a b)
         end) t
  end.

(** Edit scripts with their cost: [edit s t n] when [s] can be rewritten
    into [t] by deletions, insertions and substitutions of total cost [n]
    (a substitution of a character by itself is free). *)
Inductive edit : list A → list A → nat → Prop :=
  | edit_nil : edit [] [] 0
  | edit_del a s t n : edit s t n → edit (a :: s) t (S n)
  | edit_ins b s t n : edit s t n → edit s (b :: t) (S n)
  | edit_sub a b s t n : edit s t n → edit (a :: s) (b :: t) (n + subst_cost a b).

Lemma lev_nil_r s : lev s [] = length s.
Proof. by destruct s. Qed.

Lemma lev_min3_nil_r s : lev_min3 s [] = length s.
Proof. by destruct s. Qed.

Lemma lev_cons a b s t :
  lev (a :: s) (b :: t) =
    if decide (a = b) then lev s t
    else S (min3 (lev s (b :: t)) (lev (a :: s) t) (lev s t)).
Proof. reflexivity. Qed.

Lemma lev_min3_cons a b s t :
  lev_min3 (a :: s) (b :: t) =
    min3 (lev_min3 s (b :: t) + 1) (lev_min3 (a :: s) t + 1)
         (lev_min3 s t + subst_cost a b).
Proof. reflexivity. Qed.

Lemma edit_all_ins t : edit [] t (length t).
Proof. induction t; simpl; by constructor. Qed.

Lemma edit_all_del s : edit s [] (length s).
Proof. induction s; simpl; by constructor. Qed.

Lemma min3_cases a b c :
  (min3 a b c = a ∧ a ≤ b ∧ a ≤ c) ∨ (min3 a b c = b ∧ b ≤ a ∧ b ≤ c)
  ∨ (min3 a b c = c ∧ c ≤ a ∧ c ≤ b).
Proof. unfold min3. lia. Qed.

(** [lev_min3] is the cost of some script ... *)
Lemma lev_min3_sound s t : edit s t (lev_min3 s t).
Proof.
  revert t. induction s as [|a s IHs]; intros t.
  { apply edit_all_ins. }
  induction t as [|b t IHt].
  { apply (edit_all_del (a :: s)). }
  rewrite lev_min3_cons.
  destruct (min3_cases (lev_min3 s (b :: t) + 1) (lev_min3 (a :: s) t + 1)
              (lev_min3 s t + subst_cost a b)) as [(-> & _)|[(-> & _)|(-> & _)]].
  - rewrite Nat.add_1_r. apply edit_del, IHs.
  - rewrite Nat.add_1_r. apply edit_ins, IHt.
  - apply edit_sub, IHs.
Qed.

(** ... and no script is cheaper. *)
Lemma lev_min3_least s t n : edit s t n → lev_min3 s t ≤ n.
Proof.
  induction 1 as [|a s t n _ IH|b s t n _ IH|a b s t n _ IH].
  - done.
  - destruct t as [|b t]; [rewrite !lev_min3_nil_r in *; simpl; lia|].
    rewrite lev_min3_cons. unfold min3. lia.
  - destruct s as [|a s]; [simpl in *; lia|].
    rewrite lev_min3_cons. unfold min3. lia.
  - rewrite lev_min3_cons. unfold min3. lia.
Qed.

(** Dropping the first character of the target costs at most one more. *)
Lemma edit_drop_target s t' n :
  edit s t' n → ∀ b t, t' = b :: t → ∃ m, edit s t m ∧ m ≤ S n.
Proof.
  induction 1 as [|a s t0 n _ IH|b0 s t0 n H _|a b0 s t0 n H _]; intros b t Heq.
  - done.
  - destruct (IH b t Heq) as (m & Hm & Hle).
    exists (S m). split; [by constructor | lia].
  - simplify_eq. exists n. split; [done | lia].
  - simplify_eq. exists (S n). split; [by constructor | lia].
Qed.

Lemma edit_drop_source s' t n :
  edit s' t n → ∀ a s, s' = a :: s → ∃ m, edit s t m ∧ m ≤ S n.
Proof.
  induction 1 as [|a0 s0 t n H _|b s0 t n _ IH|a0 b s0 t n H _]; intros a s Heq.
  - done.
  - simplify_eq. exists n. split; [done | lia].
  - destruct (IH a s Heq) as (m & Hm & Hle).
    exists (S m). split; [by constructor | lia].
  - simplify_eq. exists (S n). split; [by constructor | lia].
Qed.

Lemma lev_min3_drop_target s b t : lev_min3 s t ≤ S (lev_min3 s (b :: t)).
Proof.
  destruct (edit_drop_target _ _ _ (lev_min3_sound s (b :: t)) b t eq_refl)
    as (m & Hm & Hle).
  apply lev_min3_least in Hm. lia.
Qed.

Lemma lev_min3_drop_source a s t : lev_min3 s t ≤ S (lev_min3 (a :: s) t).
Proof.
  destruct (edit_drop_source _ _ _ (lev_min3_sound (a :: s) t) a s eq_refl)
    as (m & Hm & Hle).
  apply lev_min3_least in Hm. lia.
Qed.

(** The reference definition and the three-way recurrence agree. *)
Lemma lev_lev_min3 s t : lev s t = lev_min3 s t.
Proof.
  revert t. induction s as [|a s IHs]; intros t; [done|].
  induction t as [|b t IHt]; [done|].
  rewrite lev_cons, lev_min3_cons, IHt, !IHs.
  pose proof (lev_min3_drop_target s b t).
  pose proof (lev_min3_drop_source a s t).
  unfold subst_cost, min3. destruct (decide (a = b)); lia.
Qed.

Lemma lev_sound s t : edit s t (lev s t).
Proof. rewrite lev_lev_min3. apply lev_min3_sound. Qed.

Lemma lev_least s t n : edit s t n → lev s t ≤ n.
Proof. rewrite lev_lev_min3. apply lev_min3_least. Qed.

(** Scripts can be extended at the end of the two strings ... *)
Lemma edit_snoc_del s t n a : edit s t n → edit (s ++ [a]) t (S n).
Proof.
  induction 1 as [|a0 s t n _ IH|b s t n _ IH|a0 b s t n _ IH]; simpl.
  - apply edit_del, edit_nil.
  - by apply edit_del.
  - by apply edit_ins.
  - by apply (edit_sub a0 b _ _ (S n)).
Qed.

Lemma edit_snoc_ins s t n b : edit s t n → edit s (t ++ [b]) (S n).
Proof.
  induction 1 as [|a s t n _ IH|b0 s t n _ IH|a b0 s t n _ IH]; simpl.
  - apply edit_ins, edit_nil.
  - by apply edit_del.
  - by apply edit_ins.
  - by apply (edit_sub a b0 _ _ (S n)).
Qed.

Lemma edit_snoc_sub s t n a b :
  edit s t n → edit (s ++ [a]) (t ++ [b]) (n + subst_cost a b).
Proof.
  induction 1 as [|a0 s t n _ IH|b0 s t n _ IH|a0 b0 s t n _ IH]; simpl.
  - apply (edit_sub a b [] [] 0), edit_nil.
  - by apply (edit_del a0 _ _ (n + subst_cost a b)).
  - by apply (edit_ins b0 _ _ (n + subst_cost a b)).
  - replace (n + subst_cost a0 b0 + subst_cost a b)
      with (n + subst_cost a b + subst_cost a0 b0) by lia.
    by apply edit_sub.
Qed.

(** ... hence a script can be read backwards. *)
Lemma edit_reverse s t n : edit s t n → edit (reverse s) (reverse t) n.
Proof.
  induction 1 as [|a s t n _ IH|b s t n _ IH|a b s t n _ IH];
    rewrite ?reverse_nil, ?reverse_cons.
  - constructor.
  - by apply edit_snoc_del.
  - by apply edit_snoc_ins.
  - by apply edit_snoc_sub.
Qed.

Lemma lev_reverse s t : lev (reverse s) (reverse t) = lev s t.
Proof.
  apply Nat.le_antisymm.
  - apply lev_least, edit_reverse, lev_sound.
  - rewrite <-(reverse_involutive s), <-(reverse_involutive t) at 1.
    apply lev_least, edit_reverse, lev_sound.
Qed.

(** The recurrence read at the end of the strings, as the matrix of the
    dynamic program fills it. *)
Lemma lev_snoc s t a b :
  lev (s ++ [a]) (t ++ [b]) =
    min3 (lev s (t ++ [b]) + 1) (lev (s ++ [a]) t + 1) (lev s t + subst_cost a b).
Proof.
  rewrite <-(lev_reverse (s ++ [a]) (t ++ [b])), <-(lev_reverse s (t ++ [b])),
    <-(lev_reverse (s ++ [a]) t), <-(lev_reverse s t).
  rewrite !reverse_snoc, !lev_lev_min3. apply lev_min3_cons.
Qed.

Lemma lev_nil_l t : lev [] t = length t.
Proof. done. Qed.

Lemma lev_snoc_nil s a : lev (s ++ [a]) [] = S (length s).
Proof. rewrite lev_nil_r, length_app. simpl. lia. Qed.

Lemma lev_le_lengths s t : lev s t ≤ length s + length t.
Proof.
  apply lev_least.
  induction s as [|a s IH]; simpl; [apply edit_all_ins | by constructor].
Qed.
End EditDistance.


(** ** Sorted arrays *)

Section JsSortFacts.
Context {B : Type} (before : B → B → Prop) `{!RelDecision before}.

Lemma sort_insert_Permutation (x : B) (l : list B) :
  sort_insert before x l ≡ₚ x :: l.
Proof.
  induction l as [|y l IH]; cbn; [done|].
  destruct (decide (before x y)); [done|].
  rewrite IH. apply Permutation_swap.
Qed.

Lemma js_sort_Permutation (l : list B) : js_sort before l ≡ₚ l.
Proof.
  induction l as [|x l IH]; [done|].
  change (js_sort before (x :: l)) with (sort_insert before x (js_sort before l)).
  rewrite sort_insert_Permutation. by rewrite IH.
Qed.

Lemma js_sort_elem (l : list B) (x : B) : x ∈ js_sort before l ↔ x ∈ l.
Proof. by rewrite js_sort_Permutation. Qed.

Lemma js_sort_length (l : list B) : length (js_sort before l) = length l.
Proof. by rewrite js_sort_Permutation. Qed.

Lemma sort_insert_Sorted `{!Total before} (x : B) (l : list B) :
  Sorted before l → Sorted before (sort_insert before x l).
Proof.
  induction 1 as [|y l Hsorted IH Hhd]; cbn.
  - by repeat constructor.
  - destruct (decide (before x y)) as [Hxy|Hxy].
    + by repeat constructor.
    + constructor; [done|].
      assert (before y x) as Hyx by (by destruct (total before x y)).
      destruct Hhd as [|z l' Hyz]; cbn.
      * by constructor.
      * by destruct (decide (before x z)); constructor.
Qed.

Lemma js_sort_Sorted `{!Total before} (l : list B) : Sorted before (js_sort before l).
Proof.
  induction l as [|x l IH]; [constructor|].
  change (js_sort before (x :: l)) with (sort_insert before x (js_sort before l)).
  by apply sort_insert_Sorted.
Qed.

Lemma js_sort_StronglySorted `{!Transitive before, !Total before} (l : list B) :
  StronglySorted before (js_sort before l).
Proof. apply Sorted_StronglySorted; [done|]. apply js_sort_Sorted. Qed.

(** The elements of one class keep their order. *)
Lemma sort_insert_filter (P : B → Prop) `{!∀ x, Decision (P x)} (x : B)
    (l : list B) :
  (∀ y, P x → P y → before x y) →
  filter P (sort_insert before x l) = filter P (x :: l).
Proof.
  intros Hclass. induction l as [|y l IH]; cbn; [done|].
  destruct (decide (before x y)) as [Hxy|Hxy]; [done|].
  rewrite !filter_cons, IH, filter_cons.
  destruct (decide (P x)) as [Hx|Hx]; [|done].
  destruct (decide (P y)) as [Hy|Hy]; [|done].
  by destruct Hxy; apply Hclass.
Qed.

Lemma js_sort_filter (P : B → Prop) `{!∀ x, Decision (P x)} (l : list B) :
  (∀ x y, P x → P y → before x y) →
  filter P (js_sort before l) = filter P l.
Proof.
  intros Hclass. induction l as [|x l IH]; [done|].
  change (js_sort before (x :: l)) with (sort_insert before x (js_sort before l)).
  rewrite sort_insert_filter by (intros y; apply Hclass).
  by rewrite !filter_cons, IH.
Qed.

(** An array in order is left as it is. *)
Lemma js_sort_sorted `{!Transitive before} (l : list B) :
  Sorted before l → js_sort before l = l.
Proof.
  intros Hsorted%Sorted_StronglySorted; [|done].
  induction Hsorted as [|x l Hsorted IH Hall]; [done|].
  change (js_sort before (x :: l)) with (sort_insert before x (js_sort before l)).
  rewrite IH. destruct Hall as [|y l Hxy _]; cbn; [done|].
  by rewrite decide_True.
Qed.
End JsSortFacts.


Lemma StronglySorted_take {B : Type} (R : relation B) (n : nat) (l : list B) :
  StronglySorted R l → StronglySorted R (take n l).
Proof.
  intros Hsorted. rewrite <-(take_drop n l) in Hsorted.
  by apply StronglySorted_app_1_l in Hsorted.
Qed.

Lemma StronglySorted_lookup {B : Type} (R : relation B) (l : list B) i j a b :
  StronglySorted R l → l !! i = Some a → l !! j = Some b → i < j → R a b.
Proof.
  intros Hsorted. revert i j.
  induction Hsorted as [|x l Hsorted IH Hall]; intros i j Hi Hj Hij; [done|].
  destruct j as [|j]; [lia|]. cbn in Hj. destruct i as [|i]; cbn in Hi.
  - injection Hi as ->. rewrite Forall_forall in Hall. apply Hall.
    by eapply list_elem_of_lookup_2.
  - apply (IH i j); [done..|lia].
Qed.

Global Instance by_score_total : Total SearchEngine.by_score.
Proof.
  intros a b. unfold SearchEngine.by_score.
  destruct (Qlt_le_dec (SearchEngine.searchScore a) (SearchEngine.searchScore b))
    as [Hlt%Qlt_le_weak|Hle].
  - right. by apply Is_true_true, Qle_bool_iff.
  - left. by apply Is_true_true, Qle_bool_iff.
Qed.

Global Instance by_score_trans : Transitive SearchEngine.by_score.
Proof.
  intros a b c. unfold SearchEngine.by_score.
  rewrite !Is_true_true, !Qle_bool_iff. intros Hab Hbc. by eapply Qle_trans.
Qed.

Global Instance by_lastSeen_total : Total SearchEngine.by_lastSeen.
Proof. intros a b. unfold SearchEngine.by_lastSeen. lia. Qed.
Global Instance by_lastSeen_trans : Transitive SearchEngine.by_lastSeen.
Proof. intros a b c. unfold SearchEngine.by_lastSeen. lia. Qed.

Global Instance by_occurrences_total : Total SearchEngine.by_occurrences.
Proof. intros a b. unfold SearchEngine.by_occurrences. lia. Qed.
Global Instance by_occurrences_trans : Transitive SearchEngine.by_occurrences.
Proof. intros a b c. unfold SearchEngine.by_occurrences. lia. Qed.

Global Instance by_timestamp_total : Total SearchEngine.by_timestamp.
Proof. intros a b. unfold SearchEngine.by_timestamp. lia. Qed.
Global Instance by_timestamp_trans : Transitive SearchEngine.by_timestamp.
Proof. intros a b c. unfold SearchEngine.by_timestamp. lia. Qed.

Global Instance by_count_total : Total SearchEngine.by_count.
Proof. intros a b. unfold SearchEngine.by_count. lia. Qed.
Global Instance by_count_trans : Transitive SearchEngine.by_count.
Proof. intros a b c. unfold SearchEngine.by_count. lia. Qed.
(** ** The matrix program over any alphabet *)

Section DistanceMatrix.
Context {A : Type} `{EqDecision A}.

(** The body that the two [levenshteinDistance] functions share, on the
    code units of the two strings. *)
Definition levenshtein_matrix (str1 str2 : list A) : nat :=
  let len1 := length str1 in
  let len2 := length str2 in
  if decide (len1 = 0) then len2
  else if decide (len2 = 0) then len1
  else
    let matrix := foldl (λ m i, js_set [] m i [i]) [] (seq 0 (S len1)) in
    let matrix := foldl (λ m j, set_cell m 0 j j) matrix (seq 0 (S len2)) in
    let matrix :=
      foldl (λ m i,
        foldl (λ m j,
          let cost :=
            if bool_decide (str1 !! (i - 1) = str2 !! (j - 1)) then 0 else 1 in
          set_cell m i j
            (min3 (cell m (i - 1) j + 1)
                  (cell m i (j - 1) + 1)
                  (cell m (i - 1) (j - 1) + cost)))
          m (seq 1 len2))
        matrix (seq 1 len1) in
    cell matrix len1 len2.
End DistanceMatrix.

Lemma js_set_push {B : Type} (hole : B) (l : list B) (v : B) :
  js_set hole l (length l) v = l ++ [v].
Proof.
  unfold js_set. rewrite decide_False by lia. by rewrite Nat.sub_diag.
Qed.

Lemma foldl_js_set_seq {B : Type} (hole : B) (f : nat → B) (n : nat) :
  foldl (λ l i, js_set hole l i (f i)) [] (seq 0 n) = f <$> seq 0 n.
Proof.
  induction n as [|n IH]; [done|].
  rewrite seq_S, foldl_app, IH, fmap_app. cbn [foldl fmap list_fmap].
  rewrite <-(js_set_push hole). by rewrite length_fmap, length_seq.
Qed.

(** ** Correctness of the distance matrix *)

Section Correct.
Context {A : Type} `{EqDecision A}.
Variables str1 str2 : list A.

(** The distance between the prefixes of length [r] and [j]. *)
Definition D (r j : nat) : nat := lev (take r str1) (take j str2).

(** The matrix whose row [r] holds its first [w r] cells. *)
Definition tab (w : nat → nat) (n : nat) : list (list nat) :=
  (λ r, D r <$> seq 0 (w r)) <$> seq 0 n.

Lemma tab_ext w w' n : (∀ r, r < n → w r = w' r) → tab w n = tab w' n.
Proof.
  intros Hw. unfold tab. apply list_fmap_ext.
  intros i r Hr. apply lookup_seq in Hr as [-> ?]. simpl.
  by rewrite Hw by lia.
Qed.

Lemma tab_lookup w n r : r < n → tab w n !! r = Some (D r <$> seq 0 (w r)).
Proof.
  intros Hr. unfold tab. rewrite list_lookup_fmap, lookup_seq_lt by done.
  done.
Qed.

Lemma cell_tab w n r j : r < n → j < w r → cell (tab w n) r j = D r j.
Proof.
  intros Hr Hj. unfold cell. rewrite tab_lookup by done. simpl.
  rewrite list_lookup_fmap, lookup_seq_lt by done. done.
Qed.

Lemma set_cell_tab w n i j v :
  i < n → j ≤ w i → v = D i j →
  set_cell (tab w n) i j v =
    tab (λ r, if decide (r = i) then w i `max` S j else w r) n.
Proof.
  intros Hi Hj ->. apply list_eq. intros r. unfold set_cell.
  destruct (decide (r < n)) as [Hr|Hr].
  - rewrite (tab_lookup _ _ r) by done.
    destruct (decide (r = i)) as [->|Hne].
    + rewrite list_lookup_alter_eq, tab_lookup by done. simpl. f_equal.
      destruct (decide (j = w i)) as [->|Hlt].
      * replace (w i `max` S (w i)) with (S (w i)) by lia.
        rewrite seq_S, fmap_app. simpl.
        rewrite <-(js_set_push 0 (D i <$> seq 0 (w i)) (D i (w i))).
        by rewrite length_fmap, length_seq.
      * replace (w i `max` S j) with (w i) by lia.
        unfold js_set. rewrite length_fmap, length_seq.
        rewrite decide_True by lia.
        apply list_insert_id.
        rewrite list_lookup_fmap, lookup_seq_lt by lia. done.
    + rewrite list_lookup_alter_ne, tab_lookup by done. done.
  - rewrite !lookup_ge_None_2; [done| |].
    + unfold tab. rewrite length_fmap, length_seq. lia.
    + rewrite length_alter. unfold tab. rewrite length_fmap, length_seq. lia.
Qed.

Lemma D_0_r r : r ≤ length str1 → D r 0 = r.
Proof.
  intros Hr. unfold D. rewrite take_0, lev_nil_r, length_take. lia.
Qed.

Lemma D_0_l j : j ≤ length str2 → D 0 j = j.
Proof.
  intros Hj. unfold D. rewrite take_0, lev_nil_l, length_take. lia.
Qed.

Lemma D_step i j :
  1 ≤ i ≤ length str1 → 1 ≤ j ≤ length str2 →
  D i j =
    min3 (D (i - 1) j + 1) (D i (j - 1) + 1)
      (D (i - 1) (j - 1) +
         (if bool_decide (str1 !! (i - 1) = str2 !! (j - 1)) then 0 else 1)).
Proof.
  intros Hi Hj. unfold D.
  destruct (lookup_lt_is_Some_2 str1 (i - 1)) as [a Ha]; [lia|].
  destruct (lookup_lt_is_Some_2 str2 (j - 1)) as [b Hb]; [lia|].
  replace i with (S (i - 1)) at 1 3 by lia.
  replace j with (S (j - 1)) at 1 2 by lia.
  rewrite (take_S_r str1 _ a), (take_S_r str2 _ b) by done.
  rewrite lev_snoc. rewrite Ha, Hb.
  rewrite <-(take_S_r str1 _ a), <-(take_S_r str2 _ b) by done.
  replace (S (i - 1)) with i by lia. replace (S (j - 1)) with j by lia.
  f_equal. f_equal. unfold subst_cost.
  destruct (decide (a = b)) as [->|Hne].
  - by rewrite bool_decide_eq_true_2.
  - rewrite bool_decide_eq_false_2; [done|congruence].
Qed.

(** Row [i] being filled: rows above are complete, rows below hold
    only their first cell. *)
Definition filling (i j : nat) (r : nat) : nat :=
  if decide (r < i) then S (length str2)
  else if decide (r = i) then S j else 1.

Lemma fill_row i k m :
  1 ≤ i ≤ length str1 → k ≤ length str2 →
  m = tab (filling i 0) (S (length str1)) →
  foldl (λ m j,
      let cost :=
        if bool_decide (str1 !! (i - 1) = str2 !! (j - 1)) then 0 else 1 in
      set_cell m i j
        (min3 (cell m (i - 1) j + 1) (cell m i (j - 1) + 1)
              (cell m (i - 1) (j - 1) + cost)))
    m (seq 1 k)
  = tab (filling i k) (S (length str1)).
Proof.
  intros Hi Hk ->. induction k as [|k IH]; [done|].
  rewrite seq_S, foldl_app, IH by lia. cbn [foldl].
  rewrite !cell_tab; try (unfold filling; repeat case_decide; lia).
  rewrite <-D_step by lia.
  rewrite set_cell_tab; [|lia|unfold filling; repeat case_decide; lia|done].
  apply tab_ext. intros r Hr. unfold filling. repeat case_decide; lia.
Qed.

Lemma fill_rows k m :
  k ≤ length str1 →
  m = tab (filling 0 (length str2)) (S (length str1)) →
  foldl (λ m i,
      foldl (λ m j,
        let cost :=
          if bool_decide (str1 !! (i - 1) = str2 !! (j - 1)) then 0 else 1 in
        set_cell m i j
          (min3 (cell m (i - 1) j + 1) (cell m i (j - 1) + 1)
                (cell m (i - 1) (j - 1) + cost)))
        m (seq 1 (length str2)))
    m (seq 1 k)
  = tab (filling k (length str2)) (S (length str1)).
Proof.
  intros Hk ->. induction k as [|k IH]; [done|].
  rewrite seq_S, foldl_app, IH by lia. cbn [foldl].
  apply fill_row; [lia|lia|].
  apply tab_ext. intros r Hr. unfold filling. repeat case_decide; lia.
Qed.

Lemma first_row k m :
  k ≤ S (length str2) →
  m = tab (λ _, 1) (S (length str1)) →
  foldl (λ m j, set_cell m 0 j j) m (seq 0 k)
  = tab (λ r, if decide (r = 0) then k `max` 1 else 1) (S (length str1)).
Proof.
  intros Hk ->. induction k as [|k IH].
  { simpl. apply tab_ext. intros r _. by case_decide. }
  rewrite seq_S, foldl_app, IH by lia. cbn [foldl].
  rewrite set_cell_tab; [|lia|simpl; lia|by rewrite D_0_l by lia].
  apply tab_ext. intros r Hr. simpl. repeat case_decide; lia.
Qed.

Lemma first_column :
  foldl (λ m i, js_set [] m i [i]) [] (seq 0 (S (length str1)))
  = tab (λ _, 1) (S (length str1)).
Proof.
  rewrite (foldl_js_set_seq [] (λ i, [i])). unfold tab.
  apply list_fmap_ext. intros i r Hr. apply lookup_seq in Hr as [-> ?].
  simpl. by rewrite D_0_r by lia.
Qed.

Theorem levenshtein_matrix_lev : levenshtein_matrix str1 str2 = lev str1 str2.
Proof.
  unfold levenshtein_matrix.
  destruct (decide (length str1 = 0)) as [H1|H1].
  { by apply length_zero_iff_nil in H1 as ->. }
  destruct (decide (length str2 = 0)) as [H2|H2].
  { apply length_zero_iff_nil in H2 as ->. by rewrite lev_nil_r. }
  rewrite first_column.
  rewrite (first_row (S (length str2))) by done.
  rewrite (fill_rows (length str1)); [|done|].
  - rewrite cell_tab; [|lia|unfold filling; repeat case_decide; lia].
    unfold D. by rewrite !firstn_all.
  - apply tab_ext. intros r Hr. unfold filling. repeat case_decide; lia.
Qed.
End Correct.


(** ** The two [levenshteinDistance] functions *)

Lemma processor_distance_matrix str1 str2 :
  MemoryProcessor.levenshteinDistance str1 str2
  = levenshtein_matrix (chars str1) (chars str2).
Proof. reflexivity. Qed.

Lemma search_distance_matrix str1 str2 :
  SearchEngine.levenshteinDistance str1 str2
  = levenshtein_matrix (chars str1) (chars str2).
Proof. reflexivity. Qed.

Lemma processor_distance_lev str1 str2 :
  MemoryProcessor.levenshteinDistance str1 str2 = lev (chars str1) (chars str2).
Proof. rewrite processor_distance_matrix. apply levenshtein_matrix_lev. Qed.

Lemma search_distance_lev str1 str2 :
  SearchEngine.levenshteinDistance str1 str2 = lev (chars str1) (chars str2).
Proof. rewrite search_distance_matrix. apply levenshtein_matrix_lev. Qed.

(** C7. For all strings [s1] and [s2], [levenshteinDistance] of the
    processor and [levenshteinDistance] of the search engine both return the
    Levenshtein distance of [s1] and [s2], as the reference recursive
    definition [lev] gives it; this distance is the cost of an edit script of
    unit-cost insertions, deletions and substitutions from [s1] to [s2], no
    such script is cheaper, and the two implementations are the same
    function. *)
Theorem levenshteinDistance_correct :
  (∀ s1 s2 : string,
     MemoryProcessor.levenshteinDistance s1 s2 = lev (chars s1) (chars s2)
     ∧ SearchEngine.levenshteinDistance s1 s2 = lev (chars s1) (chars s2)
     ∧ edit (chars s1) (chars s2) (lev (chars s1) (chars s2))
     ∧ (∀ n, edit (chars s1) (chars s2) n → lev (chars s1) (chars s2) ≤ n))
  ∧ MemoryProcessor.levenshteinDistance = SearchEngine.levenshteinDistance.
Proof.
  split; [|reflexivity].
  intros s1 s2. split; [apply processor_distance_lev|].
  split; [apply search_distance_lev|].
  split; [apply lev_sound|]. intros n. apply lev_least.
Qed.

(** ** Maps in insertion order *)

Section JsMapFacts.
Context {V : Type}.
Implicit Types (m : list (string * V)) (k : string) (v : V).

Lemma map_get_set_eq k v m : map_get k (map_set k v m) = Some v.
Proof.
  induction m as [|[k' v'] m IH]; cbn [map_set map_get].
  - by rewrite decide_True.
  - destruct (decide (k' = k)) as [->|Hne]; cbn [map_get].
    + by rewrite decide_True.
    + by rewrite decide_False.
Qed.

Lemma map_get_set_ne k k' v m : k ≠ k' → map_get k' (map_set k v m) = map_get k' m.
Proof.
  intros Hne. induction m as [|[k0 v0] m IH]; cbn [map_set map_get].
  - by rewrite decide_False.
  - destruct (decide (k0 = k)) as [->|Hne0]; cbn [map_get].
    + by rewrite !decide_False.
    + destruct (decide (k0 = k')); [done|apply IH].
Qed.

Lemma map_get_set k k' v m :
  map_get k' (map_set k v m) = if decide (k = k') then Some v else map_get k' m.
Proof.
  destruct (decide (k = k')) as [->|Hne].
  - apply map_get_set_eq.
  - by apply map_get_set_ne.
Qed.

Lemma map_get_Some_elem k v m : map_get k m = Some v → (k, v) ∈ m.
Proof.
  induction m as [|[k' v'] m IH]; simpl; [done|].
  destruct (decide (k' = k)) as [->|Hne].
  - intros [= ->]. apply list_elem_of_here.
  - intros Hget. apply list_elem_of_further, IH, Hget.
Qed.

Lemma map_get_is_Some k m : is_Some (map_get k m) ↔ k ∈ map_keys m.
Proof.
  unfold map_keys. induction m as [|[k' v'] m IH]; cbn [map_get].
  - split; [by intros [? ?]|by intros ?%elem_of_nil].
  - rewrite fmap_cons. cbn [fst]. destruct (decide (k' = k)) as [->|Hne].
    + split; [intros _; apply list_elem_of_here|by eauto].
    + rewrite IH, elem_of_cons. split; [by right|by intros [?|?]].
Qed.

Lemma map_get_None k m : map_get k m = None ↔ k ∉ map_keys m.
Proof. rewrite <-map_get_is_Some, eq_None_not_Some. done. Qed.

Lemma map_has_keys k m : map_has k m = bool_decide (k ∈ map_keys m).
Proof. unfold map_has. apply bool_decide_ext, map_get_is_Some. Qed.

Lemma elem_map_get k v m : (k, v) ∈ m → is_Some (map_get k m).
Proof.
  intros Hin. apply map_get_is_Some. unfold map_keys.
  apply list_elem_of_fmap. by exists (k, v).
Qed.

Lemma elem_map_get_NoDup k v m :
  NoDup (map_keys m) → (k, v) ∈ m → map_get k m = Some v.
Proof.
  unfold map_keys. induction m as [|[k' v'] m IH]; simpl.
  - by intros _ ?%elem_of_nil.
  - intros [Hk' Hnd]%NoDup_cons [Heq|Hin]%elem_of_cons.
    + simplify_eq. by rewrite decide_True.
    + rewrite decide_False; [by apply IH|].
      intros ->. apply Hk', list_elem_of_fmap. by exists (k, v).
Qed.

Lemma map_keys_set k v m :
  map_keys (map_set k v m)
  = if decide (k ∈ map_keys m) then map_keys m else map_keys m ++ [k].
Proof.
  unfold map_keys. induction m as [|[k' v'] m IH].
  - case_decide as Hin; [by apply elem_of_nil in Hin|done].
  - cbn [map_set]. rewrite fmap_cons. cbn [fst].
    destruct (decide (k' = k)) as [->|Hne].
    + rewrite fmap_cons. cbn [fst].
      rewrite decide_True; [done|apply list_elem_of_here].
    + rewrite fmap_cons, IH. cbn [fst].
      destruct (decide (k ∈ m.*1)) as [Hin|Hnin].
      * rewrite decide_True; [done|by apply list_elem_of_further].
      * rewrite decide_False; [done|].
        intros [?|?]%elem_of_cons; congruence.
Qed.

Lemma map_keys_set_elem k k' v m :
  k' ∈ map_keys (map_set k v m) ↔ k' = k ∨ k' ∈ map_keys m.
Proof.
  rewrite map_keys_set. case_decide as Hin.
  - split; [by right|]. by intros [->|?].
  - rewrite elem_of_app, list_elem_of_singleton. split; intros [?|?]; auto.
Qed.

Lemma map_keys_set_NoDup k v m : NoDup (map_keys m) → NoDup (map_keys (map_set k v m)).
Proof.
  intros Hnd. rewrite map_keys_set. case_decide as Hin; [done|].
  apply NoDup_app. split_and!; [done| |apply NoDup_singleton].
  intros x Hx ->%list_elem_of_singleton. done.
Qed.

Lemma map_set_elem k v k' v' m :
  (k', v') ∈ map_set k v m → (k' = k ∧ v' = v) ∨ (k', v') ∈ m.
Proof.
  induction m as [|[k0 v0] m IH]; cbn [map_set].
  - intros ?%list_elem_of_singleton. simplify_eq. by left.
  - destruct (decide (k0 = k)) as [->|Hne].
    + intros [Heq|Hin]%elem_of_cons; [simplify_eq; by left|].
      right. by apply list_elem_of_further.
    + intros [Heq|Hin]%elem_of_cons.
      * simplify_eq. right. apply list_elem_of_here.
      * destruct (IH Hin) as [?|?]; [by left|].
        right. by apply list_elem_of_further.
Qed.

Lemma elem_map_set k v k' v' m :
  k' ≠ k → (k', v') ∈ m → (k', v') ∈ map_set k v m.
Proof.
  intros Hne. induction m as [|[k0 v0] m IH]; cbn [map_set].
  - by intros ?%elem_of_nil.
  - destruct (decide (k0 = k)) as [->|Hne0].
    + intros [Heq|Hin]%elem_of_cons; [simplify_eq|].
      by apply list_elem_of_further.
    + intros [Heq|Hin]%elem_of_cons.
      * simplify_eq. apply list_elem_of_here.
      * apply list_elem_of_further, IH, Hin.
Qed.

Lemma map_delete_elem k k' v' m :
  (k', v') ∈ map_delete k m ↔ k' ≠ k ∧ (k', v') ∈ m.
Proof. unfold map_delete. rewrite list_elem_of_filter. done. Qed.

Lemma map_keys_delete k k' m :
  k' ∈ map_keys (map_delete k m) ↔ k' ≠ k ∧ k' ∈ map_keys m.
Proof.
  unfold map_keys. rewrite !list_elem_of_fmap. split.
  - intros ([k0 v0] & -> & Hin). apply map_delete_elem in Hin as [? ?].
    split; [done|]. by exists (k0, v0).
  - intros (Hne & [k0 v0] & -> & Hin). exists (k0, v0).
    split; [done|]. by apply map_delete_elem.
Qed.
End JsMapFacts.

(** ** Resolution of a candidate: [findExistingEntity], [getOrCreateEntity] *)

(** An existing entity has the type and the normalized key of the
    candidate. *)
Definition same_key (type : EntityType) (key : string) (entity : Entity.t) : Prop :=
  Entity.type entity = type ∧ Entity.normalizedKey entity = key.

(** An existing entity has the type of the candidate and a key within
    Levenshtein distance 2 of the candidate's key. *)
Definition near_key (type : EntityType) (key : string) (entity : Entity.t) : Prop :=
  Entity.type entity = type
  ∧ lev (chars (Entity.normalizedKey entity)) (chars key) ≤ 2.

(** [id] is the key of the first entry, in iteration order, whose entity
    satisfies [P]. *)
Definition first_with (P : Entity.t → Prop) (m : list (string * Entity.t))
    (id : string) : Prop :=
  ∃ before entity after,
    m = before ++ (id, entity) :: after ∧ P entity
    ∧ Forall (λ kv, ¬ P kv.2) before.

(** Every id of the map is truthy, as the ids [getOrCreateEntity] builds
    are. *)
Definition ids_truthy (m : list (string * Entity.t)) : Prop :=
  Forall (λ kv, kv.1 ≠ "") m.

Lemma find_exact_Some m key type id :
  MemoryProcessor.find_exact m key type = Some id
  ↔ first_with (same_key type key) m id.
Proof.
  induction m as [|[id0 e0] m IH]; cbn [MemoryProcessor.find_exact].
  - split; [done|]. intros (before & e & after & Heq & _).
    by destruct before.
  - destruct (bool_decide (Entity.type e0 = type)
              && bool_decide (Entity.normalizedKey e0 = key)) eqn:Hcond.
    + apply andb_prop in Hcond as [?%bool_decide_eq_true ?%bool_decide_eq_true].
      split.
      * intros [= ->]. exists [], e0, m. by repeat split.
      * intros (before & e & after & Heq & HP & Hbefore).
        destruct before as [|kv before]; [by simplify_eq/=|].
        simplify_eq/=. apply Forall_cons in Hbefore as [Hno _].
        exfalso. by apply Hno.
    + assert (¬ same_key type key e0) as Hno.
      { intros [? ?]. apply andb_false_iff in Hcond as [Hc|Hc];
          by apply bool_decide_eq_false in Hc. }
      rewrite IH. split.
      * intros (before & e & after & -> & HP & Hbefore).
        exists ((id0, e0) :: before), e, after.
        split; [done|]. split; [done|]. by apply Forall_cons.
      * intros (before & e & after & Heq & HP & Hbefore).
        destruct before as [|kv before]; simplify_eq/=; [done|].
        apply Forall_cons in Hbefore as [_ Hbefore]. by exists before, e, after.
Qed.

Lemma find_exact_None m key type :
  MemoryProcessor.find_exact m key type = None
  ↔ Forall (λ kv, ¬ same_key type key kv.2) m.
Proof.
  induction m as [|[id0 e0] m IH]; cbn [MemoryProcessor.find_exact].
  - split; [by constructor|done].
  - destruct (bool_decide (Entity.type e0 = type)
              && bool_decide (Entity.normalizedKey e0 = key)) eqn:Hcond.
    + apply andb_prop in Hcond as [?%bool_decide_eq_true ?%bool_decide_eq_true].
      split; [done|]. intros [Hno _]%Forall_cons. exfalso. by apply Hno.
    + rewrite IH, Forall_cons. split; [|by intros [_ ?]].
      intros Hm. split; [|done]. intros [? ?].
      apply andb_false_iff in Hcond as [Hc|Hc];
        by apply bool_decide_eq_false in Hc.
Qed.

Lemma find_fuzzy_Some m key type id :
  MemoryProcessor.find_fuzzy m key type = Some id
  ↔ first_with (near_key type key) m id.
Proof.
  induction m as [|[id0 e0] m IH]; cbn [MemoryProcessor.find_fuzzy].
  - split; [done|]. intros (before & e & after & Heq & _).
    by destruct before.
  - rewrite processor_distance_lev.
    destruct (bool_decide (Entity.type e0 = type)
              && bool_decide (lev (chars (Entity.normalizedKey e0)) (chars key) ≤ 2))
      eqn:Hcond.
    + apply andb_prop in Hcond as [?%bool_decide_eq_true ?%bool_decide_eq_true].
      split.
      * intros [= ->]. exists [], e0, m. by repeat split.
      * intros (before & e & after & Heq & HP & Hbefore).
        destruct before as [|kv before]; [by simplify_eq/=|].
        simplify_eq/=. apply Forall_cons in Hbefore as [Hno _].
        exfalso. by apply Hno.
    + assert (¬ near_key type key e0) as Hno.
      { intros [? ?]. apply andb_false_iff in Hcond as [Hc|Hc];
          by apply bool_decide_eq_false in Hc. }
      rewrite IH. split.
      * intros (before & e & after & -> & HP & Hbefore).
        exists ((id0, e0) :: before), e, after.
        split; [done|]. split; [done|]. by apply Forall_cons.
      * intros (before & e & after & Heq & HP & Hbefore).
        destruct before as [|kv before]; simplify_eq/=; [done|].
        apply Forall_cons in Hbefore as [_ Hbefore]. by exists before, e, after.
Qed.

Lemma find_fuzzy_None m key type :
  MemoryProcessor.find_fuzzy m key type = None
  ↔ Forall (λ kv, ¬ near_key type key kv.2) m.
Proof.
  induction m as [|[id0 e0] m IH]; cbn [MemoryProcessor.find_fuzzy].
  - split; [by constructor|done].
  - rewrite processor_distance_lev.
    destruct (bool_decide (Entity.type e0 = type)
              && bool_decide (lev (chars (Entity.normalizedKey e0)) (chars key) ≤ 2))
      eqn:Hcond.
    + apply andb_prop in Hcond as [?%bool_decide_eq_true ?%bool_decide_eq_true].
      split; [done|]. intros [Hno _]%Forall_cons. exfalso. by apply Hno.
    + rewrite IH, Forall_cons. split; [|by intros [_ ?]].
      intros Hm. split; [|done]. intros [? ?].
      apply andb_false_iff in Hcond as [Hc|Hc];
        by apply bool_decide_eq_false in Hc.
Qed.

Lemma first_with_elem P m id : first_with P m id → id ∈ map_keys m.
Proof.
  intros (before & e & after & -> & _). unfold map_keys.
  rewrite fmap_app, fmap_cons, elem_of_app, elem_of_cons. right. by left.
Qed.

Lemma first_with_Exists P m id : first_with P m id → Exists (λ kv, P kv.2) m.
Proof.
  intros (before & e & after & -> & HP & _).
  apply Exists_app. right. by apply Exists_cons_hd.
Qed.

Lemma first_with_not_all P m id :
  first_with P m id → Forall (λ kv, ¬ P kv.2) m → False.
Proof.
  intros (before & e & after & -> & HP & _) Hall.
  apply Forall_app in Hall as [_ [Hno _]%Forall_cons]. by apply Hno.
Qed.

Lemma findExistingEntity_Some m key type id :
  MemoryProcessor.findExistingEntity m key type = Some id → id ∈ map_keys m.
Proof.
  unfold MemoryProcessor.findExistingEntity.
  destruct (MemoryProcessor.find_exact m key type) as [id'|] eqn:Hexact.
  - intros [= ->]. apply find_exact_Some in Hexact. by eapply first_with_elem.
  - case_bool_decide; [|done]. intros Hfuzzy%find_fuzzy_Some.
    by eapply first_with_elem.
Qed.

Lemma newEntityId_truthy type key now random :
  MemoryProcessor.newEntityId type key now random ≠ "".
Proof. unfold MemoryProcessor.newEntityId. by destruct type. Qed.

(** C1. For every candidate resolved against a live entity map (whose ids
    are truthy): if an existing entity of the same type has the candidate's
    normalized key, [getOrCreateEntity] returns the id of the first such
    entity in iteration order and leaves the map as it is; otherwise, if the
    key is longer than 5 and an existing entity of the same type has a key
    within Levenshtein distance 2, it returns the id of the first such
    entity and leaves the map as it is; otherwise (no such entity, or a key
    of length at most 5) it inserts a new entity under a new id, with
    [occurrences = 0] and [firstSeen = lastSeen = timestamp]. *)
Theorem getOrCreateEntity_resolution
    (env : Env.t) (tick : nat) (m : list (string * Entity.t))
    (x : Extracted.t) (convId : string) (timestamp : Z) :
  ids_truthy m →
  let key := MemoryProcessor.normalizeEntityName (Extracted.name x) in
  let type := Extracted.type x in
  let r := MemoryProcessor.getOrCreateEntity env tick m x convId timestamp in
  (Exists (λ kv, same_key type key kv.2) m →
     first_with (same_key type key) m r.1.1 ∧ r.1.2 = m)
  ∧ (Forall (λ kv, ¬ same_key type key kv.2) m → 5 < js_length key →
     Exists (λ kv, near_key type key kv.2) m →
     first_with (near_key type key) m r.1.1 ∧ r.1.2 = m)
  ∧ (Forall (λ kv, ¬ same_key type key kv.2) m →
     js_length key ≤ 5 ∨ Forall (λ kv, ¬ near_key type key kv.2) m →
     ∃ entity,
       r.1.1 = MemoryProcessor.newEntityId type key (Env.now env tick)
                 (Env.random env tick)
       ∧ r.1.2 = map_set r.1.1 entity m
       ∧ map_get r.1.1 r.1.2 = Some entity
       ∧ Entity.id entity = r.1.1
       ∧ Entity.type entity = type
       ∧ Entity.name entity = Extracted.name x
       ∧ Entity.normalizedKey entity = key
       ∧ Entity.occurrences entity = 0
       ∧ Entity.firstSeen entity = timestamp
       ∧ Entity.lastSeen entity = timestamp
       ∧ Entity.conversations entity = []
       ∧ Entity.links entity = []).
Proof.
  intros Htruthy key type r.
  assert (∀ id, id ∈ map_keys m → id ≠ "") as Hkeys.
  { intros id ([id' e] & -> & Hin)%list_elem_of_fmap.
    by apply (proj1 (Forall_forall _ _) Htruthy (id', e)). }
  subst r. unfold MemoryProcessor.getOrCreateEntity.
  fold key. fold type. unfold MemoryProcessor.findExistingEntity.
  destruct (MemoryProcessor.find_exact m key type) as [id|] eqn:Hexact.
  - (* an exact match *)
    apply find_exact_Some in Hexact.
    rewrite decide_True by (by eapply Hkeys, first_with_elem). cbn [fst snd].
    split; [done|]. split; intros Hnone; exfalso;
      by eapply first_with_not_all.
  - apply find_exact_None in Hexact.
    split.
    { intros Hsome. exfalso. apply Exists_exists in Hsome as (kv & Hin & HP).
      by apply (proj1 (Forall_forall _ _) Hexact kv). }
    case_bool_decide as Hlen.
    + destruct (MemoryProcessor.find_fuzzy m key type) as [id|] eqn:Hfuzzy.
      * (* a fuzzy match *)
        apply find_fuzzy_Some in Hfuzzy.
        rewrite decide_True by (by eapply Hkeys, first_with_elem). cbn [fst snd].
        split; [done|]. intros _ [?|Hnone]; [lia|].
        exfalso. by eapply first_with_not_all.
      * (* no match *)
        apply find_fuzzy_None in Hfuzzy. cbn [fst snd]. split.
        { intros _ _ Hsome. exfalso.
          apply Exists_exists in Hsome as (kv & Hin & HP).
          by apply (proj1 (Forall_forall _ _) Hfuzzy kv). }
        intros _ _. eexists. split; [done|]. split; [done|].
        split; [apply map_get_set_eq|]. by repeat split.
    + (* a short key *)
      cbn [fst snd]. split; [intros _ ?; lia|].
      intros _ _. eexists. split; [done|]. split; [done|].
      split; [apply map_get_set_eq|]. by repeat split.
Qed.

(** The ids stay truthy. *)
Lemma getOrCreateEntity_ids_truthy env tick m x convId timestamp :
  ids_truthy m →
  ids_truthy (MemoryProcessor.getOrCreateEntity env tick m x convId timestamp).1.2.
Proof.
  intros Htruthy. unfold MemoryProcessor.getOrCreateEntity.
  assert (∀ e, ids_truthy (map_set
            (MemoryProcessor.newEntityId (Extracted.type x)
               (MemoryProcessor.normalizeEntityName (Extracted.name x))
               (Env.now env tick) (Env.random env tick)) e m)) as Hnew.
  { intros e. apply Forall_forall. intros [id' e'] Hin. cbn [fst].
    apply map_set_elem in Hin as [[-> _]|Hin].
    - apply newEntityId_truthy.
    - by apply (proj1 (Forall_forall _ _) Htruthy (id', e')). }
  destruct (MemoryProcessor.findExistingEntity _ _ _) as [id|]; [|by apply Hnew].
  case_decide; [done|by apply Hnew].
Qed.

(** The id that [getOrCreateEntity] returns is a key of the map it
    returns. *)
Lemma getOrCreateEntity_in_map env tick m x convId timestamp :
  is_Some (map_get (MemoryProcessor.getOrCreateEntity env tick m x convId timestamp).1.1
             (MemoryProcessor.getOrCreateEntity env tick m x convId timestamp).1.2).
Proof.
  unfold MemoryProcessor.getOrCreateEntity.
  destruct (MemoryProcessor.findExistingEntity _ _ _) as [id|] eqn:Hfind.
  - case_decide.
    + cbn [fst snd]. apply map_get_is_Some. by eapply findExistingEntity_Some.
    + cbn [fst snd]. rewrite map_get_set_eq. by eexists.
  - cbn [fst snd]. rewrite map_get_set_eq. by eexists.
Qed.

Lemma findExistingEntity_same_type m key type id :
  MemoryProcessor.findExistingEntity m key type = Some id →
  ∃ entity, (id, entity) ∈ m ∧ Entity.type entity = type.
Proof.
  unfold MemoryProcessor.findExistingEntity.
  assert (∀ P : Entity.t → Prop,
            (∀ e, P e → Entity.type e = type) → first_with P m id →
            ∃ entity, (id, entity) ∈ m ∧ Entity.type entity = type) as Hfirst.
  { intros P HP (before & e & after & -> & He & _). exists e.
    split; [|by apply HP].
    rewrite elem_of_app, elem_of_cons. right. by left. }
  destruct (MemoryProcessor.find_exact m key type) as [id'|] eqn:Hexact.
  - intros [= ->]. apply find_exact_Some in Hexact.
    apply (Hfirst (same_key type key)); [by intros e [? _]|done].
  - case_bool_decide; [|done]. intros Hfuzzy%find_fuzzy_Some.
    apply (Hfirst (near_key type key)); [by intros e [? _]|done].
Qed.

Lemma resolve_Ok env convId timestamp s x :
  ∃ s', MemoryProcessor.resolve env convId timestamp s x = Ok s'.
Proof.
  destruct s as [[m tick] convEntities]. unfold MemoryProcessor.resolve.
  pose proof (getOrCreateEntity_in_map env tick m x convId timestamp) as Hin.
  destruct (MemoryProcessor.getOrCreateEntity env tick m x convId timestamp)
    as [[id m'] tick'].
  cbn [fst snd] in Hin. destruct Hin as [entity ->]. by eexists.
Qed.

Lemma for_each_resolve_Ok env convId timestamp s xs :
  ∃ s', for_each (MemoryProcessor.resolve env convId timestamp) s xs = Ok s'.
Proof.
  revert s. induction xs as [|x xs IH]; intros s; cbn [for_each].
  - by eexists.
  - destruct (resolve_Ok env convId timestamp s x) as [s' ->]. apply IH.
Qed.

Lemma processConversation_cases env w conversation :
  MemoryProcessor.processConversation env w conversation = Throw RangeError
  ∨ ∃ w', MemoryProcessor.processConversation env w conversation = Ok w'.
Proof.
  unfold MemoryProcessor.processConversation.
  destruct (if decide (_ = 0%Z) then _ else _) as [timestamp tick0].
  unfold iso_date. case_decide; [|by left]. right.
  destruct (civil_from_days _) as [[y mo] d]. cbn [mbind result_bind].
  match goal with
  | |- context [for_each ?f ?s ?xs] =>
      destruct (for_each_resolve_Ok env
                  (or_str (Conversation.id conversation)
                     (Conversation.conversation_id conversation))
                  timestamp s xs) as [[[m tick1] convEntities] ->]
  end.
  by eexists.
Qed.

(** C10. [getOrCreateEntity] always returns an id that is a key of the
    entity map it leaves: the id of an existing entity of the candidate's
    type, with the map unchanged, or the id of the entity it has just
    inserted. So the lookup that follows in [processConversation] finds the
    entity: the body of its loop never throws, and [processConversation]
    raises no [TypeError]. *)
Theorem getOrCreateEntity_returns_live_id
    (env : Env.t) (tick : nat) (m : list (string * Entity.t))
    (x : Extracted.t) (convId : string) (timestamp : Z) :
  let r := MemoryProcessor.getOrCreateEntity env tick m x convId timestamp in
  is_Some (map_get r.1.1 r.1.2)
  ∧ ((r.1.2 = m
      ∧ ∃ entity, (r.1.1, entity) ∈ m ∧ Entity.type entity = Extracted.type x)
     ∨ r.1.2 =
         map_set r.1.1
           (MemoryProcessor.newEntity r.1.1
              (MemoryProcessor.normalizeEntityName (Extracted.name x)) x timestamp)
           m)
  ∧ (∀ s, ∃ s', MemoryProcessor.resolve env convId timestamp s x = Ok s')
  ∧ (∀ w conversation,
       MemoryProcessor.processConversation env w conversation = Throw RangeError
       ∨ ∃ w', MemoryProcessor.processConversation env w conversation = Ok w').
Proof.
  intros r. split; [apply getOrCreateEntity_in_map|].
  split; [|split; [intros s; apply resolve_Ok|apply processConversation_cases]].
  subst r. unfold MemoryProcessor.getOrCreateEntity.
  destruct (MemoryProcessor.findExistingEntity _ _ _) as [id|] eqn:Hfind.
  - case_decide; cbn [fst snd]; [|by right].
    left. split; [done|]. by eapply findExistingEntity_same_type.
  - cbn [fst snd]. by right.
Qed.

(** ** The database *)

Lemma set_add_elem (x y : string) (s : list string) :
  x ∈ set_add y s ↔ x = y ∨ x ∈ s.
Proof.
  unfold set_add. case_bool_decide as Hin.
  - split; [by right|]. by intros [->|?].
  - rewrite elem_of_app, list_elem_of_singleton. split; intros [?|?]; auto.
Qed.

Lemma set_add_NoDup (y : string) (s : list string) : NoDup s → NoDup (set_add y s).
Proof.
  intros Hnd. unfold set_add. case_bool_decide as Hin; [done|].
  apply NoDup_app. split_and!; [done| |apply NoDup_singleton].
  by intros x Hx ->%list_elem_of_singleton.
Qed.

Lemma foldl_set_add_elem {B : Type} (f : B → string) (l : list B)
    (s : list string) (x : string) :
  x ∈ foldl (λ s b, set_add (f b) s) s l ↔ x ∈ s ∨ x ∈ f <$> l.
Proof.
  revert s. induction l as [|b l IH]; intros s; cbn [foldl].
  - rewrite fmap_nil, elem_of_nil. split; [by left|by intros [?|[]]].
  - rewrite IH, set_add_elem, fmap_cons, elem_of_cons.
    split; [intros [[?|?]|?]|intros [?|[?|?]]]; auto.
Qed.

Lemma foldl_set_add_NoDup {B : Type} (f : B → string) (l : list B)
    (s : list string) :
  NoDup s → NoDup (foldl (λ s b, set_add (f b) s) s l).
Proof.
  revert s. induction l as [|b l IH]; intros s Hnd; cbn [foldl]; [done|].
  by apply IH, set_add_NoDup.
Qed.

Lemma getAll_elem {V : Type} (store : gmap string V) (x : V) :
  x ∈ DBManager.getAll store ↔ ∃ k, store !! k = Some x.
Proof.
  unfold DBManager.getAll. rewrite list_elem_of_fmap. split.
  - intros ([k v] & -> & Hin). exists k.
    rewrite merge_sort_Permutation in Hin. by apply elem_of_map_to_list in Hin.
  - intros (k & Hk). exists (k, x). split; [done|].
    rewrite merge_sort_Permutation. by apply elem_of_map_to_list.
Qed.

(** The key of a record is the value of its key path. *)
Definition store_keyed (db : DBManager.t) : Prop :=
  (∀ k e, DBManager.entities db !! k = Some e → Entity.id e = k)
  ∧ (∀ k c, DBManager.conversations db !! k = Some c → ConvData.id c = k).

Lemma store_keyed_empty : store_keyed DBManager.empty.
Proof. split; intros k x; cbn; by rewrite lookup_empty. Qed.

Lemma saveEntity_keyed db entity :
  store_keyed db → store_keyed (DBManager.saveEntity db entity).
Proof.
  intros [He Hc]. split; [|done]. intros k e. cbn.
  rewrite lookup_insert. case_decide as Hk; [|apply He].
  by intros [= <-].
Qed.

Lemma saveConversation_keyed db conv :
  store_keyed db → store_keyed (DBManager.saveConversation db conv).
Proof.
  intros [He Hc]. split; [done|]. intros k c. cbn.
  rewrite lookup_insert. case_decide as Hk; [|apply Hc].
  by intros [= <-].
Qed.

Lemma foldl_saveEntity_keyed db es :
  store_keyed db → store_keyed (foldl DBManager.saveEntity db es).
Proof.
  revert db. induction es as [|e es IH]; intros db Hdb; cbn [foldl]; [done|].
  by apply IH, saveEntity_keyed.
Qed.

Lemma foldl_saveConversation_keyed db cs :
  store_keyed db → store_keyed (foldl DBManager.saveConversation db cs).
Proof.
  revert db. induction cs as [|c cs IH]; intros db Hdb; cbn [foldl]; [done|].
  by apply IH, saveConversation_keyed.
Qed.

(** The ids of the stored conversations. *)
Definition stored_ids (db : DBManager.t) : list string :=
  ConvData.id <$> DBManager.getAllConversations db.

Lemma stored_ids_elem db k :
  store_keyed db →
  k ∈ stored_ids db ↔ is_Some (DBManager.conversations db !! k).
Proof.
  intros [_ Hc]. unfold stored_ids, DBManager.getAllConversations.
  rewrite list_elem_of_fmap. split.
  - intros (c & -> & (k' & Hk')%getAll_elem).
    rewrite <-(Hc _ _ Hk') in Hk'. by eexists.
  - intros [c Hk]. exists c. split; [by rewrite (Hc _ _ Hk)|].
    apply getAll_elem. by exists k.
Qed.

Lemma foldl_saveEntity_conversations db es :
  DBManager.conversations (foldl DBManager.saveEntity db es)
  = DBManager.conversations db.
Proof.
  revert db. induction es as [|e es IH]; intros db; cbn [foldl]; [done|].
  by rewrite IH.
Qed.

Lemma foldl_saveEntity_metadata db es :
  DBManager.metadata (foldl DBManager.saveEntity db es) = DBManager.metadata db.
Proof.
  revert db. induction es as [|e es IH]; intros db; cbn [foldl]; [done|].
  by rewrite IH.
Qed.

Lemma foldl_saveConversation_metadata db cs :
  DBManager.metadata (foldl DBManager.saveConversation db cs)
  = DBManager.metadata db.
Proof.
  revert db. induction cs as [|c cs IH]; intros db; cbn [foldl]; [done|].
  by rewrite IH.
Qed.

Lemma foldl_saveConversation_entities db cs :
  DBManager.entities (foldl DBManager.saveConversation db cs)
  = DBManager.entities db.
Proof.
  revert db. induction cs as [|c cs IH]; intros db; cbn [foldl]; [done|].
  by rewrite IH.
Qed.

Lemma foldl_saveConversation_keeps db cs k :
  is_Some (DBManager.conversations db !! k) →
  is_Some (DBManager.conversations (foldl DBManager.saveConversation db cs) !! k).
Proof.
  revert db. induction cs as [|c cs IH]; intros db Hk; cbn [foldl]; [done|].
  apply IH. cbn. rewrite lookup_insert. case_decide; [by eexists|done].
Qed.

Lemma foldl_saveConversation_saves db cs c :
  c ∈ cs →
  is_Some (DBManager.conversations (foldl DBManager.saveConversation db cs)
             !! ConvData.id c).
Proof.
  revert db. induction cs as [|c' cs IH]; intros db Hin; cbn [foldl].
  - by apply elem_of_nil in Hin.
  - apply elem_of_cons in Hin as [->|Hin]; [|by apply IH].
    apply foldl_saveConversation_keeps. cbn. rewrite lookup_insert_eq. by eexists.
Qed.

(** Every entity written is the stored record of its id, unless a later
    entity of the list has the same id. *)
Lemma foldl_saveEntity_saves db es :
  NoDup (Entity.id <$> es) →
  ∀ e, e ∈ es →
    DBManager.entities (foldl DBManager.saveEntity db es) !! Entity.id e = Some e.
Proof.
  revert db. induction es as [|e' es IH]; intros db Hnd e Hin; cbn [foldl].
  - by apply elem_of_nil in Hin.
  - rewrite fmap_cons in Hnd. apply NoDup_cons in Hnd as [Hfresh Hnd].
    apply elem_of_cons in Hin as [->|Hin]; [|by apply IH].
    assert (∀ db', DBManager.entities db' !! Entity.id e' = Some e' →
              DBManager.entities (foldl DBManager.saveEntity db' es)
                !! Entity.id e' = Some e') as Hkeep.
    { clear IH Hnd. induction es as [|e'' es IH]; intros db' Hdb';
        cbn [foldl]; [done|].
      rewrite fmap_cons, not_elem_of_cons in Hfresh. destruct Hfresh as [Hne Hfresh].
      apply IH; [done|]. cbn. by rewrite lookup_insert_ne. }
    apply Hkeep. cbn. by rewrite lookup_insert_eq.
Qed.

(** ** The loops of a run *)

Lemma for_each_invariant {A S : Type} (body : S → A → result S)
    (J : list A → S → Prop) :
  (∀ seen s a s', J seen s → body s a = Ok s' → J (seen ++ [a]) s') →
  ∀ l seen s s', J seen s → for_each body s l = Ok s' → J (seen ++ l) s'.
Proof.
  intros Hstep l. induction l as [|a l IH]; intros seen s s' HJ; cbn [for_each].
  - intros [= <-]. by rewrite app_nil_r.
  - destruct (body s a) as [s1|e] eqn:Hbody; cbn [mbind result_bind]; [|done].
    intros Hrest. rewrite (cons_middle a seen l), app_assoc.
    eapply IH; [|done]. by eapply Hstep.
Qed.

Lemma batches_concat (fuel size : nat) (l : list Conversation.t) :
  0 < size → length l ≤ fuel →
  concat (MemoryProcessor.batches fuel size l) = l.
Proof.
  intros Hsize. revert l. induction fuel as [|fuel IH]; intros l Hlen.
  - destruct l; [done|simpl in Hlen; lia].
  - cbn [MemoryProcessor.batches]. destruct l as [|c l]; [done|].
    rewrite concat_cons, IH.
    + apply take_drop.
    + rewrite length_drop. simpl in *. lia.
Qed.

(** The id under which a conversation is processed: [conv.id ||
    conv.conversation_id]. *)
Definition conv_key (c : Conversation.t) : string :=
  or_str (Conversation.id c) (Conversation.conversation_id c).

(** What [processConversation] leaves untouched, and the summary it
    stores. *)
Lemma processConversation_frame env w c w' :
  MemoryProcessor.processConversation env w c = Ok w' →
  MemoryProcessor.db w' = MemoryProcessor.db w
  ∧ MemoryProcessor.reported w' = MemoryProcessor.reported w
  ∧ MemoryProcessor.batchSize (MemoryProcessor.this w')
    = MemoryProcessor.batchSize (MemoryProcessor.this w)
  ∧ MemoryProcessor.minOccurrences (MemoryProcessor.this w')
    = MemoryProcessor.minOccurrences (MemoryProcessor.this w)
  ∧ MemoryProcessor.onProgress (MemoryProcessor.this w')
    = MemoryProcessor.onProgress (MemoryProcessor.this w)
  ∧ ∃ convData,
      ConvData.id convData = conv_key c
      ∧ MemoryProcessor.conversationEntities (MemoryProcessor.this w')
        = map_set (conv_key c) convData
            (MemoryProcessor.conversationEntities (MemoryProcessor.this w)).
Proof.
  unfold MemoryProcessor.processConversation, conv_key.
  destruct (if decide (_ = 0%Z) then _ else _) as [timestamp tick0].
  destruct (iso_date timestamp) as [date|e]; cbn [mbind result_bind]; [|done].
  destruct (for_each _ _ _) as [[[m tick1] convEntities]|e];
    cbn [mbind result_bind]; [|done].
  intros [= <-]. cbn. do 5 (split; [reflexivity|]).
  eexists. split; [|reflexivity]. reflexivity.
Qed.

(** The conversations seen so far have their summary in the live map. *)
Definition summarized (seen : list Conversation.t)
    (convs : list (string * ConvData.t)) : Prop :=
  ∀ c, c ∈ seen →
    ∃ convData, map_get (conv_key c) convs = Some convData
                ∧ ConvData.id convData = conv_key c.

Lemma summarized_step seen convs c convData :
  ConvData.id convData = conv_key c →
  summarized seen convs →
  summarized (seen ++ [c]) (map_set (conv_key c) convData convs).
Proof.
  intros Hid Hseen c' [Hc'| ->%list_elem_of_singleton]%elem_of_app.
  - destruct (decide (conv_key c = conv_key c')) as [Heq|Hne].
    + exists convData. by rewrite <-Heq, map_get_set_eq.
    + rewrite map_get_set_ne by done. by apply Hseen.
  - exists convData. by rewrite map_get_set_eq.
Qed.

(** The state of the batch loop: what a round keeps, and the summaries. *)
Record run_inv (w0 : MemoryProcessor.World) (seen : list Conversation.t)
    (w : MemoryProcessor.World) : Prop := mk_run_inv {
  inv_db : MemoryProcessor.db w = MemoryProcessor.db w0;
  inv_batchSize :
    MemoryProcessor.batchSize (MemoryProcessor.this w)
    = MemoryProcessor.batchSize (MemoryProcessor.this w0);
  inv_minOccurrences :
    MemoryProcessor.minOccurrences (MemoryProcessor.this w)
    = MemoryProcessor.minOccurrences (MemoryProcessor.this w0);
  inv_summarized :
    summarized seen (MemoryProcessor.conversationEntities (MemoryProcessor.this w))
}.

Lemma run_inv_processConversation env w0 seen w c w' :
  run_inv w0 seen w →
  MemoryProcessor.processConversation env w c = Ok w' →
  run_inv w0 (seen ++ [c]) w'.
Proof.
  intros [Hdb Hbs Hmin Hsum]
    (Hdb' & _ & Hbs' & Hmin' & _ & convData & Hid & Hconvs)%processConversation_frame.
  split; [congruence..|]. rewrite Hconvs. by apply summarized_step.
Qed.

Lemma run_inv_processBatch env w0 seen w batch w' :
  run_inv w0 seen w →
  MemoryProcessor.processBatch env w batch = Ok w' →
  run_inv w0 (seen ++ batch) w'.
Proof.
  intros Hinv Hbatch. unfold MemoryProcessor.processBatch in Hbatch.
  apply (for_each_invariant (MemoryProcessor.processConversation env) (run_inv w0))
    with (s := w); [|done..].
  intros ?????. by eapply run_inv_processConversation.
Qed.

Lemma report_this w event :
  MemoryProcessor.this (MemoryProcessor.report w event) = MemoryProcessor.this w.
Proof. unfold MemoryProcessor.report. by destruct (MemoryProcessor.onProgress _). Qed.

Lemma report_db w event :
  MemoryProcessor.db (MemoryProcessor.report w event) = MemoryProcessor.db w.
Proof. unfold MemoryProcessor.report. by destruct (MemoryProcessor.onProgress _). Qed.

Lemma report_tick w event :
  MemoryProcessor.tick (MemoryProcessor.report w event) = MemoryProcessor.tick w.
Proof. unfold MemoryProcessor.report. by destruct (MemoryProcessor.onProgress _). Qed.

Lemma run_inv_batches env resumeMode total w0 batches seen w i w' i' :
  run_inv w0 seen w →
  for_each (MemoryProcessor.batch_round env resumeMode total) (w, i) batches
    = Ok (w', i') →
  run_inv w0 (seen ++ concat batches) w'.
Proof.
  intros Hinv Hloop.
  pose (J := λ (done : list (list Conversation.t))
               (s : MemoryProcessor.World * nat),
             run_inv w0 (seen ++ concat done) s.1).
  change (J ([] ++ batches) (w', i')).
  apply (for_each_invariant (MemoryProcessor.batch_round env resumeMode total) J)
    with (s := (w, i)); [| |done].
  - clear. intros done [w1 i1] batch [w2 i2]. unfold J. cbn [fst].
    intros Hinv. unfold MemoryProcessor.batch_round.
    destruct (MemoryProcessor.processBatch env w1 batch) as [w3|e] eqn:Hbatch;
      cbn [mbind result_bind]; [|done].
    intros [= <- _].
    apply (run_inv_processBatch _ _ _ _ _ _ Hinv) in Hbatch.
    destruct Hbatch as [Hdb Hbs Hmin Hsum].
    rewrite concat_app, concat_cons, concat_nil, app_nil_r, app_assoc.
    split; rewrite ?report_this, ?report_db; done.
  - unfold J. cbn. by rewrite app_nil_r.
Qed.

(** ** The sparse filter *)

Lemma filter_all {B : Type} (P : B → Prop) `{∀ x, Decision (P x)} (l : list B) :
  (∀ x, x ∈ l → P x) → filter P l = l.
Proof.
  induction l as [|x l IH]; intros Hall; [done|].
  rewrite filter_cons_True by apply Hall, list_elem_of_here.
  f_equal. apply IH. intros y Hy. by apply Hall, list_elem_of_further.
Qed.

Lemma map_get_fmap {V : Type} (f : V → V) (k : string) (m : list (string * V)) :
  map_get k (prod_map id f <$> m) = f <$> map_get k m.
Proof.
  induction m as [|[k' v'] m IH]; [done|].
  rewrite fmap_cons. cbn [prod_map fst snd map_get id].
  by destruct (decide (k' = k)).
Qed.

Lemma map_keys_fmap {V : Type} (f : V → V) (m : list (string * V)) :
  map_keys (prod_map id f <$> m) = map_keys m.
Proof.
  unfold map_keys. rewrite <-list_fmap_compose. by apply list_fmap_ext; intros ? [].
Qed.

Lemma map_get_filter_keys {V : Type} (ids : list string) (k : string)
    (m : list (string * V)) :
  map_get k (filter (λ kv, kv.1 ∉ ids) m)
  = if decide (k ∈ ids) then None else map_get k m.
Proof.
  induction m as [|[k' v'] m IH].
  - by case_decide.
  - rewrite filter_cons. cbn [fst]. destruct (decide (k' ∉ ids)) as [Hk'|Hk'].
    + cbn [map_get]. destruct (decide (k' = k)) as [->|Hne]; [|done].
      by repeat case_decide.
    + rewrite IH. cbn [map_get]. destruct (decide (k' = k)) as [->|Hne]; [|done].
      by repeat case_decide.
Qed.

Lemma foldl_map_delete {V : Type} (ids : list string) (m : list (string * V)) :
  foldl (λ m id, map_delete id m) m ids = filter (λ kv, kv.1 ∉ ids) m.
Proof.
  revert m. induction ids as [|id ids IH]; intros m; cbn [foldl].
  - symmetry. apply filter_all. intros ? _. apply not_elem_of_nil.
  - rewrite IH. unfold map_delete. rewrite list_filter_filter.
    apply list_filter_iff. intros [k v]. cbn [fst].
    rewrite not_elem_of_cons. tauto.
Qed.

(** The ids the filter removes: those of the entities below the
    threshold. *)
Definition sparse (minOccurrences : nat) (es : list (string * Entity.t))
  : list string :=
  fst <$> filter (λ kv, Entity.occurrences kv.2 < minOccurrences) es.

(** A summary without the removed ids. *)
Definition strip (ids : list string) (convData : ConvData.t) : ConvData.t :=
  ConvData.mk (ConvData.id convData) (ConvData.title convData)
    (ConvData.timestamp convData) (ConvData.date convData)
    (filter (λ id, id ∉ ids) (ConvData.entities convData)).

Lemma strip_nil convData : strip [] convData = convData.
Proof.
  destruct convData. unfold strip. cbn. f_equal.
  apply filter_all. intros ? _. apply not_elem_of_nil.
Qed.

Lemma without_entity_strip ids id convData :
  MemoryProcessor.without_entity id (strip ids convData)
  = strip (ids ++ [id]) convData.
Proof.
  unfold MemoryProcessor.without_entity, strip. cbn. f_equal.
  rewrite list_filter_filter. apply list_filter_iff. intros x.
  rewrite not_elem_of_app, list_elem_of_singleton. tauto.
Qed.

Lemma sparse_loop (minOccurrences : nat) (es : list (string * Entity.t))
    (toDelete : list string) (convs : list (string * ConvData.t)) :
  foldl (λ '(toDelete, convs) '(entityId, entity),
      if bool_decide (Entity.occurrences entity < minOccurrences) then
        (toDelete ++ [entityId],
         prod_map id (MemoryProcessor.without_entity entityId) <$> convs)
      else (toDelete, convs))
    (toDelete, prod_map id (strip toDelete) <$> convs) es
  = (toDelete ++ sparse minOccurrences es,
     prod_map id (strip (toDelete ++ sparse minOccurrences es)) <$> convs).
Proof.
  revert toDelete. induction es as [|[eid e] es IH]; intros toDelete; cbn [foldl].
  - unfold sparse. by rewrite filter_nil, fmap_nil, app_nil_r.
  - unfold sparse. rewrite filter_cons. cbn [snd].
    case_bool_decide as Hocc.
    + rewrite decide_True by done. rewrite fmap_cons. cbn [fst].
      rewrite <-list_fmap_compose.
      assert ((prod_map id (MemoryProcessor.without_entity eid)
                 ∘ prod_map id (strip toDelete)) <$> convs
              = prod_map id (strip (toDelete ++ [eid])) <$> convs) as ->.
      { apply list_fmap_ext. intros ? [k c] _. cbn.
        by rewrite without_entity_strip. }
      rewrite IH. unfold sparse. by rewrite <-app_assoc.
    + rewrite decide_False by done. apply IH.
Qed.

(** [filterSparseEntities], with its loops solved. *)
Lemma filterSparseEntities_spec w :
  let es := MemoryProcessor.entities (MemoryProcessor.this w) in
  let removed :=
    sparse (MemoryProcessor.minOccurrences (MemoryProcessor.this w)) es in
  let kept := filter (λ kv, kv.1 ∉ removed) es in
  MemoryProcessor.filterSparseEntities w
  = MemoryProcessor.with_conversationEntities
      (MemoryProcessor.with_entities w
         (prod_map id (λ entity,
            MemoryProcessor.with_links entity
              (filter (λ linkId, map_has linkId kept) (Entity.links entity)))
          <$> kept))
      (prod_map id (strip removed)
       <$> MemoryProcessor.conversationEntities (MemoryProcessor.this w)).
Proof.
  intros es removed kept. subst kept removed es.
  unfold MemoryProcessor.filterSparseEntities.
  pose proof (sparse_loop (MemoryProcessor.minOccurrences (MemoryProcessor.this w))
                (MemoryProcessor.entities (MemoryProcessor.this w)) []
                (MemoryProcessor.conversationEntities (MemoryProcessor.this w)))
    as Hloop.
  assert (prod_map id (strip [])
            <$> MemoryProcessor.conversationEntities (MemoryProcessor.this w)
          = MemoryProcessor.conversationEntities (MemoryProcessor.this w)) as Hid.
  { rewrite <-(list_fmap_id (MemoryProcessor.conversationEntities _)) at 2.
    apply list_fmap_ext. intros ? [k c] _. cbn. by rewrite strip_nil. }
  rewrite Hid in Hloop. rewrite Hloop. cbn [app].
  by rewrite foldl_map_delete.
Qed.

(** ** The end of a run: what is written to the store *)

Lemma foldl_preserves {A B : Type} (P : A → Prop) (f : A → B → A) :
  (∀ a b, P a → P (f a b)) → ∀ l a, P a → P (foldl f a l).
Proof.
  intros Hf l. induction l as [|b l IH]; intros a Ha; cbn [foldl]; [done|].
  by apply IH, Hf.
Qed.

Lemma filterSparseEntities_frame w :
  MemoryProcessor.db (MemoryProcessor.filterSparseEntities w) = MemoryProcessor.db w
  ∧ MemoryProcessor.reported (MemoryProcessor.filterSparseEntities w)
    = MemoryProcessor.reported w
  ∧ MemoryProcessor.tick (MemoryProcessor.filterSparseEntities w)
    = MemoryProcessor.tick w
  ∧ MemoryProcessor.timeline (MemoryProcessor.this (MemoryProcessor.filterSparseEntities w))
    = MemoryProcessor.timeline (MemoryProcessor.this w)
  ∧ MemoryProcessor.minOccurrences
      (MemoryProcessor.this (MemoryProcessor.filterSparseEntities w))
    = MemoryProcessor.minOccurrences (MemoryProcessor.this w).
Proof. by rewrite filterSparseEntities_spec. Qed.

(** The search index is the only store that [buildSearchIndex] writes. *)
Lemma buildSearchIndex_frame w :
  MemoryProcessor.this (MemoryProcessor.buildSearchIndex w) = MemoryProcessor.this w
  ∧ MemoryProcessor.reported (MemoryProcessor.buildSearchIndex w)
    = MemoryProcessor.reported w
  ∧ MemoryProcessor.tick (MemoryProcessor.buildSearchIndex w) = MemoryProcessor.tick w
  ∧ DBManager.entities (MemoryProcessor.db (MemoryProcessor.buildSearchIndex w))
    = DBManager.entities (MemoryProcessor.db w)
  ∧ DBManager.conversations (MemoryProcessor.db (MemoryProcessor.buildSearchIndex w))
    = DBManager.conversations (MemoryProcessor.db w)
  ∧ DBManager.timeline (MemoryProcessor.db (MemoryProcessor.buildSearchIndex w))
    = DBManager.timeline (MemoryProcessor.db w)
  ∧ DBManager.metadata (MemoryProcessor.db (MemoryProcessor.buildSearchIndex w))
    = DBManager.metadata (MemoryProcessor.db w).
Proof.
  do 3 (split; [done|]). unfold MemoryProcessor.buildSearchIndex. cbn.
  apply (foldl_preserves (λ d,
    DBManager.entities d = DBManager.entities (MemoryProcessor.db w)
    ∧ DBManager.conversations d = DBManager.conversations (MemoryProcessor.db w)
    ∧ DBManager.timeline d = DBManager.timeline (MemoryProcessor.db w)
    ∧ DBManager.metadata d = DBManager.metadata (MemoryProcessor.db w)));
    [|done].
  intros d entity Hd. by apply foldl_preserves.
Qed.

Lemma foldl_saveConversation_ext db db' cs :
  DBManager.conversations db = DBManager.conversations db' →
  DBManager.conversations (foldl DBManager.saveConversation db cs)
  = DBManager.conversations (foldl DBManager.saveConversation db' cs).
Proof.
  revert db db'. induction cs as [|c cs IH]; intros db db' Heq; cbn [foldl]; [done|].
  apply IH. cbn. by rewrite Heq.
Qed.

(** What [saveToDatabase] writes: the entities with their relationships
    and the summaries are put; nothing is deleted. *)
Lemma saveToDatabase_spec env w :
  MemoryProcessor.this (MemoryProcessor.saveToDatabase env w)
  = MemoryProcessor.this (MemoryProcessor.computeRelationships w)
  ∧ MemoryProcessor.reported (MemoryProcessor.saveToDatabase env w)
    = MemoryProcessor.reported w
  ∧ MemoryProcessor.tick (MemoryProcessor.saveToDatabase env w) = MemoryProcessor.tick w
  ∧ DBManager.entities (MemoryProcessor.db (MemoryProcessor.saveToDatabase env w))
    = DBManager.entities
        (foldl DBManager.saveEntity (MemoryProcessor.db w)
           (map_values (MemoryProcessor.entities
              (MemoryProcessor.this (MemoryProcessor.computeRelationships w)))))
  ∧ DBManager.conversations (MemoryProcessor.db (MemoryProcessor.saveToDatabase env w))
    = DBManager.conversations
        (foldl DBManager.saveConversation (MemoryProcessor.db w)
           (map_values (MemoryProcessor.conversationEntities (MemoryProcessor.this w))))
  ∧ DBManager.metadata (MemoryProcessor.db (MemoryProcessor.saveToDatabase env w))
    = DBManager.metadata (MemoryProcessor.db w).
Proof.
  unfold MemoryProcessor.saveToDatabase.
  match goal with
  | |- context [MemoryProcessor.buildSearchIndex ?x] =>
      destruct (buildSearchIndex_frame x) as (-> & -> & -> & -> & -> & _ & ->)
  end.
  cbn. rewrite foldl_saveConversation_entities, foldl_saveConversation_metadata,
    foldl_saveEntity_metadata.
  split_and!; try done.
  apply foldl_saveConversation_ext. apply foldl_saveEntity_conversations.
Qed.

(** The state that the end of a run writes: the filtered map with its
    relationships. *)
Definition settled (w : MemoryProcessor.World) : MemoryProcessor.World :=
  MemoryProcessor.computeRelationships (MemoryProcessor.filterSparseEntities w).

Lemma finish_spec env w conversations :
  let w' := MemoryProcessor.finish env w conversations in
  MemoryProcessor.this w' = MemoryProcessor.this (settled w)
  ∧ MemoryProcessor.reported w' = MemoryProcessor.reported w
  ∧ MemoryProcessor.tick w' = S (MemoryProcessor.tick w)
  ∧ DBManager.entities (MemoryProcessor.db w')
    = DBManager.entities
        (foldl DBManager.saveEntity (MemoryProcessor.db w)
           (map_values (MemoryProcessor.entities (MemoryProcessor.this (settled w)))))
  ∧ DBManager.conversations (MemoryProcessor.db w')
    = DBManager.conversations
        (foldl DBManager.saveConversation (MemoryProcessor.db w)
           (map_values (MemoryProcessor.conversationEntities
              (MemoryProcessor.this (MemoryProcessor.filterSparseEntities w)))))
  ∧ DBManager.metadata (MemoryProcessor.db w')
    = <["totalConversationsProcessed" := Z.of_nat (length conversations)]>
        (<["lastProcessedTime" := Env.now env (MemoryProcessor.tick w)]>
           (DBManager.metadata (MemoryProcessor.db w))).
Proof.
  cbn zeta. unfold MemoryProcessor.finish.
  cbn [MemoryProcessor.this MemoryProcessor.db MemoryProcessor.reported
       MemoryProcessor.tick MemoryProcessor.with_db MemoryProcessor.with_tick
       DBManager.saveMetadata DBManager.metadata DBManager.entities
       DBManager.conversations].
  destruct (saveToDatabase_spec env (MemoryProcessor.filterSparseEntities w))
    as (-> & -> & -> & -> & -> & ->).
  destruct (filterSparseEntities_frame w) as (Hdb & -> & -> & _).
  split_and!; try done.
  - apply (f_equal (λ d, DBManager.entities (foldl DBManager.saveEntity d _)) Hdb).
  - apply foldl_saveConversation_ext. by rewrite Hdb.
  - by rewrite Hdb.
Qed.

(** ** A run, case by case *)

Lemma prepare_frame w onProgress resumeMode :
  let w1 := MemoryProcessor.prepare w onProgress resumeMode in
  MemoryProcessor.db w1 = MemoryProcessor.db w
  ∧ MemoryProcessor.reported w1 = MemoryProcessor.reported w
  ∧ MemoryProcessor.tick w1 = MemoryProcessor.tick w
  ∧ MemoryProcessor.onProgress (MemoryProcessor.this w1) = onProgress
  ∧ MemoryProcessor.batchSize (MemoryProcessor.this w1)
    = MemoryProcessor.batchSize (MemoryProcessor.this w)
  ∧ MemoryProcessor.minOccurrences (MemoryProcessor.this w1)
    = MemoryProcessor.minOccurrences (MemoryProcessor.this w)
  ∧ MemoryProcessor.timeline (MemoryProcessor.this w1)
    = MemoryProcessor.timeline (MemoryProcessor.this w).
Proof. unfold MemoryProcessor.prepare. by destruct resumeMode. Qed.

(** The conversations that a run takes: those whose id is not the id of a
    stored summary. *)
Lemma filterNewConversations_elem w conversations c :
  c ∈ MemoryProcessor.filterNewConversations w conversations
  ↔ c ∈ conversations ∧ conv_key c ∉ stored_ids (MemoryProcessor.db w).
Proof.
  unfold MemoryProcessor.filterNewConversations. rewrite list_elem_of_filter.
  cbn zeta. fold (conv_key c). rewrite foldl_set_add_elem.
  unfold stored_ids. split.
  - intros [Hnew Hin]. split; [done|]. intros Hst. apply Hnew. by right.
  - intros [Hin Hnew]. split; [|done]. by intros [[]%elem_of_nil|Hst].
Qed.

Lemma output_report env w event :
  MemoryProcessor.output env (MemoryProcessor.report w event)
  = MemoryProcessor.output env w.
Proof.
  unfold MemoryProcessor.output, MemoryProcessor.buildTimeline.
  by rewrite report_this.
Qed.

(** A run that returns either found nothing new, and then reports and
    returns what it has, or went through the batches, the filter and the
    writes. *)
Lemma processConversations_cases env w conversations onProgress resumeMode r :
  MemoryProcessor.processConversations env w conversations onProgress resumeMode
    = Ok r →
  let w1 := MemoryProcessor.prepare w onProgress resumeMode in
  let new := MemoryProcessor.filterNewConversations w1 conversations in
  (new = []
   ∧ r = (MemoryProcessor.report w1 (MemoryProcessor.nothing_new w1 conversations),
          MemoryProcessor.output env w1))
  ∨ (new ≠ []
     ∧ ∃ wb i, MemoryProcessor.batch_loop env w1 new resumeMode = Ok (wb, i)
               ∧ run_inv w1 new wb
               ∧ r = (MemoryProcessor.finish env wb conversations,
                      MemoryProcessor.output env
                        (MemoryProcessor.finish env wb conversations))).
Proof.
  unfold MemoryProcessor.processConversations. cbn zeta.
  set (w1 := MemoryProcessor.prepare w onProgress resumeMode).
  set (new := MemoryProcessor.filterNewConversations w1 conversations).
  destruct (decide (length new = 0)) as [Hnone|Hsome].
  - intros [= <-]. left. split; [by apply nil_length_inv|].
    by rewrite output_report.
  - destruct (decide (_ = 0)) as [|Hsize]; [done|].
    destruct (MemoryProcessor.batch_loop _ _ _ _) as [[wb i]|e] eqn:Hloop;
      cbn [mbind result_bind]; [|done].
    intros [= <-]. right. split; [by intros ->|].
    exists wb, i. split; [done|]. split; [|done].
    unfold MemoryProcessor.batch_loop in Hloop. cbn zeta in Hloop.
    apply (run_inv_batches _ _ _ w1 _ []) in Hloop;
      [|split; [done..|by intros ? ?%elem_of_nil]].
    cbn [app MemoryProcessor.with_counts MemoryProcessor.this
         MemoryProcessor.batchSize] in Hloop.
    rewrite batches_concat in Hloop; [done|lia|done].
Qed.

Lemma finish_keyed env wb conversations :
  store_keyed (MemoryProcessor.db wb) →
  store_keyed (MemoryProcessor.db (MemoryProcessor.finish env wb conversations)).
Proof.
  intros Hkeyed.
  destruct (finish_spec env wb conversations) as (_ & _ & _ & He & Hc & _).
  unfold store_keyed. rewrite He, Hc. split.
  - by apply foldl_saveEntity_keyed.
  - by apply foldl_saveConversation_keyed.
Qed.

(** The summaries of the filtered state are those of the state the batch
    loop left, without the removed ids. *)
Lemma filterSparseEntities_summarized seen w :
  summarized seen (MemoryProcessor.conversationEntities (MemoryProcessor.this w)) →
  summarized seen
    (MemoryProcessor.conversationEntities
       (MemoryProcessor.this (MemoryProcessor.filterSparseEntities w))).
Proof.
  intros Hsum c Hc. destruct (Hsum c Hc) as (convData & Hget & Hid).
  rewrite filterSparseEntities_spec. cbn.
  rewrite map_get_fmap, Hget. eexists. split; [done|]. done.
Qed.

(** After a run that returns, every conversation it was given has its
    summary in the store. *)
Lemma run_stores_all env w conversations onProgress resumeMode r :
  store_keyed (MemoryProcessor.db w) →
  MemoryProcessor.processConversations env w conversations onProgress resumeMode
    = Ok r →
  store_keyed (MemoryProcessor.db r.1)
  ∧ ∀ c, c ∈ conversations → conv_key c ∈ stored_ids (MemoryProcessor.db r.1).
Proof.
  intros Hkeyed Hrun.
  destruct (prepare_frame w onProgress resumeMode) as (Hdb & _).
  apply processConversations_cases in Hrun
    as [[Hnone ->]|(Hsome & wb & i & _ & Hinv & ->)]; cbn [fst].
  - rewrite report_db, Hdb. split; [done|]. intros c Hc.
    destruct (decide (conv_key c ∈ stored_ids (MemoryProcessor.db w))) as [|Hnew];
      [done|].
    assert (c ∈ MemoryProcessor.filterNewConversations
                  (MemoryProcessor.prepare w onProgress resumeMode) conversations)
      as Hin by (apply filterNewConversations_elem; by rewrite Hdb).
    rewrite Hnone in Hin. by apply elem_of_nil in Hin.
  - destruct Hinv as [Hdbb _ _ Hsum]. rewrite Hdb in Hdbb.
    assert (store_keyed (MemoryProcessor.db wb)) as Hkb by by rewrite Hdbb.
    split; [by apply finish_keyed|]. intros c Hc.
    apply stored_ids_elem; [by apply finish_keyed|].
    destruct (finish_spec env wb conversations) as (_ & _ & _ & _ & -> & _).
    destruct (decide (conv_key c ∈ stored_ids (MemoryProcessor.db w))) as [Hold|Hnew].
    + apply foldl_saveConversation_keeps. rewrite Hdbb.
      by apply stored_ids_elem.
    + assert (c ∈ MemoryProcessor.filterNewConversations
                    (MemoryProcessor.prepare w onProgress resumeMode) conversations)
        as Hin by (apply filterNewConversations_elem; by rewrite Hdb).
      apply (filterSparseEntities_summarized _ wb) in Hsum.
      destruct (Hsum c Hin) as (convData & Hget & <-).
      apply foldl_saveConversation_saves. unfold map_values.
      apply list_elem_of_fmap. eexists. split; [|by apply map_get_Some_elem].
      done.
Qed.

(** ** Running twice *)

Lemma nothing_new_run env w conversations onProgress resumeMode :
  let w1 := MemoryProcessor.prepare w onProgress resumeMode in
  (∀ c, c ∈ conversations → conv_key c ∈ stored_ids (MemoryProcessor.db w)) →
  MemoryProcessor.processConversations env w conversations onProgress resumeMode
  = Ok (MemoryProcessor.report w1 (MemoryProcessor.nothing_new w1 conversations),
        MemoryProcessor.output env w1).
Proof.
  intros w1 Hall. unfold MemoryProcessor.processConversations. cbn zeta. fold w1.
  assert (MemoryProcessor.filterNewConversations w1 conversations = []) as ->.
  { apply elem_of_nil_inv. intros c [Hc Hnew]%filterNewConversations_elem.
    apply Hnew. unfold w1.
    destruct (prepare_frame w onProgress resumeMode) as (-> & _). by apply Hall. }
  cbn [length]. rewrite decide_True by done. by rewrite output_report.
Qed.

(** C3, with the field the code sets. When a run on a keyed store has
    returned, a second run on the same conversations, by any processor on
    the store the first run left, finds nothing new: it returns without a
    write to the store, it returns the in-memory state as it is after the
    callback is set and, in resume mode, the store is loaded, and when a
    callback is given it reports one event, whose field [alreadyProcessed]
    is [true]; the event has no field [alreadyComplete]. *)
Theorem second_run_is_noop env w conversations onProgress resumeMode w1 out1
    env2 (p2 : MemoryProcessor.t) reported2 tick2 onProgress2 resumeMode2 :
  store_keyed (MemoryProcessor.db w) →
  MemoryProcessor.processConversations env w conversations onProgress resumeMode
    = Ok (w1, out1) →
  let w2 := MemoryProcessor.mkWorld p2 (MemoryProcessor.db w1) reported2 tick2 in
  let loaded := MemoryProcessor.prepare w2 onProgress2 resumeMode2 in
  let event := MemoryProcessor.nothing_new loaded conversations in
  let w2' := MemoryProcessor.report loaded event in
  MemoryProcessor.processConversations env2 w2 conversations onProgress2 resumeMode2
    = Ok (w2', MemoryProcessor.output env2 loaded)
  ∧ MemoryProcessor.db w2' = MemoryProcessor.db w1
  ∧ MemoryProcessor.tick w2' = tick2
  ∧ MemoryProcessor.this w2' = MemoryProcessor.this loaded
  ∧ MemoryProcessor.timeline (MemoryProcessor.this w2') = MemoryProcessor.timeline p2
  ∧ (resumeMode2 = false →
       MemoryProcessor.entities (MemoryProcessor.this w2') = MemoryProcessor.entities p2
       ∧ MemoryProcessor.conversationEntities (MemoryProcessor.this w2')
         = MemoryProcessor.conversationEntities p2)
  ∧ MemoryProcessor.reported w2'
    = (if onProgress2 then reported2 ++ [event] else reported2)
  ∧ map_get "alreadyProcessed" event = Some (VBool true)
  ∧ map_get "alreadyComplete" event = None.
Proof.
  intros Hkeyed Hrun w2 loaded event w2'.
  apply run_stores_all in Hrun as [_ Hall]; [|done]. cbn [fst] in Hall.
  destruct (prepare_frame w2 onProgress2 resumeMode2)
    as (Hdb & Hrep & Htick & Hcb & _ & _ & Htl).
  fold loaded in Hdb, Hrep, Htick, Hcb, Htl.
  split_and!.
  - by apply nothing_new_run.
  - unfold w2'. by rewrite report_db, Hdb.
  - unfold w2'. by rewrite report_tick, Htick.
  - apply report_this.
  - unfold w2'. by rewrite report_this, Htl.
  - intros ->. unfold w2'. by rewrite report_this.
  - unfold w2', MemoryProcessor.report. rewrite Hcb.
    destruct onProgress2; [cbn; by rewrite Hrep|done].
  - done.
  - done.
Qed.

(** ** A call with a range *)

(** C4, as the code has it. The processor has no range mode: in a call
    with a range the range is bound to no parameter, and the call is the
    incremental run on all the conversations given. When it returns on a
    keyed store, every conversation given, at any index, has its summary
    in the store, whether the range holds its index or not; the only
    metadata records written are [lastProcessedTime] and
    [totalConversationsProcessed], so [processedUpToIndex] is as it was
    and no history record is added; and when a conversation was new,
    [totalConversationsProcessed] is the number of conversations given. *)
Theorem range_call_processes_all env w conversations onProgress maxToProcess
    customRange w' out :
  store_keyed (MemoryProcessor.db w) →
  MemoryProcessor.processConversations_call env w conversations onProgress
    maxToProcess (Some customRange) = Ok (w', out) →
  MemoryProcessor.processConversations_call env w conversations onProgress
    maxToProcess None = Ok (w', out)
  ∧ (∀ c, c ∈ conversations → conv_key c ∈ stored_ids (MemoryProcessor.db w'))
  ∧ (∀ key, key ≠ "lastProcessedTime" → key ≠ "totalConversationsProcessed" →
       DBManager.getMetadata (MemoryProcessor.db w') key
       = DBManager.getMetadata (MemoryProcessor.db w) key)
  ∧ DBManager.getMetadata (MemoryProcessor.db w') "processedUpToIndex"
    = DBManager.getMetadata (MemoryProcessor.db w) "processedUpToIndex"
  ∧ ((∃ c, c ∈ conversations ∧ conv_key c ∉ stored_ids (MemoryProcessor.db w)) →
       DBManager.getMetadata (MemoryProcessor.db w') "totalConversationsProcessed"
       = Some (Z.of_nat (length conversations))).
Proof.
  unfold MemoryProcessor.processConversations_call. intros Hkeyed Hrun.
  split; [done|].
  split; [by apply (run_stores_all _ _ _ _ _ _ Hkeyed Hrun)|].
  pose proof (prepare_frame w onProgress (MemoryProcessor.truthy maxToProcess))
    as (Hdb & _).
  assert (∀ key, key ≠ "lastProcessedTime" → key ≠ "totalConversationsProcessed" →
            DBManager.getMetadata (MemoryProcessor.db w') key
            = DBManager.getMetadata (MemoryProcessor.db w) key) as Hmeta.
  { intros key Hk1 Hk2. unfold DBManager.getMetadata.
    apply processConversations_cases in Hrun
      as [[_ [= -> _]]|(_ & wb & i & _ & [Hdbb _ _ _] & [= -> _])].
    - by rewrite report_db, Hdb.
    - destruct (finish_spec env wb conversations) as (_ & _ & _ & _ & _ & ->).
      rewrite !lookup_insert_ne by done. by rewrite Hdbb, Hdb. }
  split; [done|]. split; [by apply Hmeta|].
  intros (c & Hc & Hnew). unfold DBManager.getMetadata.
  apply processConversations_cases in Hrun
    as [[Hnone _]|(_ & wb & i & _ & _ & [= -> _])].
  - assert (c ∈ MemoryProcessor.filterNewConversations
                  (MemoryProcessor.prepare w onProgress
                     (MemoryProcessor.truthy maxToProcess)) conversations) as Hin
      by (apply filterNewConversations_elem; by rewrite Hdb).
    rewrite Hnone in Hin. by apply elem_of_nil in Hin.
  - destruct (finish_spec env wb conversations) as (_ & _ & _ & _ & _ & ->).
    by rewrite lookup_insert_eq.
Qed.

(** ** Relationships *)

(** Two maps with the same keys in the same order, whose entities differ
    in their links at most. *)
Definition same_entities (m m' : list (string * Entity.t)) : Prop :=
  Forall2 (λ x y, x.1 = y.1 ∧ ∃ links, y.2 = MemoryProcessor.with_links x.2 links)
    m m'.

Lemma with_links_same entity :
  MemoryProcessor.with_links entity (Entity.links entity) = entity.
Proof. by destruct entity. Qed.

Lemma same_entities_refl m : same_entities m m.
Proof.
  induction m as [|[k e] m IH]; constructor; [|done].
  split; [done|]. exists (Entity.links e). by rewrite with_links_same.
Qed.

Lemma same_entities_trans m1 m2 m3 :
  same_entities m1 m2 → same_entities m2 m3 → same_entities m1 m3.
Proof.
  unfold same_entities. intros H12. revert m3.
  induction H12 as [|x y m1 m2 [Hk [l Hl]] _ IH]; intros m3 H23.
  - by apply Forall2_nil_inv_l in H23 as ->.
  - apply Forall2_cons_inv_l in H23 as (z & m3' & [Hk' [l' Hl']] & H23 & ->).
    constructor; [|by apply IH]. split; [congruence|].
    exists l'. by rewrite Hl', Hl.
Qed.

Lemma same_entities_keys m m' : same_entities m m' → map_keys m' = map_keys m.
Proof.
  unfold map_keys. induction 1 as [|x y m m' [Hk _] _ IH]; [done|].
  rewrite !fmap_cons. by f_equal.
Qed.

Lemma same_entities_values m m' e' :
  same_entities m m' → e' ∈ map_values m' →
  ∃ e links, e ∈ map_values m ∧ e' = MemoryProcessor.with_links e links.
Proof.
  unfold map_values. induction 1 as [|x y m m' [_ [l Hl]] _ IH].
  - by intros ?%elem_of_nil.
  - rewrite !fmap_cons. intros [->|Hin]%elem_of_cons.
    + exists x.2, l. split; [apply list_elem_of_here|done].
    + destruct (IH Hin) as (e & l' & He & ->).
      exists e, l'. split; [by apply list_elem_of_further|done].
Qed.

Lemma map_set_same a entity links m :
  map_get a m = Some entity →
  same_entities m (map_set a (MemoryProcessor.with_links entity links) m).
Proof.
  induction m as [|[k e] m IH]; cbn [map_get map_set]; [done|].
  destruct (decide (k = a)) as [->|Hne].
  - intros [= ->]. constructor; [|apply same_entities_refl].
    split; [done|]. by exists links.
  - intros Hget. constructor; [|by apply IH].
    split; [done|]. exists (Entity.links e). by rewrite with_links_same.
Qed.

Lemma add_link_same m a b : same_entities m (MemoryProcessor.add_link m a b).
Proof.
  unfold MemoryProcessor.add_link.
  destruct (map_get a m) as [entity|] eqn:Hget; [|apply same_entities_refl].
  destruct (array_includes _ _); [apply same_entities_refl|].
  by apply map_set_same.
Qed.

Lemma link_pair_same m a b : same_entities m (MemoryProcessor.link_pair m a b).
Proof.
  unfold MemoryProcessor.link_pair.
  destruct (_ && _); [|apply same_entities_refl].
  eapply same_entities_trans; apply add_link_same.
Qed.

Lemma foldl_same {B : Type} (f : list (string * Entity.t) → B → list (string * Entity.t))
    (l : list B) m :
  (∀ m b, same_entities m (f m b)) → same_entities m (foldl f m l).
Proof.
  intros Hf. revert m. induction l as [|b l IH]; intros m; cbn [foldl].
  - apply same_entities_refl.
  - eapply same_entities_trans; [apply Hf|apply IH].
Qed.

Lemma link_all_same m ids : same_entities m (MemoryProcessor.link_all m ids).
Proof.
  revert m. induction ids as [|a rest IH]; intros m; cbn [MemoryProcessor.link_all].
  - apply same_entities_refl.
  - eapply same_entities_trans; [|apply IH].
    apply foldl_same. intros. apply link_pair_same.
Qed.

Lemma computeRelationships_same w :
  same_entities (MemoryProcessor.entities (MemoryProcessor.this w))
    (MemoryProcessor.entities
       (MemoryProcessor.this (MemoryProcessor.computeRelationships w))).
Proof.
  unfold MemoryProcessor.computeRelationships. cbn.
  apply foldl_same. intros m [convId convData]. apply link_all_same.
Qed.

(** Every link of an entity of the map is a key of the map. *)
Definition links_live (m : list (string * Entity.t)) : Prop :=
  ∀ k e id, (k, e) ∈ m → id ∈ Entity.links e → id ∈ map_keys m.

Lemma add_link_live m a b :
  b ∈ map_keys m → links_live m → links_live (MemoryProcessor.add_link m a b).
Proof.
  intros Hb Hlive. unfold MemoryProcessor.add_link.
  destruct (map_get a m) as [entity|] eqn:Hget; [|done].
  destruct (array_includes _ _); [done|].
  intros k e id Hin Hid. apply map_keys_set_elem. right.
  apply map_set_elem in Hin as [[-> ->]|Hin]; [|by eapply Hlive].
  cbn in Hid. apply elem_of_app in Hid as [Hid| ->%list_elem_of_singleton]; [|done].
  eapply Hlive; [by apply map_get_Some_elem|done].
Qed.

Lemma link_pair_live m a b :
  links_live m → links_live (MemoryProcessor.link_pair m a b).
Proof.
  intros Hlive. unfold MemoryProcessor.link_pair. rewrite !map_has_keys.
  case_bool_decide as Ha; [|done]. case_bool_decide as Hb; [|done]. cbn.
  apply add_link_live; [|by apply add_link_live].
  by rewrite (same_entities_keys _ _ (add_link_same m a b)).
Qed.

Lemma link_all_live m ids :
  links_live m → links_live (MemoryProcessor.link_all m ids).
Proof.
  revert m. induction ids as [|a rest IH]; intros m Hlive;
    cbn [MemoryProcessor.link_all]; [done|].
  apply IH. apply foldl_preserves; [|done]. intros. by apply link_pair_live.
Qed.

Lemma computeRelationships_live w :
  links_live (MemoryProcessor.entities (MemoryProcessor.this w)) →
  links_live (MemoryProcessor.entities
                (MemoryProcessor.this (MemoryProcessor.computeRelationships w))).
Proof.
  intros Hlive. unfold MemoryProcessor.computeRelationships. cbn.
  apply foldl_preserves; [|done]. intros m [convId convData]. apply link_all_live.
Qed.

Lemma filterSparseEntities_live w :
  links_live (MemoryProcessor.entities
                (MemoryProcessor.this (MemoryProcessor.filterSparseEntities w))).
Proof.
  rewrite filterSparseEntities_spec. cbn. intros k e id Hin Hid.
  rewrite map_keys_fmap.
  apply list_elem_of_fmap in Hin as ([k0 e0] & [= -> ->] & Hin). cbn in Hid.
  apply list_elem_of_filter in Hid as [Hhas _].
  rewrite map_has_keys in Hhas. by apply bool_decide_unpack in Hhas.
Qed.

(** The entities that the filter keeps, and those it removes. *)
Lemma filterSparseEntities_kept w k e :
  (k, e) ∈ MemoryProcessor.entities
             (MemoryProcessor.this (MemoryProcessor.filterSparseEntities w)) →
  MemoryProcessor.minOccurrences (MemoryProcessor.this w) ≤ Entity.occurrences e
  ∧ k ∉ sparse (MemoryProcessor.minOccurrences (MemoryProcessor.this w))
          (MemoryProcessor.entities (MemoryProcessor.this w)).
Proof.
  rewrite filterSparseEntities_spec. cbn. intros Hin.
  apply list_elem_of_fmap in Hin as ([k0 e0] & [= -> ->] & Hin).
  apply list_elem_of_filter in Hin as [Hkept Hin]. cbn in Hkept.
  split; [|done]. cbn.
  destruct (decide (MemoryProcessor.minOccurrences (MemoryProcessor.this w)
                    ≤ Entity.occurrences e0)) as [|Hlt]; [done|].
  exfalso. apply Hkept. unfold sparse. apply list_elem_of_fmap.
  exists (k0, e0). split; [done|]. apply list_elem_of_filter. cbn. split; [lia|done].
Qed.

Lemma map_keys_filter {V : Type} (ids : list string) (m : list (string * V)) :
  map_keys (filter (λ kv, kv.1 ∉ ids) m) = filter (λ k, k ∉ ids) (map_keys m).
Proof.
  unfold map_keys. induction m as [|[k v] m IH]; [done|].
  rewrite fmap_cons, !filter_cons. cbn [fst].
  case_decide; [rewrite fmap_cons; cbn [fst]|]; by rewrite IH.
Qed.

Lemma filterSparseEntities_keys w :
  map_keys (MemoryProcessor.entities
              (MemoryProcessor.this (MemoryProcessor.filterSparseEntities w)))
  = filter (λ k, k ∉ sparse (MemoryProcessor.minOccurrences (MemoryProcessor.this w))
                       (MemoryProcessor.entities (MemoryProcessor.this w)))
      (map_keys (MemoryProcessor.entities (MemoryProcessor.this w))).
Proof.
  rewrite filterSparseEntities_spec.
  cbn [MemoryProcessor.entities MemoryProcessor.this MemoryProcessor.with_entities
       MemoryProcessor.with_conversationEntities].
  rewrite map_keys_fmap. apply map_keys_filter.
Qed.

(** ** The sparse filter in a run *)

Lemma settled_frame w :
  MemoryProcessor.conversationEntities (MemoryProcessor.this (settled w))
  = MemoryProcessor.conversationEntities
      (MemoryProcessor.this (MemoryProcessor.filterSparseEntities w))
  ∧ MemoryProcessor.timeline (MemoryProcessor.this (settled w))
    = MemoryProcessor.timeline (MemoryProcessor.this w).
Proof.
  unfold settled, MemoryProcessor.computeRelationships. cbn. split; [done|].
  by destruct (filterSparseEntities_frame w) as (_ & _ & _ & -> & _).
Qed.

Lemma elem_map_values {V : Type} (v : V) (m : list (string * V)) :
  v ∈ map_values m ↔ ∃ k, (k, v) ∈ m.
Proof.
  unfold map_values. rewrite list_elem_of_fmap. split.
  - intros ([k v'] & -> & Hin). by exists k.
  - intros [k Hin]. by exists (k, v).
Qed.

(** C2, as the code has it. After a run that found a new conversation,
    with [minOccurrences = k], let the removed ids be the keys of the
    entities below [k] in the state that the loop over the batches left.
    Every returned entity has at least [k] occurrences; the keys of the
    returned map are those the batch loop left without the removed ids;
    no returned summary and no returned entity refers to a removed id, and
    every link of a returned entity is a key of the returned map; the
    returned entities and summaries are put into the store, from which
    nothing is deleted. The timeline is not filtered: it is as the batch
    loop left it. *)
Theorem sparse_filter_after_run env w conversations onProgress resumeMode w' out :
  MemoryProcessor.processConversations env w conversations onProgress resumeMode
    = Ok (w', out) →
  (∃ c, c ∈ conversations ∧ conv_key c ∉ stored_ids (MemoryProcessor.db w)) →
  let w1 := MemoryProcessor.prepare w onProgress resumeMode in
  let new := MemoryProcessor.filterNewConversations w1 conversations in
  ∃ wb i,
    let k := MemoryProcessor.minOccurrences (MemoryProcessor.this w) in
    let removed := sparse k (MemoryProcessor.entities (MemoryProcessor.this wb)) in
    MemoryProcessor.batch_loop env w1 new resumeMode = Ok (wb, i)
    ∧ (∀ id, id ∈ removed
             ↔ ∃ e, (id, e) ∈ MemoryProcessor.entities (MemoryProcessor.this wb)
                    ∧ Entity.occurrences e < k)
    ∧ w' = MemoryProcessor.finish env wb conversations
    ∧ out = MemoryProcessor.output env w'
    ∧ (∀ e, e ∈ MemoryProcessor.out_entities out → k ≤ Entity.occurrences e)
    ∧ map_keys (MemoryProcessor.entities (MemoryProcessor.this w'))
      = filter (λ id, id ∉ removed)
          (map_keys (MemoryProcessor.entities (MemoryProcessor.this wb)))
    ∧ (∀ convId convData id,
         (convId, convData) ∈ MemoryProcessor.out_conversations out →
         id ∈ ConvData.entities convData → id ∉ removed)
    ∧ (∀ e id,
         e ∈ MemoryProcessor.out_entities out → id ∈ Entity.links e →
         id ∈ map_keys (MemoryProcessor.entities (MemoryProcessor.this w'))
         ∧ id ∉ removed)
    ∧ DBManager.entities (MemoryProcessor.db w')
      = DBManager.entities
          (foldl DBManager.saveEntity (MemoryProcessor.db w)
             (MemoryProcessor.out_entities out))
    ∧ DBManager.conversations (MemoryProcessor.db w')
      = DBManager.conversations
          (foldl DBManager.saveConversation (MemoryProcessor.db w)
             (map_values (MemoryProcessor.out_conversations out)))
    ∧ MemoryProcessor.timeline (MemoryProcessor.this w')
      = MemoryProcessor.timeline (MemoryProcessor.this wb)
    ∧ MemoryProcessor.out_timeline out = MemoryProcessor.buildTimeline env wb.
Proof.
  intros Hrun (c & Hc & Hnew) w1 new.
  destruct (prepare_frame w onProgress resumeMode) as (Hdb & _ & _ & _ & _ & Hmin & _).
  apply processConversations_cases in Hrun
    as [[Hnone _]|(_ & wb & i & Hloop & [Hdbb _ Hminb _] & [= -> ->])].
  { assert (c ∈ MemoryProcessor.filterNewConversations
                  (MemoryProcessor.prepare w onProgress resumeMode) conversations)
      as Hin by (apply filterNewConversations_elem; by rewrite Hdb).
    rewrite Hnone in Hin. by apply elem_of_nil in Hin. }
  exists wb, i. cbn zeta. split; [exact Hloop|]. rewrite <-Hmin, <-Hminb.
  split.
  { intros id. unfold sparse. rewrite list_elem_of_fmap. split.
    - intros ([id' e] & -> & [Hocc Hin]%list_elem_of_filter). by exists e.
    - intros (e & Hin & Hocc). exists (id, e). split; [done|].
      by apply list_elem_of_filter. }
  destruct (finish_spec env wb conversations) as (Hthis & _ & _ & He & Hcs & _).
  destruct (settled_frame wb) as [Hconvs Htl].
  pose proof (computeRelationships_same (MemoryProcessor.filterSparseEntities wb))
    as Hsame. fold (settled wb) in Hsame.
  pose proof (computeRelationships_live _ (filterSparseEntities_live wb)) as Hlive.
  fold (settled wb) in Hlive.
  assert (map_keys (MemoryProcessor.entities (MemoryProcessor.this (settled wb)))
          = filter (λ id, id ∉ sparse (MemoryProcessor.minOccurrences
                                          (MemoryProcessor.this wb))
                                (MemoryProcessor.entities (MemoryProcessor.this wb)))
              (map_keys (MemoryProcessor.entities (MemoryProcessor.this wb))))
    as Hkeys
    by (by rewrite (same_entities_keys _ _ Hsame), filterSparseEntities_keys).
  unfold MemoryProcessor.output, MemoryProcessor.buildTimeline.
  cbn [MemoryProcessor.out_entities MemoryProcessor.out_conversations
       MemoryProcessor.out_timeline].
  rewrite Hthis. split_and!; try done.
  - intros e He'.
    destruct (same_entities_values _ _ _ Hsame He') as (e0 & ls & He0 & ->).
    apply elem_map_values in He0 as [k0 He0].
    by apply filterSparseEntities_kept in He0 as [Hocc _].
  - intros convId convData id Hin Hid. rewrite Hconvs in Hin.
    rewrite filterSparseEntities_spec in Hin. cbn in Hin.
    apply list_elem_of_fmap in Hin as ([k0 c0] & [= -> ->] & _). cbn in Hid.
    by apply list_elem_of_filter in Hid as [? _].
  - intros e id [k0 Hin]%elem_map_values Hid.
    pose proof (Hlive _ _ _ Hin Hid) as Hkey. split; [done|].
    rewrite Hkeys in Hkey. by apply list_elem_of_filter in Hkey as [? _].
  - by rewrite He, Hdbb, Hdb.
  - rewrite Hcs, Hconvs. apply foldl_saveConversation_ext. by rewrite Hdbb, Hdb.
  - by rewrite Htl.
Qed.

(** ** The link relation *)

(** The links of the entity under a key. *)
Definition links_of (m : list (string * Entity.t)) (a : string) : list string :=
  match map_get a m with
  | Some entity => Entity.links entity
  | None => []
  end.

Lemma add_link_links m a b x y :
  y ∈ links_of (MemoryProcessor.add_link m a b) x
  ↔ y ∈ links_of m x ∨ (x = a ∧ y = b ∧ a ∈ map_keys m).
Proof.
  unfold MemoryProcessor.add_link, array_includes.
  destruct (map_get a m) as [entity|] eqn:Hget.
  - assert (a ∈ map_keys m) as Ha by (apply map_get_is_Some; by eexists).
    case_bool_decide as Hin.
    + split; [by left|]. intros [?|(-> & -> & _)]; [done|].
      unfold links_of. by rewrite Hget.
    + unfold links_of. rewrite map_get_set.
      destruct (decide (a = x)) as [<-|Hne].
      * rewrite Hget. cbn. rewrite elem_of_app, list_elem_of_singleton.
        split; [intros [?|?]; auto|intros [?|(_ & ? & _)]; auto].
      * split; [by left|]. by intros [?|(? & _)].
  - apply map_get_None in Hget. split; [by left|]. by intros [?|(_ & _ & ?)].
Qed.

Lemma link_pair_keys m a b :
  map_keys (MemoryProcessor.link_pair m a b) = map_keys m.
Proof. apply same_entities_keys, link_pair_same. Qed.

Lemma link_pair_links m a b x y :
  y ∈ links_of (MemoryProcessor.link_pair m a b) x
  ↔ y ∈ links_of m x
    ∨ (a ∈ map_keys m ∧ b ∈ map_keys m ∧ ((x = a ∧ y = b) ∨ (x = b ∧ y = a))).
Proof.
  unfold MemoryProcessor.link_pair. rewrite !map_has_keys.
  case_bool_decide as Ha; [case_bool_decide as Hb|]; cbn [andb].
  - rewrite !add_link_links.
    rewrite (same_entities_keys _ _ (add_link_same m a b)). tauto.
  - tauto.
  - tauto.
Qed.

(** The relation is symmetric on the keys of the map. *)
Definition symmetric_on_keys (m : list (string * Entity.t)) : Prop :=
  ∀ x y, x ∈ map_keys m → y ∈ map_keys m →
    (y ∈ links_of m x ↔ x ∈ links_of m y).

Lemma link_pair_symmetric m a b :
  symmetric_on_keys m → symmetric_on_keys (MemoryProcessor.link_pair m a b).
Proof.
  intros Hsym x y. rewrite link_pair_keys, !link_pair_links. intros Hx Hy.
  specialize (Hsym x y Hx Hy). tauto.
Qed.

Lemma link_all_keys m ids : map_keys (MemoryProcessor.link_all m ids) = map_keys m.
Proof. apply same_entities_keys, link_all_same. Qed.

Lemma link_all_symmetric m ids :
  symmetric_on_keys m → symmetric_on_keys (MemoryProcessor.link_all m ids).
Proof.
  revert m. induction ids as [|a rest IH]; intros m Hsym;
    cbn [MemoryProcessor.link_all]; [done|].
  apply IH. apply foldl_preserves; [|done]. intros. by apply link_pair_symmetric.
Qed.

(** Links are added, never taken away. *)
Definition links_grow (m m' : list (string * Entity.t)) : Prop :=
  ∀ x y, y ∈ links_of m x → y ∈ links_of m' x.

Lemma foldl_links_grow {B : Type}
    (f : list (string * Entity.t) → B → list (string * Entity.t)) (l : list B) m :
  (∀ m b, links_grow m (f m b)) → links_grow m (foldl f m l).
Proof.
  intros Hf. revert m. induction l as [|b l IH]; intros m; cbn [foldl].
  - by intros x y Hxy.
  - intros x y Hxy. by apply IH, Hf.
Qed.

Lemma link_pair_grow m a b : links_grow m (MemoryProcessor.link_pair m a b).
Proof. intros x y Hxy. apply link_pair_links. by left. Qed.

Lemma link_all_grow m ids : links_grow m (MemoryProcessor.link_all m ids).
Proof.
  revert m. induction ids as [|a rest IH]; intros m; cbn [MemoryProcessor.link_all];
    [by intros x y Hxy|].
  intros x y Hxy. apply IH. revert x y Hxy.
  apply foldl_links_grow. intros. apply link_pair_grow.
Qed.

(** The inner loop links [a] with every later id that is a key. *)
Lemma foldl_link_pair m a rest b :
  a ∈ map_keys m → b ∈ map_keys m → b ∈ rest →
  let m' := foldl (λ m b, MemoryProcessor.link_pair m a b) m rest in
  b ∈ links_of m' a ∧ a ∈ links_of m' b.
Proof.
  cbn zeta. revert m. induction rest as [|b' rest IH]; intros m Ha Hb Hin.
  - by apply elem_of_nil in Hin.
  - cbn [foldl]. apply elem_of_cons in Hin as [<-|Hin].
    + split; (eapply (foldl_links_grow (λ m b, MemoryProcessor.link_pair m a b));
        [intros; apply link_pair_grow|]); apply link_pair_links; tauto.
    + apply IH; [by rewrite link_pair_keys..|done].
Qed.

Lemma foldl_link_pair_keys m a rest :
  map_keys (foldl (λ m b, MemoryProcessor.link_pair m a b) m rest) = map_keys m.
Proof.
  apply same_entities_keys, foldl_same. intros. apply link_pair_same.
Qed.

(** The two loops link every two ids at different places of the list
    that are keys. *)
Lemma link_all_links m ids i j a b :
  ids !! i = Some a → ids !! j = Some b → i < j →
  a ∈ map_keys m → b ∈ map_keys m →
  let m' := MemoryProcessor.link_all m ids in
  b ∈ links_of m' a ∧ a ∈ links_of m' b.
Proof.
  cbn zeta. revert m i j. induction ids as [|c rest IH]; intros m i j Hi Hj Hlt Ha Hb.
  - done.
  - cbn [MemoryProcessor.link_all]. destruct j as [|j]; [lia|]. cbn in Hj.
    destruct i as [|i]; cbn in Hi.
    + injection Hi as ->.
      destruct (foldl_link_pair m a rest b Ha Hb) as [Hab Hba];
        [by eapply list_elem_of_lookup_2|].
      split; by apply link_all_grow.
    + apply (IH _ i j); [done|done|lia|by rewrite foldl_link_pair_keys..].
Qed.

(** The entities of the map are under their ids. *)
Definition keyed_by_id (m : list (string * Entity.t)) : Prop :=
  ∀ k e, map_get k m = Some e → Entity.id e = k.

(** For every two entities [A] and [B] of the map, [A.links] has [B.id]
    if and only if [B.links] has [A.id]. *)
Definition links_symmetric (m : list (string * Entity.t)) : Prop :=
  ∀ a b ea eb, map_get a m = Some ea → map_get b m = Some eb →
    (Entity.id eb ∈ Entity.links ea ↔ Entity.id ea ∈ Entity.links eb).

Lemma links_symmetric_on_keys m :
  keyed_by_id m → links_symmetric m ↔ symmetric_on_keys m.
Proof.
  intros Hkeyed. split.
  - intros Hsym x y [ex Hx]%map_get_is_Some [ey Hy]%map_get_is_Some.
    unfold links_of. rewrite Hx, Hy.
    specialize (Hsym x y ex ey Hx Hy).
    by rewrite (Hkeyed _ _ Hx), (Hkeyed _ _ Hy) in Hsym.
  - intros Hsym a b ea eb Ha Hb.
    rewrite (Hkeyed _ _ Ha), (Hkeyed _ _ Hb).
    assert (a ∈ map_keys m) as Hka by (apply map_get_is_Some; by eexists).
    assert (b ∈ map_keys m) as Hkb by (apply map_get_is_Some; by eexists).
    specialize (Hsym a b Hka Hkb). unfold links_of in Hsym.
    by rewrite Ha, Hb in Hsym.
Qed.

Lemma same_entities_get m m' k e' :
  same_entities m m' → map_get k m' = Some e' →
  ∃ e links, map_get k m = Some e ∧ e' = MemoryProcessor.with_links e links.
Proof.
  induction 1 as [|[k1 e1] [k2 e2] m m' [Hk [l Hl]] _ IH]; [done|].
  cbn in Hk, Hl. subst k2. cbn [map_get].
  destruct (decide (k1 = k)) as [->|Hne]; [|done].
  intros [= <-]. by exists e1, l.
Qed.

Lemma same_entities_keyed m m' :
  same_entities m m' → keyed_by_id m → keyed_by_id m'.
Proof.
  intros Hsame Hkeyed k e' Hget.
  destruct (same_entities_get _ _ _ _ Hsame Hget) as (e & l & He & ->).
  cbn. by apply Hkeyed.
Qed.

Lemma computeRelationships_symmetric_on_keys w :
  symmetric_on_keys (MemoryProcessor.entities (MemoryProcessor.this w)) →
  symmetric_on_keys
    (MemoryProcessor.entities
       (MemoryProcessor.this (MemoryProcessor.computeRelationships w))).
Proof.
  intros Hsym. unfold MemoryProcessor.computeRelationships. cbn.
  apply foldl_preserves; [|done]. intros m [convId convData].
  apply link_all_symmetric.
Qed.

Lemma computeRelationships_grow w :
  links_grow (MemoryProcessor.entities (MemoryProcessor.this w))
    (MemoryProcessor.entities
       (MemoryProcessor.this (MemoryProcessor.computeRelationships w))).
Proof.
  unfold MemoryProcessor.computeRelationships. cbn.
  apply foldl_links_grow. intros m [convId convData]. apply link_all_grow.
Qed.

(** Two ids at different places of a summary, both keys of the map, are
    linked with each other by [computeRelationships]. *)
Lemma computeRelationships_links w convId convData i j a b :
  (convId, convData) ∈ MemoryProcessor.conversationEntities (MemoryProcessor.this w) →
  ConvData.entities convData !! i = Some a →
  ConvData.entities convData !! j = Some b →
  i ≠ j →
  a ∈ map_keys (MemoryProcessor.entities (MemoryProcessor.this w)) →
  b ∈ map_keys (MemoryProcessor.entities (MemoryProcessor.this w)) →
  b ∈ links_of
        (MemoryProcessor.entities
           (MemoryProcessor.this (MemoryProcessor.computeRelationships w))) a.
Proof.
  unfold MemoryProcessor.computeRelationships. cbn.
  generalize (MemoryProcessor.entities (MemoryProcessor.this w)) as m.
  induction (MemoryProcessor.conversationEntities (MemoryProcessor.this w))
    as [|[convId' convData'] convs IH]; intros m Hin Hi Hj Hne Ha Hb.
  - by apply elem_of_nil in Hin.
  - cbn [foldl]. apply elem_of_cons in Hin as [[= <- <-]|Hin].
    + eapply (foldl_links_grow
                (λ m '(_, convData), MemoryProcessor.link_all m (ConvData.entities convData)));
        [intros ? [? ?]; apply link_all_grow|].
      destruct (decide (i < j)) as [Hlt|Hge].
      * by apply (link_all_links m _ i j a b).
      * by apply (link_all_links m _ j i b a); [..|lia|done|done].
    + apply IH; [done..|by rewrite link_all_keys|by rewrite link_all_keys].
Qed.

Lemma filterSparseEntities_get w k e' :
  let es := MemoryProcessor.entities (MemoryProcessor.this w) in
  let removed :=
    sparse (MemoryProcessor.minOccurrences (MemoryProcessor.this w)) es in
  let kept := filter (λ kv, kv.1 ∉ removed) es in
  map_get k (MemoryProcessor.entities
               (MemoryProcessor.this (MemoryProcessor.filterSparseEntities w)))
    = Some e' →
  ∃ e, map_get k es = Some e
       ∧ map_get k kept = Some e
       ∧ e' = MemoryProcessor.with_links e
                (filter (λ linkId, map_has linkId kept) (Entity.links e)).
Proof.
  cbn zeta. rewrite filterSparseEntities_spec.
  cbn [MemoryProcessor.entities MemoryProcessor.this MemoryProcessor.with_entities
       MemoryProcessor.with_conversationEntities].
  rewrite map_get_fmap.
  destruct (map_get k (filter _ _)) as [e|] eqn:Hkept; [|done].
  intros [= <-]. exists e. split; [|done].
  rewrite map_get_filter_keys in Hkept. by case_decide.
Qed.

Lemma filterSparseEntities_keyed w :
  keyed_by_id (MemoryProcessor.entities (MemoryProcessor.this w)) →
  keyed_by_id (MemoryProcessor.entities
                 (MemoryProcessor.this (MemoryProcessor.filterSparseEntities w))).
Proof.
  intros Hkeyed k e' (e & He & _ & ->)%filterSparseEntities_get. cbn.
  by apply Hkeyed.
Qed.

Lemma filterSparseEntities_symmetric w :
  keyed_by_id (MemoryProcessor.entities (MemoryProcessor.this w)) →
  links_symmetric (MemoryProcessor.entities (MemoryProcessor.this w)) →
  links_symmetric (MemoryProcessor.entities
                     (MemoryProcessor.this (MemoryProcessor.filterSparseEntities w))).
Proof.
  intros Hkeyed Hsym a b ea' eb'
    (ea & Ha & Hka & ->)%filterSparseEntities_get
    (eb & Hb & Hkb & ->)%filterSparseEntities_get.
  cbn [Entity.id Entity.links MemoryProcessor.with_links].
  rewrite !list_elem_of_filter.
  rewrite (Hkeyed _ _ Ha), (Hkeyed _ _ Hb).
  assert (∀ k e, map_get k (filter (λ kv : string * Entity.t, kv.1 ∉
            sparse (MemoryProcessor.minOccurrences (MemoryProcessor.this w))
              (MemoryProcessor.entities (MemoryProcessor.this w)))
            (MemoryProcessor.entities (MemoryProcessor.this w))) = Some e →
          map_has k (filter (λ kv : string * Entity.t, kv.1 ∉
            sparse (MemoryProcessor.minOccurrences (MemoryProcessor.this w))
              (MemoryProcessor.entities (MemoryProcessor.this w)))
            (MemoryProcessor.entities (MemoryProcessor.this w)))) as Hhas.
  { intros k e Hk. unfold map_has. apply bool_decide_pack. by eexists. }
  specialize (Hsym a b ea eb Ha Hb).
  rewrite (Hkeyed _ _ Ha), (Hkeyed _ _ Hb) in Hsym.
  pose proof (Hhas _ _ Hka). pose proof (Hhas _ _ Hkb). tauto.
Qed.

(** ** Maps without links *)

(** The entities are under their ids and have no link: the state of a
    processor that has not yet computed relationships. *)
Definition unlinked (m : list (string * Entity.t)) : Prop :=
  ∀ k e, map_get k m = Some e → Entity.id e = k ∧ Entity.links e = [].

Lemma unlinked_symmetric m : unlinked m → keyed_by_id m ∧ links_symmetric m.
Proof.
  intros Hun. split.
  - intros k e Hk. by apply Hun.
  - intros a b ea eb [_ Ha]%Hun [_ Hb]%Hun. rewrite Ha, Hb.
    split; by intros ?%elem_of_nil.
Qed.

Lemma unlinked_set k e m :
  Entity.id e = k → Entity.links e = [] → unlinked m → unlinked (map_set k e m).
Proof.
  intros Hid Hlinks Hun k' e'. rewrite map_get_set.
  case_decide as Hk; [|apply Hun]. intros [= <-]. by subst.
Qed.

Lemma getOrCreateEntity_unlinked env tick m extracted convId timestamp :
  unlinked m →
  unlinked (MemoryProcessor.getOrCreateEntity env tick m extracted convId timestamp).1.2.
Proof.
  intros Hun. unfold MemoryProcessor.getOrCreateEntity.
  destruct (MemoryProcessor.findExistingEntity _ _ _) as [id|];
    [destruct (decide (id ≠ "")); [done|]|]; cbn [fst snd];
    by apply unlinked_set.
Qed.

Lemma resolve_unlinked env convId timestamp s extracted s' :
  unlinked s.1.1 →
  MemoryProcessor.resolve env convId timestamp s extracted = Ok s' →
  unlinked s'.1.1.
Proof.
  destruct s as [[m tick] convEntities]. cbn [fst]. intros Hun.
  unfold MemoryProcessor.resolve.
  pose proof (getOrCreateEntity_unlinked env tick m extracted convId timestamp Hun)
    as Hun'.
  destruct (MemoryProcessor.getOrCreateEntity _ _ _ _ _ _) as [[entityId m'] tick'].
  cbn [fst snd] in Hun'.
  destruct (map_get entityId m') as [entity|] eqn:Hget; [|done].
  intros [= <-]. cbn [fst]. destruct (Hun' _ _ Hget) as [Hid Hlinks].
  by apply unlinked_set.
Qed.

Lemma processConversation_unlinked env w c w' :
  unlinked (MemoryProcessor.entities (MemoryProcessor.this w)) →
  MemoryProcessor.processConversation env w c = Ok w' →
  unlinked (MemoryProcessor.entities (MemoryProcessor.this w')).
Proof.
  intros Hun. unfold MemoryProcessor.processConversation.
  destruct (if decide (_ = 0%Z) then _ else _) as [timestamp tick0].
  destruct (iso_date timestamp) as [date|e]; cbn [mbind result_bind]; [|done].
  destruct (for_each _ _ _) as [[[m tick1] convEntities]|e] eqn:Hloop;
    cbn [mbind result_bind]; [|done].
  intros [= <-]. cbn.
  apply (for_each_invariant _ (λ _ s, unlinked s.1.1) ) with (seen := [])
    in Hloop; [done| |done].
  intros seen s a s' Hs Hstep. by eapply resolve_unlinked.
Qed.

Lemma processBatch_unlinked env w batch w' :
  unlinked (MemoryProcessor.entities (MemoryProcessor.this w)) →
  MemoryProcessor.processBatch env w batch = Ok w' →
  unlinked (MemoryProcessor.entities (MemoryProcessor.this w')).
Proof.
  intros Hun Hbatch. unfold MemoryProcessor.processBatch in Hbatch.
  apply (for_each_invariant _
    (λ _ w, unlinked (MemoryProcessor.entities (MemoryProcessor.this w))))
    with (seen := []) in Hbatch; [done| |done].
  intros seen s a s' Hs Hstep. by eapply processConversation_unlinked.
Qed.

Lemma batches_unlinked env resumeMode total batches w i w' i' :
  unlinked (MemoryProcessor.entities (MemoryProcessor.this w)) →
  for_each (MemoryProcessor.batch_round env resumeMode total) (w, i) batches
    = Ok (w', i') →
  unlinked (MemoryProcessor.entities (MemoryProcessor.this w')).
Proof.
  intros Hun Hloop.
  apply (for_each_invariant _
    (λ _ s, unlinked (MemoryProcessor.entities (MemoryProcessor.this s.1))))
    with (seen := []) in Hloop; [done| |done].
  clear. intros _ [w1 i1] batch [w2 i2] Hun. cbn [fst] in *.
  unfold MemoryProcessor.batch_round.
  destruct (MemoryProcessor.processBatch env w1 batch) as [w3|e] eqn:Hbatch;
    cbn [mbind result_bind]; [|done].
  intros [= <- _]. rewrite report_this. cbn.
  by eapply processBatch_unlinked.
Qed.

Lemma finish_symmetric env w conversations :
  keyed_by_id (MemoryProcessor.entities (MemoryProcessor.this w)) →
  links_symmetric (MemoryProcessor.entities (MemoryProcessor.this w)) →
  keyed_by_id (MemoryProcessor.entities
                 (MemoryProcessor.this (MemoryProcessor.finish env w conversations)))
  ∧ links_symmetric
      (MemoryProcessor.entities
         (MemoryProcessor.this (MemoryProcessor.finish env w conversations))).
Proof.
  intros Hkeyed Hsym.
  destruct (finish_spec env w conversations) as (-> & _). unfold settled.
  pose proof (filterSparseEntities_keyed w Hkeyed) as Hk1.
  pose proof (filterSparseEntities_symmetric w Hkeyed Hsym) as Hs1.
  pose proof (same_entities_keyed _ _
                (computeRelationships_same (MemoryProcessor.filterSparseEntities w))
                Hk1) as Hk2.
  split; [done|]. apply links_symmetric_on_keys; [done|].
  apply computeRelationships_symmetric_on_keys.
  by apply links_symmetric_on_keys.
Qed.

(** C5, under its condition. [computeRelationships] adds links and takes
    none away: when the entities are under their ids and the link relation
    is symmetric before it runs, the relation is symmetric after it, and
    any two ids at different places of a summary that are keys of the map
    are then linked with each other; the same holds for the map that the
    end of a run returns, after the sparse filter. A run that is not in
    resume mode and starts from a map without links, such as that of a new
    processor, returns a map whose link relation is symmetric. *)
Theorem link_symmetry_preserved :
  (∀ w,
     let m := MemoryProcessor.entities (MemoryProcessor.this w) in
     let m' :=
       MemoryProcessor.entities
         (MemoryProcessor.this (MemoryProcessor.computeRelationships w)) in
     keyed_by_id m → links_symmetric m →
     keyed_by_id m' ∧ links_symmetric m'
     ∧ map_keys m' = map_keys m
     ∧ (∀ a b, b ∈ links_of m a → b ∈ links_of m' a)
     ∧ (∀ convId convData i j a b,
          (convId, convData)
            ∈ MemoryProcessor.conversationEntities (MemoryProcessor.this w) →
          ConvData.entities convData !! i = Some a →
          ConvData.entities convData !! j = Some b →
          i ≠ j → a ∈ map_keys m → b ∈ map_keys m →
          b ∈ links_of m' a ∧ a ∈ links_of m' b))
  ∧ (∀ env w conversations,
       keyed_by_id (MemoryProcessor.entities (MemoryProcessor.this w)) →
       links_symmetric (MemoryProcessor.entities (MemoryProcessor.this w)) →
       links_symmetric
         (MemoryProcessor.entities
            (MemoryProcessor.this (MemoryProcessor.finish env w conversations))))
  ∧ (∀ env w conversations onProgress w' out,
       unlinked (MemoryProcessor.entities (MemoryProcessor.this w)) →
       MemoryProcessor.processConversations env w conversations onProgress false
         = Ok (w', out) →
       links_symmetric (MemoryProcessor.entities (MemoryProcessor.this w'))).
Proof.
  split_and!.
  - intros w m m' Hkeyed Hsym.
    pose proof (computeRelationships_same w) as Hsame. fold m m' in Hsame.
    pose proof (same_entities_keyed _ _ Hsame Hkeyed) as Hkeyed'.
    split_and!.
    + done.
    + apply links_symmetric_on_keys; [done|].
      apply computeRelationships_symmetric_on_keys.
      by apply links_symmetric_on_keys.
    + by apply same_entities_keys.
    + apply computeRelationships_grow.
    + intros convId convData i j a b Hin Hi Hj Hne Ha Hb.
      split; by eapply computeRelationships_links.
  - intros env w conversations Hkeyed Hsym.
    by apply finish_symmetric.
  - intros env w conversations onProgress w' out Hun Hrun.
    unfold MemoryProcessor.processConversations in Hrun. cbn zeta in Hrun.
    change (MemoryProcessor.prepare w onProgress false)
      with (MemoryProcessor.with_onProgress w onProgress) in Hrun.
    destruct (decide (length _ = 0)) as [Hnone|Hsome].
    + injection Hrun as <- _. rewrite report_this. cbn.
      by apply unlinked_symmetric.
    + destruct (decide (_ = 0)) as [|Hsize]; [done|].
      destruct (MemoryProcessor.batch_loop _ _ _ _) as [[wb i]|e] eqn:Hloop;
        cbn [mbind result_bind] in Hrun; [|done].
      injection Hrun as <- _.
      unfold MemoryProcessor.batch_loop in Hloop. cbn zeta in Hloop.
      apply batches_unlinked in Hloop; [|done].
      apply unlinked_symmetric in Hloop as [Hk Hs].
      by apply finish_symmetric.
Qed.

(** ** Searching *)

Lemma chars_str l : chars (str l) = l.
Proof. apply String.list_ascii_of_string_of_list_ascii. Qed.

Lemma chars_app (s t : string) : chars (s +:+ t) = chars s ++ chars t.
Proof.
  unfold chars. induction s as [|c s IH]; [done|].
  change (String c s +:+ t) with (String c (s +:+ t)). cbn. by rewrite IH.
Qed.








(** The loop that merges the fuzzy results into the exact ones. *)
Lemma merge_results (exactIds : list string) (fuzzyResults results : list SearchEngine.Hit) :
  foldl (λ results result,
     if bool_decide (Entity.id (SearchEngine.entity result) ∉ exactIds)
     then results ++ [result] else results) results fuzzyResults
  = results
    ++ filter (λ r, Entity.id (SearchEngine.entity r) ∉ exactIds) fuzzyResults.
Proof.
  revert results. induction fuzzyResults as [|r fs IH]; intros results; cbn [foldl].
  - by rewrite filter_nil, app_nil_r.
  - rewrite IH, filter_cons.
    destruct (decide (Entity.id (SearchEngine.entity r) ∉ exactIds)) as [Hr|Hr].
    + rewrite bool_decide_eq_true_2 by done. by rewrite <-app_assoc.
    + by rewrite bool_decide_eq_false_2 by done.
Qed.












(** ** Viewport culling *)

Section Culling.
Context {num : Type} `{JsNumber num}.








End Culling.

(** ** Names that differ in case *)








(** * Part III: the scenarios *)

(** An environment whose clock starts at 2023-11-14T22:13:20Z and gains a
    millisecond at every reading, whose random strings are numbered, and
    whose collation is the order of the code units. *)
Definition env0 : Env.t :=
  Env.mk (λ k, (1700000000000 + Z.of_nat k)%Z) (λ k, "r" +:+ pretty k)
    String.leb.

(** A conversation with one message of the user. *)
Definition conv (id text : string) (create_time : Z) : Conversation.t :=
  Conversation.mk id "" "" create_time 0 [Node.mk (Some [PartText text]) "user"].

(** A new processor on an empty store. *)
Definition w0 : MemoryProcessor.World :=
  MemoryProcessor.mkWorld MemoryProcessor.create DBManager.empty [] 0.

(** What a run returned. *)
Definition returned (r : result (MemoryProcessor.World * MemoryProcessor.Output))
  : MemoryProcessor.World * MemoryProcessor.Output :=
  match r with
  | Ok a => a
  | Throw _ => (w0, MemoryProcessor.output env0 w0)
  end.

(** ** Resolution *)

Definition john_id : string := "person_john smith_1700000000000_r0".

Definition john_map : list (string * Entity.t) :=
  [(john_id,
    Entity.mk john_id person "John Smith" "John Smith" 1700000000 1700000000 1
      ["c1"] [] "john smith" "John Smith")].

Definition john_lower : Extracted.t :=
  Extracted.mk person "john smith" "" "john smith".

Lemma getOrCreateEntity_resolution_witness :
  ids_truthy john_map
  ∧ Exists (λ kv, same_key person "john smith" kv.2) john_map
  ∧ first_with (same_key person "john smith") john_map
      (MemoryProcessor.getOrCreateEntity env0 1 john_map john_lower "c2"
         1700086400).1.1
  ∧ (MemoryProcessor.getOrCreateEntity env0 1 john_map john_lower "c2"
       1700086400).1.2 = john_map.
Proof.
  assert (ids_truthy john_map) as Htruthy by (by repeat constructor).
  assert (Exists (λ kv, same_key person "john smith" kv.2) john_map) as Hexists
    by (apply Exists_cons_hd; by split).
  split; [exact Htruthy|]. split; [exact Hexists|].
  exact (proj1 (getOrCreateEntity_resolution env0 1 john_map john_lower "c2"
                  1700086400 Htruthy) Hexists).
Defined.

(** ** The sparse filter *)

Definition john_convs : list Conversation.t :=
  [conv "c1" "John Smith" 1700000000; conv "c2" "john smith" 1700086400].

Definition john_run : MemoryProcessor.World * MemoryProcessor.Output :=
  returned (MemoryProcessor.processConversations env0 w0 john_convs true false).

(** The entity of the first conversation is counted, has one occurrence
    and is removed; the timeline that the run returns and the timeline it
    stores still hold its id. *)
Lemma sparse_filter_timeline_counterexample :
  MemoryProcessor.processConversations env0 w0 john_convs true false = Ok john_run
  ∧ MemoryProcessor.minOccurrences (MemoryProcessor.this w0) = 2
  ∧ map_get "entitiesFound" <$> MemoryProcessor.reported john_run.1
    = [Some (VNum 1)]
  ∧ MemoryProcessor.out_entities john_run.2 = []
  ∧ DBManager.getAllEntities (MemoryProcessor.db john_run.1) = []
  ∧ TimelineEntry.entities <$> MemoryProcessor.out_timeline john_run.2
    = [[john_id]; []]
  ∧ TimelineEntry.entities <$> DBManager.getTimeline (MemoryProcessor.db john_run.1)
    = [[john_id]; []].
Proof. split_and!; by vm_compute. Qed.

Definition mary_convs : list Conversation.t :=
  [conv "c1" "John Smith and Mary Jones" 1700000000;
   conv "c2" "John Smith" 1700086400].

Definition mary_run : MemoryProcessor.World * MemoryProcessor.Output :=
  returned (MemoryProcessor.processConversations env0 w0 mary_convs true false).

(** The state that the loop over the batches leaves in this run. *)
Definition mary_loop : MemoryProcessor.World * nat :=
  match MemoryProcessor.batch_loop env0 (MemoryProcessor.prepare w0 true false)
          (MemoryProcessor.filterNewConversations
             (MemoryProcessor.prepare w0 true false) mary_convs) false with
  | Ok a => a
  | Throw _ => (w0, 0)
  end.

Lemma sparse_filter_after_run_witness :
  MemoryProcessor.processConversations env0 w0 mary_convs true false
    = Ok (mary_run.1, mary_run.2)
  ∧ (∃ c, c ∈ mary_convs ∧ conv_key c ∉ stored_ids (MemoryProcessor.db w0))
  ∧ MemoryProcessor.batch_loop env0 (MemoryProcessor.prepare w0 true false)
      (MemoryProcessor.filterNewConversations
         (MemoryProcessor.prepare w0 true false) mary_convs) false
    = Ok mary_loop
  ∧ sparse 2 (MemoryProcessor.entities (MemoryProcessor.this mary_loop.1))
    = ["person_mary jones_1700000000001_r1"]
  ∧ mary_run.1 = MemoryProcessor.finish env0 mary_loop.1 mary_convs
  ∧ (∀ e, e ∈ MemoryProcessor.out_entities mary_run.2 → 2 ≤ Entity.occurrences e)
  ∧ (∀ convId convData id,
       (convId, convData) ∈ MemoryProcessor.out_conversations mary_run.2 →
       id ∈ ConvData.entities convData →
       id ∉ sparse 2 (MemoryProcessor.entities (MemoryProcessor.this mary_loop.1)))
  ∧ MemoryProcessor.out_timeline mary_run.2
    = MemoryProcessor.buildTimeline env0 mary_loop.1.
Proof.
  assert (MemoryProcessor.processConversations env0 w0 mary_convs true false
          = Ok (mary_run.1, mary_run.2)) as Hrun by (by vm_compute).
  assert (∃ c, c ∈ mary_convs ∧ conv_key c ∉ stored_ids (MemoryProcessor.db w0))
    as Hnew.
  { exists (conv "c1" "John Smith and Mary Jones" 1700000000).
    split; [apply list_elem_of_here|apply not_elem_of_nil]. }
  assert (MemoryProcessor.batch_loop env0 (MemoryProcessor.prepare w0 true false)
            (MemoryProcessor.filterNewConversations
               (MemoryProcessor.prepare w0 true false) mary_convs) false
          = Ok mary_loop) as Hstate by (by vm_compute).
  split; [exact Hrun|]. split; [exact Hnew|]. split; [exact Hstate|].
  split; [by vm_compute|].
  destruct (sparse_filter_after_run env0 w0 mary_convs true false _ _ Hrun Hnew)
    as (wb & i & Hloop & _ & Hw' & Hout & Hocc & Hkeys & Hconvs & Hlinks & He & Hc
        & Htl & Hbt).
  rewrite Hstate in Hloop.
  assert (mary_loop = (wb, i)) as Heq by congruence.
  assert (wb = mary_loop.1) as -> by (by rewrite Heq).
  split_and!; [exact Hw'|exact Hocc|exact Hconvs|exact Hbt].
Defined.

(** What the run of the witness returns: one entity stays, the other is
    in the timeline only. *)
Example mary_run_returns :
  (λ e, (Entity.id e, Entity.occurrences e))
    <$> MemoryProcessor.out_entities mary_run.2 = [(john_id, 2)]
  ∧ TimelineEntry.entities <$> MemoryProcessor.out_timeline mary_run.2
    = [[john_id; "person_mary jones_1700000000001_r1"]; [john_id]].
Proof. split; by vm_compute. Qed.

(** ** A second run *)

(** A new processor, in resume mode, on the store the first run left. *)
Definition john_again : MemoryProcessor.World * MemoryProcessor.Output :=
  returned
    (MemoryProcessor.processConversations env0
       (MemoryProcessor.mkWorld MemoryProcessor.create
          (MemoryProcessor.db john_run.1) [] 2)
       john_convs true true).

(** The event of the second run has [alreadyProcessed], not
    [alreadyComplete]. *)
Lemma second_run_event_counterexample :
  MemoryProcessor.processConversations env0 w0 john_convs true false = Ok john_run
  ∧ MemoryProcessor.processConversations env0
      (MemoryProcessor.mkWorld MemoryProcessor.create
         (MemoryProcessor.db john_run.1) [] 2)
      john_convs true true = Ok john_again
  ∧ (λ event, (map_get "alreadyComplete" event, map_get "alreadyProcessed" event))
      <$> MemoryProcessor.reported john_again.1
    = [(None, Some (VBool true))].
Proof. split_and!; by vm_compute. Qed.

Lemma second_run_is_noop_witness :
  store_keyed (MemoryProcessor.db w0)
  ∧ MemoryProcessor.processConversations env0 w0 john_convs true false
    = Ok (john_run.1, john_run.2)
  ∧ MemoryProcessor.db john_again.1 = MemoryProcessor.db john_run.1
  ∧ MemoryProcessor.reported john_again.1
    = [MemoryProcessor.nothing_new
         (MemoryProcessor.prepare
            (MemoryProcessor.mkWorld MemoryProcessor.create
               (MemoryProcessor.db john_run.1) [] 2) true true)
         john_convs].
Proof.
  assert (MemoryProcessor.processConversations env0 w0 john_convs true false
          = Ok (john_run.1, john_run.2)) as Hrun by (by vm_compute).
  split; [exact store_keyed_empty|]. split; [exact Hrun|].
  destruct (second_run_is_noop env0 w0 john_convs true false _ _ env0
              MemoryProcessor.create [] 2 true true store_keyed_empty Hrun)
    as (Hsecond & Hdb & _ & _ & _ & _ & Hreported & _).
  unfold john_again. rewrite Hsecond. cbn [returned fst].
  split; [exact Hdb|exact Hreported].
Defined.

(** ** A call with a range *)

Definition five : list Conversation.t :=
  [conv "c0" "zero" 1700000000; conv "c1" "one" 1700000001;
   conv "c2" "two" 1700000002; conv "c3" "three" 1700000003;
   conv "c4" "four" 1700000004].

Definition range_run : MemoryProcessor.World * MemoryProcessor.Output :=
  returned
    (MemoryProcessor.processConversations_call env0 w0 five true None
       (Some (MemoryProcessor.mkRange 0 2))).

(** With the range [{start: 0, end: 2}] on five new conversations, all
    five are processed and stored, and the metadata has no record
    [processedUpToIndex]. *)
Lemma range_call_counterexample :
  MemoryProcessor.processConversations_call env0 w0 five true None
    (Some (MemoryProcessor.mkRange 0 2)) = Ok range_run
  ∧ map_keys (MemoryProcessor.out_conversations range_run.2)
    = ["c0"; "c1"; "c2"; "c3"; "c4"]
  ∧ stored_ids (MemoryProcessor.db range_run.1) = ["c0"; "c1"; "c2"; "c3"; "c4"]
  ∧ map_get "recentBatch" <$> MemoryProcessor.reported range_run.1
    = [Some (VNum 5)]
  ∧ map_to_list (DBManager.metadata (MemoryProcessor.db range_run.1))
    = [("lastProcessedTime", 1700000000000%Z);
       ("totalConversationsProcessed", 5%Z)].
Proof. split_and!; by vm_compute. Qed.

Lemma range_call_processes_all_witness :
  store_keyed (MemoryProcessor.db w0)
  ∧ MemoryProcessor.processConversations_call env0 w0 five true None
      (Some (MemoryProcessor.mkRange 0 2)) = Ok (range_run.1, range_run.2)
  ∧ (∀ c, c ∈ five → conv_key c ∈ stored_ids (MemoryProcessor.db range_run.1))
  ∧ DBManager.getMetadata (MemoryProcessor.db range_run.1) "processedUpToIndex"
    = DBManager.getMetadata (MemoryProcessor.db w0) "processedUpToIndex"
  ∧ DBManager.getMetadata (MemoryProcessor.db range_run.1)
      "totalConversationsProcessed" = Some 5%Z.
Proof.
  assert (MemoryProcessor.processConversations_call env0 w0 five true None
            (Some (MemoryProcessor.mkRange 0 2)) = Ok (range_run.1, range_run.2))
    as Hrun by (by vm_compute).
  split; [exact store_keyed_empty|]. split; [exact Hrun|].
  destruct (range_call_processes_all env0 w0 five true None
              (MemoryProcessor.mkRange 0 2) _ _ store_keyed_empty Hrun)
    as (_ & Hall & _ & Hupto & Htotal).
  split; [exact Hall|]. split; [exact Hupto|].
  apply Htotal. exists (conv "c0" "zero" 1700000000).
  split; [apply list_elem_of_here|apply not_elem_of_nil].
Defined.

(** ** Links after a raised threshold *)

Definition alice_id : string := "person_alice brown_1700000000000_r0".
Definition carol_id : string := "person_carol white_1700000000001_r1".

Definition both : Conversation.t :=
  conv "c1" "Alice Brown and Carol White" 1700000000.
Definition carol_only : Conversation.t := conv "c2" "Carol White" 1700086400.
Definition alice_only : Conversation.t := conv "c3" "Alice Brown" 1700186400.

(** A first run with [minOccurrences = 1]; then, with the threshold back at
    2, two runs in resume mode on the store of the run before. *)
Definition links_run1 : MemoryProcessor.World * MemoryProcessor.Output :=
  returned
    (MemoryProcessor.processConversations env0
       (MemoryProcessor.mkWorld (MemoryProcessor.mk 500 0 0 [] [] [] false 1)
          DBManager.empty [] 0)
       [both] false false).
Definition links_run2 : MemoryProcessor.World * MemoryProcessor.Output :=
  returned
    (MemoryProcessor.processConversations env0
       (MemoryProcessor.mkWorld MemoryProcessor.create
          (MemoryProcessor.db links_run1.1) [] (MemoryProcessor.tick links_run1.1))
       [both; carol_only] false true).
Definition links_run3 : MemoryProcessor.World * MemoryProcessor.Output :=
  returned
    (MemoryProcessor.processConversations env0
       (MemoryProcessor.mkWorld MemoryProcessor.create
          (MemoryProcessor.db links_run2.1) [] (MemoryProcessor.tick links_run2.1))
       [both; carol_only; alice_only] false true).

(** The second run removes the first entity from the map and from the
    links of the second, but not from the store; the third run loads it
    with its link, and [computeRelationships] does not link back. *)
Lemma link_symmetry_counterexample :
  MemoryProcessor.processConversations env0
    (MemoryProcessor.mkWorld (MemoryProcessor.mk 500 0 0 [] [] [] false 1)
       DBManager.empty [] 0)
    [both] false false = Ok links_run1
  ∧ MemoryProcessor.processConversations env0
      (MemoryProcessor.mkWorld MemoryProcessor.create
         (MemoryProcessor.db links_run1.1) [] (MemoryProcessor.tick links_run1.1))
      [both; carol_only] false true = Ok links_run2
  ∧ MemoryProcessor.processConversations env0
      (MemoryProcessor.mkWorld MemoryProcessor.create
         (MemoryProcessor.db links_run2.1) [] (MemoryProcessor.tick links_run2.1))
      [both; carol_only; alice_only] false true = Ok links_run3
  ∧ (λ e, (Entity.id e, Entity.links e))
      <$> DBManager.getAllEntities (MemoryProcessor.db links_run2.1)
    = [(alice_id, [carol_id]); (carol_id, [])]
  ∧ (λ kv, (kv.1, Entity.id kv.2, Entity.links kv.2))
      <$> MemoryProcessor.entities (MemoryProcessor.this links_run3.1)
    = [(alice_id, alice_id, [carol_id]); (carol_id, carol_id, [])]
  ∧ (λ e, (Entity.id e, Entity.links e))
      <$> MemoryProcessor.out_entities links_run3.2
    = [(alice_id, [carol_id]); (carol_id, [])].
Proof. split_and!; by vm_compute. Qed.

(** A run of a new processor on two conversations that mention both. *)
Definition both_again : Conversation.t :=
  conv "c4" "Alice Brown and Carol White" 1700272800.
Definition fresh_run : MemoryProcessor.World * MemoryProcessor.Output :=
  returned (MemoryProcessor.processConversations env0 w0 [both; both_again]
              false false).

Lemma link_symmetry_preserved_witness :
  unlinked (MemoryProcessor.entities (MemoryProcessor.this w0))
  ∧ MemoryProcessor.processConversations env0 w0 [both; both_again] false false
    = Ok (fresh_run.1, fresh_run.2)
  ∧ (λ e, (Entity.id e, Entity.links e)) <$> MemoryProcessor.out_entities fresh_run.2
    = [(alice_id, [carol_id]); (carol_id, [alice_id])]
  ∧ links_symmetric (MemoryProcessor.entities (MemoryProcessor.this fresh_run.1)).
Proof.
  assert (unlinked (MemoryProcessor.entities (MemoryProcessor.this w0))) as Hun
    by (by intros k e).
  assert (MemoryProcessor.processConversations env0 w0 [both; both_again]
            false false = Ok (fresh_run.1, fresh_run.2)) as Hrun
    by (by vm_compute).
  split; [exact Hun|]. split; [exact Hrun|]. split; [by vm_compute|].
  exact (proj2 (proj2 link_symmetry_preserved) env0 w0 [both; both_again] false
           _ _ Hun Hrun).
Defined.

(** ** Two spellings of a name *)







(** ** A search *)

Definition python : Entity.t :=
  Entity.mk "knowledge_python_1700000000000_r0" knowledge "Python"
    "A programming language" 1700000000 1700086400 3 ["c1"; "c2"; "c3"] []
    "python" "I learned Python".

Definition python_db : DBManager.t := DBManager.saveEntity DBManager.empty python.

(** A stand-in for [Math.log] on whole numbers. *)
Definition math0 : MathEnv.t := MathEnv.mk (λ n, inject_Z (Z.log2 (Z.of_nat n))).


(** ** A view *)




(** * Part IV: further properties of the code *)

(** ** The distance is a metric *)

Section Metric.
Context {A : Type} `{EqDecision A}.

Lemma subst_cost_sym (a b : A) : subst_cost a b = subst_cost b a.
Proof. unfold subst_cost. repeat case_decide; congruence. Qed.

Lemma subst_cost_triangle (a b c : A) :
  subst_cost a c ≤ subst_cost a b + subst_cost b c.
Proof. unfold subst_cost. repeat case_decide; try lia. congruence. Qed.

Lemma edit_sym (s t : list A) n : edit s t n → edit t s n.
Proof.
  induction 1 as [|a s t n _ IH|b s t n _ IH|a b s t n _ IH].
  - constructor.
  - by apply edit_ins.
  - by apply edit_del.
  - rewrite subst_cost_sym. by apply edit_sub.
Qed.

Lemma lev_sym (s t : list A) : lev s t = lev t s.
Proof.
  apply Nat.le_antisymm; apply lev_least, edit_sym, lev_sound.
Qed.

Lemma edit_refl (s : list A) : edit s s 0.
Proof.
  induction s as [|a s IH]; [constructor|].
  pose proof (edit_sub a a s s 0 IH) as Hsub. unfold subst_cost in Hsub.
  by rewrite decide_True in Hsub.
Qed.

Lemma edit_zero (s t : list A) : edit s t 0 → s = t.
Proof.
  intros Hedit. remember 0 as n eqn:Hn.
  induction Hedit as [|a s t n _ IH|b s t n _ IH|a b s t n _ IH]; [done..|].
  unfold subst_cost in Hn. case_decide as Hab; [|lia].
  subst b. f_equal. apply IH. lia.
Qed.

Lemma lev_zero (s t : list A) : lev s t = 0 ↔ s = t.
Proof.
  split.
  - intros Hzero. apply edit_zero. rewrite <-Hzero. apply lev_sound.
  - intros ->. apply Nat.le_0_r, lev_least, edit_refl.
Qed.

Lemma edit_lengths (s t : list A) n :
  edit s t n → length s ≤ length t + n ∧ length t ≤ length s + n.
Proof.
  induction 1 as [|a s t n _ IH|b s t n _ IH|a b s t n _ IH]; cbn [length]; lia.
Qed.

Lemma edit_within_max (s t : list A) :
  ∃ n, edit s t n ∧ n ≤ length s `max` length t.
Proof.
  revert t. induction s as [|a s IH]; intros t.
  - exists (length t). split; [apply edit_all_ins|cbn; lia].
  - destruct t as [|b t].
    + exists (length (a :: s)). split; [apply edit_all_del|cbn; lia].
    + destruct (IH t) as (n & Hedit & Hn).
      exists (n + subst_cost a b). split; [by apply edit_sub|].
      unfold subst_cost. cbn [length]. case_decide; lia.
Qed.

(** Two scripts in a row give a script that costs no more than both. *)
Lemma edit_trans (s t : list A) n :
  edit s t n → ∀ u m, edit t u m → ∃ k, edit s u k ∧ k ≤ n + m.
Proof.
  induction 1 as [|a s t n _ IH|b s t n H1 IH|a b s t n H1 IH]; intros u m H2.
  - exists m. split; [done|lia].
  - destruct (IH u m H2) as (k & Hk & Hle).
    exists (S k). split; [by apply edit_del|lia].
  - remember (b :: t) as bt eqn:Hbt. revert Hbt.
    induction H2 as [|b' t' u m H2 _|c t' u m H2 IH2|b' c t' u m H2 _];
      intros Hbt.
    + done.
    + injection Hbt as -> ->. destruct (IH u m H2) as (k & Hk & Hle).
      exists k. split; [done|lia].
    + destruct (IH2 Hbt) as (k & Hk & Hle).
      exists (S k). split; [by apply edit_ins|lia].
    + injection Hbt as -> ->. destruct (IH u m H2) as (k & Hk & Hle).
      exists (S k). split; [by apply edit_ins|lia].
  - remember (b :: t) as bt eqn:Hbt. revert Hbt.
    induction H2 as [|b' t' u m H2 _|c t' u m H2 IH2|b' c t' u m H2 _];
      intros Hbt.
    + done.
    + injection Hbt as -> ->. destruct (IH u m H2) as (k & Hk & Hle).
      exists (S k). split; [by apply edit_del|lia].
    + destruct (IH2 Hbt) as (k & Hk & Hle).
      exists (S k). split; [by apply edit_ins|lia].
    + injection Hbt as -> ->. destruct (IH u m H2) as (k & Hk & Hle).
      exists (k + subst_cost a c). split; [by apply edit_sub|].
      pose proof (subst_cost_triangle a b c). lia.
Qed.

Lemma lev_triangle (s t u : list A) : lev s u ≤ lev s t + lev t u.
Proof.
  destruct (edit_trans s t _ (lev_sound s t) u _ (lev_sound t u)) as (k & Hk & Hle).
  etrans; [by apply lev_least|done].
Qed.

Lemma lev_bounds (s t : list A) :
  length s - length t ≤ lev s t
  ∧ length t - length s ≤ lev s t
  ∧ lev s t ≤ length s `max` length t.
Proof.
  destruct (edit_lengths s t _ (lev_sound s t)) as [H1 H2].
  destruct (edit_within_max s t) as (n & Hedit & Hn).
  apply lev_least in Hedit. lia.
Qed.

End Metric.

Lemma chars_inj (s1 s2 : string) : chars s1 = chars s2 → s1 = s2.
Proof.
  intros Heq. rewrite <-(String.string_of_list_ascii_of_string s1),
    <-(String.string_of_list_ascii_of_string s2). unfold chars in Heq.
  by rewrite Heq.
Qed.

(** X1. [levenshteinDistance], in the processor and in the search engine,
    is a metric on strings: it is symmetric, it is 0 exactly on equal
    strings, it obeys the triangle inequality, and it lies between the
    difference of the two lengths and the greater length. *)
Theorem levenshteinDistance_metric (s1 s2 s3 : string) :
  let d := MemoryProcessor.levenshteinDistance in
  SearchEngine.levenshteinDistance s1 s2 = d s1 s2
  ∧ d s1 s2 = d s2 s1
  ∧ (d s1 s2 = 0 ↔ s1 = s2)
  ∧ d s1 s3 ≤ d s1 s2 + d s2 s3
  ∧ js_length s1 - js_length s2 ≤ d s1 s2
  ∧ js_length s2 - js_length s1 ≤ d s1 s2
  ∧ d s1 s2 ≤ js_length s1 `max` js_length s2.
Proof.
  cbn zeta. rewrite search_distance_lev, !processor_distance_lev.
  split; [done|]. split; [apply lev_sym|].
  split; [rewrite lev_zero; split; [apply chars_inj|by intros ->]|].
  split; [apply lev_triangle|]. apply lev_bounds.
Qed.

(** ** Fuzzy matching *)

Lemma fuzzyMatch_words (text term : string) :
  SearchEngine.fuzzyMatch text term = true
  ↔ ∃ word,
      word ∈ split_spaces text
      ∧ lev (chars word) (chars term) ≤ 2 `min` (js_length term `div` 3).
Proof.
  unfold SearchEngine.fuzzyMatch. cbn zeta.
  rewrite bool_decide_eq_true, Exists_exists.
  by setoid_rewrite search_distance_lev.
Qed.

(** X2. [fuzzyMatch(text, term)] holds exactly when a word of the text is
    within [min(2, floor(term.length / 3))] edits of the term. So a term
    that is a word of the text always matches, a term of fewer than three
    characters matches only when it is a word of the text, and a word that
    matches differs from the term by at most two edits and at most two
    characters of length. *)
Theorem fuzzyMatch_threshold (text term : string) :
  (term ∈ split_spaces text → SearchEngine.fuzzyMatch text term = true)
  ∧ (js_length term < 3 →
       (SearchEngine.fuzzyMatch text term = true ↔ term ∈ split_spaces text))
  ∧ (SearchEngine.fuzzyMatch text term = true →
       ∃ word,
         word ∈ split_spaces text
         ∧ SearchEngine.levenshteinDistance word term ≤ 2
         ∧ js_length word ≤ js_length term + 2
         ∧ js_length term ≤ js_length word + 2).
Proof.
  split_and!.
  - intros Hword. apply fuzzyMatch_words. exists term. split; [done|].
    rewrite (proj2 (lev_zero _ _) eq_refl). lia.
  - intros Hshort. rewrite fuzzyMatch_words.
    assert (js_length term `div` 3 = 0) as -> by (by apply Nat.div_small).
    split.
    + intros (word & Hword & Hdist).
      assert (word = term) as <-; [|done].
      apply chars_inj, lev_zero. lia.
    + intros Hword. exists term. split; [done|].
      rewrite (proj2 (lev_zero _ _) eq_refl). lia.
  - intros (word & Hword & Hdist)%fuzzyMatch_words. exists word.
    rewrite search_distance_lev.
    destruct (lev_bounds (chars word) (chars term)) as (H1 & H2 & _).
    unfold js_length. split; [done|]. lia.
Qed.

Lemma fuzzyMatch_threshold_witness :
  "jo" ∈ split_spaces "jo smith"
  ∧ js_length "jo" < 3
  ∧ SearchEngine.fuzzyMatch "jo smith" "jo" = true
  ∧ SearchEngine.fuzzyMatch "joe smith" "jo" = false.
Proof.
  assert ("jo" ∈ split_spaces "jo smith") as Hword
    by (apply (bool_decide_unpack _); by vm_compute).
  assert (js_length "jo" < 3) as Hshort by (vm_compute; lia).
  split; [exact Hword|]. split; [exact Hshort|].
  split; [exact (proj1 (fuzzyMatch_threshold "jo smith" "jo") Hword)|].
  destruct (SearchEngine.fuzzyMatch "joe smith" "jo") eqn:Hmatch; [|reflexivity].
  apply (proj1 (proj2 (fuzzyMatch_threshold "joe smith" "jo")) Hshort) in Hmatch.
  exfalso. revert Hmatch. apply (bool_decide_unpack _). by vm_compute.
Defined.

(** ** [trim], [toLowerCase] and the keys of names *)

(** The list does not start with white space. *)
Definition starts_clean (l : list ascii) : Prop :=
  match l with
  | c :: _ => is_space c = false
  | [] => True
  end.

Lemma drop_spaces_split (l : list ascii) :
  ∃ spaces, l = spaces ++ drop_spaces l ∧ Forall (λ c, is_space c = true) spaces.
Proof.
  induction l as [|c l (spaces & Hl & Hspaces)]; [by exists []|].
  cbn [drop_spaces]. destruct (is_space c) eqn:Hc.
  - exists (c :: spaces). split; [by rewrite Hl at 1|by constructor].
  - by exists [].
Qed.

Lemma drop_spaces_clean (l : list ascii) : starts_clean (drop_spaces l).
Proof.
  induction l as [|c l IH]; [done|]. cbn [drop_spaces].
  by destruct (is_space c) eqn:Hc.
Qed.

Lemma drop_spaces_id (l : list ascii) : starts_clean l → drop_spaces l = l.
Proof. destruct l as [|c l]; [done|]. cbn. by intros ->. Qed.

Lemma starts_clean_app (l k : list ascii) :
  l ≠ [] → starts_clean (l ++ k) → starts_clean l.
Proof. by destruct l. Qed.

(** What [trim] leaves is a piece of the string between two runs of white
    space, and has white space at neither end. *)
Lemma trim_chars_split (l : list ascii) :
  ∃ before after,
    l = before ++ trim_chars l ++ after
    ∧ Forall (λ c, is_space c = true) before
    ∧ Forall (λ c, is_space c = true) after.
Proof.
  unfold trim_chars.
  destruct (drop_spaces_split l) as (before & Hl & Hbefore).
  destruct (drop_spaces_split (reverse (drop_spaces l))) as (after & Hr & Hafter).
  exists before, (reverse after). split_and!; [|done|by apply Forall_reverse].
  rewrite Hl at 1. f_equal.
  rewrite <-(reverse_involutive (drop_spaces l)), Hr at 1.
  by rewrite reverse_app.
Qed.

Lemma trim_chars_clean (l : list ascii) :
  starts_clean (trim_chars l) ∧ starts_clean (reverse (trim_chars l)).
Proof.
  unfold trim_chars. rewrite reverse_involutive. split; [|apply drop_spaces_clean].
  destruct (drop_spaces_split (reverse (drop_spaces l))) as (after & Hr & _).
  pose proof (drop_spaces_clean l) as Hclean.
  rewrite <-(reverse_involutive (drop_spaces l)), Hr, reverse_app in Hclean.
  destruct (reverse (drop_spaces (reverse (drop_spaces l)))) as [|c k] eqn:Hk;
    [done|].
  by apply (starts_clean_app _ (reverse after)).
Qed.

Lemma trim_chars_idemp (l : list ascii) : trim_chars (trim_chars l) = trim_chars l.
Proof.
  destruct (trim_chars_clean l) as [Hhead Hlast].
  unfold trim_chars at 1.
  by rewrite (drop_spaces_id _ Hhead), (drop_spaces_id _ Hlast), reverse_involutive.
Qed.

Lemma trim_chars_length (l : list ascii) : length (trim_chars l) ≤ length l.
Proof.
  destruct (trim_chars_split l) as (before & after & Hl & _).
  rewrite Hl at 2. rewrite !length_app. lia.
Qed.

Lemma trim_chars_elem (l : list ascii) c : c ∈ trim_chars l → c ∈ l.
Proof.
  destruct (trim_chars_split l) as (before & after & Hl & _).
  intros Hc. rewrite Hl, !elem_of_app. auto.
Qed.

Lemma is_space_to_lower (c : ascii) : is_space (to_lower c) = is_space c.
Proof. by destruct c as [[] [] [] [] [] [] [] []]. Qed.

Lemma is_upper_to_lower (c : ascii) : is_upper (to_lower c) = false.
Proof. by destruct c as [[] [] [] [] [] [] [] []]. Qed.

Lemma drop_spaces_to_lower (l : list ascii) :
  drop_spaces (to_lower <$> l) = to_lower <$> drop_spaces l.
Proof.
  induction l as [|c l IH]; [done|]. rewrite fmap_cons. cbn [drop_spaces].
  rewrite is_space_to_lower. by destruct (is_space c).
Qed.

Lemma trim_chars_to_lower (l : list ascii) :
  trim_chars (to_lower <$> l) = to_lower <$> trim_chars l.
Proof.
  unfold trim_chars.
  by rewrite drop_spaces_to_lower, <-fmap_reverse, drop_spaces_to_lower,
    fmap_reverse.
Qed.

Lemma toLowerCase_trim (s : string) : toLowerCase (trim s) = trim (toLowerCase s).
Proof.
  unfold toLowerCase, trim. by rewrite !chars_str, trim_chars_to_lower.
Qed.

Lemma trim_idemp (s : string) : trim (trim s) = trim s.
Proof. unfold trim. by rewrite chars_str, trim_chars_idemp. Qed.

Lemma to_lower_key (c : ascii) :
  is_word c || is_space c = true → is_upper c = false → to_lower c = c.
Proof. by destruct c as [[] [] [] [] [] [] [] []]. Qed.

(** X3. The key [normalizeEntityName] gives to a name holds no upper-case
    letter and no character other than the letters, digits and underscore
    of [\w] and the white space of [\s], the no-break space included; it
    is not longer than the name; it is its own lower case; and white space
    around the name does not change it. *)
Theorem normalizeEntityName_key (name : string) :
  let key := MemoryProcessor.normalizeEntityName name in
  (∀ c, c ∈ chars key → is_word c || is_space c = true ∧ is_upper c = false)
  ∧ js_length key ≤ js_length name
  ∧ toLowerCase key = key
  ∧ MemoryProcessor.normalizeEntityName (trim name) = key.
Proof.
  cbn zeta. unfold MemoryProcessor.normalizeEntityName.
  assert (∀ c, c ∈ chars (trim (toLowerCase name)) → is_upper c = false) as Hlower.
  { intros c. unfold trim, toLowerCase. rewrite !chars_str.
    intros (c' & -> & _)%trim_chars_elem%list_elem_of_fmap.
    apply is_upper_to_lower. }
  split_and!.
  - intros c. rewrite chars_str. intros [Hc Hin]%list_elem_of_filter.
    split; [by apply Is_true_true|by apply Hlower].
  - unfold js_length. rewrite chars_str.
    etrans; [apply length_filter|]. unfold trim, toLowerCase.
    rewrite !chars_str. etrans; [apply trim_chars_length|].
    by rewrite length_fmap.
  - unfold toLowerCase at 1. rewrite chars_str. f_equal.
    rewrite <-(list_fmap_id (filter _ _)) at 2. apply list_fmap_ext.
    intros i c [Hclass Hc%Hlower]%list_elem_of_lookup_2%list_elem_of_filter.
    apply Is_true_true in Hclass. by apply to_lower_key.
  - by rewrite toLowerCase_trim, trim_idemp.
Qed.

(** ** Contexts and summaries *)

Lemma js_length_app (s t : string) : js_length (s +:+ t) = js_length s + js_length t.
Proof. unfold js_length. by rewrite chars_app, length_app. Qed.

Lemma substring_chars_split (from to : nat) (l : list ascii) :
  ∃ before after, l = before ++ substring_chars from to l ++ after.
Proof.
  unfold substring_chars. cbn zeta.
  exists (take (from `min` to) l),
         (drop (from `max` to - from `min` to) (drop (from `min` to) l)).
  by rewrite take_drop, take_drop.
Qed.

Lemma substring_chars_length (from to : nat) (l : list ascii) :
  length (substring_chars from to l) ≤ from `max` to - from `min` to.
Proof. unfold substring_chars. cbn zeta. rewrite length_take. lia. Qed.

Lemma summarize_length (text : string) (maxLength : nat) :
  js_length (Extractor.summarize text maxLength) ≤ maxLength + 3.
Proof.
  unfold Extractor.summarize. case_bool_decide as Hlen; [lia|].
  rewrite js_length_app. unfold js_length at 1, trim, substring.
  rewrite !chars_str.
  pose proof (trim_chars_length (substring_chars 0 maxLength (chars text))) as Htrim.
  pose proof (substring_chars_length 0 maxLength (chars text)) as Hsub.
  change (js_length "...") with 3. lia.
Qed.

(** X4. [getContext(text, position, radius)] returns a piece of the text,
    of at most [2 * radius] characters, with white space at neither end.
    [summarize(text, maxLength)] returns the text itself when it has at
    most [maxLength] characters, and otherwise the first [maxLength]
    characters of the text without the white space at their two ends,
    followed by three dots: the summary never has more than
    [maxLength + 3] characters. *)
Theorem getContext_summarize_bounds (text : string) (position radius maxLength : nat) :
  let context := Extractor.getContext text position radius in
  let summary := Extractor.summarize text maxLength in
  (∃ before after, chars text = before ++ chars context ++ after)
  ∧ js_length context ≤ 2 * radius
  ∧ starts_clean (chars context)
  ∧ starts_clean (reverse (chars context))
  ∧ (js_length text ≤ maxLength → summary = text)
  ∧ (maxLength < js_length text →
       ∃ head before after,
         summary = head +:+ "..."
         ∧ take maxLength (chars text) = before ++ chars head ++ after
         ∧ Forall (λ c, is_space c = true) before
         ∧ Forall (λ c, is_space c = true) after
         ∧ starts_clean (chars head)
         ∧ starts_clean (reverse (chars head)))
  ∧ js_length summary ≤ maxLength + 3.
Proof.
  cbn zeta. unfold Extractor.getContext, Extractor.summarize. cbn zeta.
  unfold trim, substring.
  assert (substring_chars 0 maxLength (chars text) = take maxLength (chars text))
    as Hcut.
  { unfold substring_chars. cbn zeta.
    by rewrite Nat.min_0_l, Nat.max_0_l, Nat.sub_0_r, drop_0. }
  split_and!.
  - rewrite !chars_str.
    destruct (substring_chars_split (position - radius)
                (js_length text `min` (position + radius)) (chars text))
      as (b1 & a1 & H1).
    set (piece := substring_chars (position - radius) _ _) in *.
    destruct (trim_chars_split piece) as (b2 & a2 & H2 & _).
    exists (b1 ++ b2), (a2 ++ a1).
    transitivity (b1 ++ (b2 ++ trim_chars piece ++ a2) ++ a1).
    { rewrite <-H2. exact H1. }
    by rewrite <-!app_assoc.
  - unfold js_length. rewrite !chars_str.
    etrans; [apply trim_chars_length|].
    pose proof (substring_chars_length (position - radius)
                  (length (chars text) `min` (position + radius)) (chars text)) as Hlen.
    assert (length (substring_chars (position - radius)
                      (length (chars text) `min` (position + radius)) (chars text))
            ≤ length (chars text) - (position - radius)) as Hrest.
    { unfold substring_chars. cbn zeta. rewrite length_take, length_drop. lia. }
    lia.
  - rewrite !chars_str. apply trim_chars_clean.
  - rewrite !chars_str. apply trim_chars_clean.
  - intros Hshort. by rewrite bool_decide_eq_true_2.
  - intros Hlong. rewrite bool_decide_eq_false_2 by lia.
    destruct (trim_chars_split (take maxLength (chars text)))
      as (before & after & Hsplit & Hbefore & Hafter).
    exists (str (trim_chars (take maxLength (chars text)))), before, after.
    rewrite !chars_str, Hcut, ?chars_str. split_and!; try done; apply trim_chars_clean.
  - apply summarize_length.
Qed.

(** ** What the extractor yields *)

Lemma mjoin_cons {B : Type} (l : list B) (ls : list (list B)) :
  mjoin (l :: ls) = l ++ mjoin ls.
Proof. done. Qed.

(** X5. The candidates of [extractEntities] are people, projects,
    knowledge, questions and thoughts, in this order, and never a pattern.
    A person is never one of the common words and has no description of
    its own; a project name has 4 to 49 characters; the name of a piece of
    knowledge or of a thought has at most 53 characters and the name of a
    question at most 63; a question is longer than 10 characters, is its
    own context, and comes from a message of the user: messages of other
    roles give no question. *)
Theorem extractEntities_candidates (text : string) (messages : list Message.t) :
  Extractor.extractEntities text messages
  = Extractor.extractPeople text ++ Extractor.extractProjects text
    ++ Extractor.extractKnowledge text ++ Extractor.extractQuestions text messages
    ++ Extractor.extractThoughts text
  ∧ Forall (λ x, Extracted.type x = person
                 ∧ Extractor.isCommonNonName (Extracted.name x) = false
                 ∧ Extracted.description x = "")
      (Extractor.extractPeople text)
  ∧ Forall (λ x, Extracted.type x = project
                 ∧ 3 < js_length (Extracted.name x) < 50)
      (Extractor.extractProjects text)
  ∧ Forall (λ x, Extracted.type x = knowledge
                 ∧ js_length (Extracted.name x) ≤ 53)
      (Extractor.extractKnowledge text)
  ∧ Forall (λ x, Extracted.type x = question
                 ∧ 10 < js_length (Extracted.description x)
                 ∧ js_length (Extracted.name x) ≤ 63
                 ∧ Extracted.context x = Extracted.description x)
      (Extractor.extractQuestions text messages)
  ∧ Forall (λ x, Extracted.type x = thought
                 ∧ js_length (Extracted.name x) ≤ 53)
      (Extractor.extractThoughts text)
  ∧ Extractor.extractQuestions text messages
    = Extractor.extractQuestions ""
        (filter (λ m, Message.role m = "user") messages)
  ∧ Forall (λ x, Extracted.type x ≠ pattern) (Extractor.extractEntities text messages).
Proof.
  assert (Forall (λ x, Extracted.type x = person
                 ∧ Extractor.isCommonNonName (Extracted.name x) = false
                 ∧ Extracted.description x = "")
            (Extractor.extractPeople text)) as Hpeople.
  { unfold Extractor.extractPeople. cbn zeta. apply Forall_app. split.
    - apply Forall_forall. intros x (m & _ & Hx)%list_elem_of_omap.
      destruct (negb _) eqn:Hcommon; [|done]. injection Hx as <-.
      by apply negb_true_iff in Hcommon.
    - apply Forall_forall. intros x (m & _ & Hx)%list_elem_of_omap.
      destruct (bool_decide _ && negb _) eqn:Hcommon; [|done]. injection Hx as <-.
      apply andb_true_iff in Hcommon as [_ Hcommon].
      by apply negb_true_iff in Hcommon. }
  assert (Forall (λ x, Extracted.type x = project
                 ∧ 3 < js_length (Extracted.name x) < 50)
            (Extractor.extractProjects text)) as Hprojects.
  { unfold Extractor.extractProjects. apply Forall_join, Forall_fmap, Forall_forall.
    intros p _. apply Forall_forall. intros x (m & _ & Hx)%list_elem_of_omap.
    cbn zeta in Hx. destruct (bool_decide _ && bool_decide _) eqn:Hlen; [|done].
    injection Hx as <-. apply andb_true_iff in Hlen as [H1 H2].
    apply bool_decide_eq_true in H1, H2. by cbn. }
  assert (Forall (λ x, Extracted.type x = knowledge
                 ∧ js_length (Extracted.name x) ≤ 53)
            (Extractor.extractKnowledge text)) as Hknowledge.
  { unfold Extractor.extractKnowledge. apply Forall_join, Forall_fmap, Forall_forall.
    intros p _. apply Forall_fmap, Forall_forall. intros m _. cbn.
    split; [done|]. apply (summarize_length _ 50). }
  assert (Forall (λ x, Extracted.type x = question
                 ∧ 10 < js_length (Extracted.description x)
                 ∧ js_length (Extracted.name x) ≤ 63
                 ∧ Extracted.context x = Extracted.description x)
            (Extractor.extractQuestions text messages)) as Hquestions.
  { unfold Extractor.extractQuestions. apply Forall_join, Forall_fmap, Forall_forall.
    intros message _. cbn. case_decide; [|constructor].
    apply Forall_forall. intros x (m & _ & Hx)%list_elem_of_omap.
    cbn zeta in Hx. case_bool_decide as Hlen; [|done]. injection Hx as <-. cbn.
    split_and!; [done|done| |done]. apply (summarize_length _ 60). }
  assert (Forall (λ x, Extracted.type x = thought
                 ∧ js_length (Extracted.name x) ≤ 53)
            (Extractor.extractThoughts text)) as Hthoughts.
  { unfold Extractor.extractThoughts. apply Forall_join, Forall_fmap, Forall_forall.
    intros p _. apply Forall_fmap, Forall_forall. intros m _. cbn.
    split; [done|]. apply (summarize_length _ 50). }
  split_and!; try done.
  - clear. unfold Extractor.extractQuestions.
    induction messages as [|message messages IH]; [done|].
    rewrite fmap_cons, filter_cons, mjoin_cons, IH.
    destruct (decide (Message.role message = "user")) as [Hrole|Hrole]; [|done].
    rewrite fmap_cons, mjoin_cons, decide_True by done. done.
  - unfold Extractor.extractEntities. rewrite !Forall_app. split_and!.
    + eapply Forall_impl; [exact Hpeople|]. by intros x (-> & _).
    + eapply Forall_impl; [exact Hprojects|]. by intros x (-> & _).
    + eapply Forall_impl; [exact Hknowledge|]. by intros x (-> & _).
    + eapply Forall_impl; [exact Hquestions|]. by intros x (-> & _).
    + eapply Forall_impl; [exact Hthoughts|]. by intros x (-> & _).
Qed.

(** ** What processing a conversation records *)

Lemma getOrCreateEntity_other env tick m x convId timestamp id :
  id ≠ (MemoryProcessor.getOrCreateEntity env tick m x convId timestamp).1.1 →
  map_get id (MemoryProcessor.getOrCreateEntity env tick m x convId timestamp).1.2
  = map_get id m.
Proof.
  unfold MemoryProcessor.getOrCreateEntity.
  destruct (MemoryProcessor.findExistingEntity _ _ _) as [id0|];
    [destruct (decide (id0 ≠ "")); [done|]|]; cbn [fst snd];
    intros Hne; by rewrite map_get_set_ne.
Qed.

(** The conversation is among those of the entity, which has been seen at
    least once, and not before the conversation. *)
Definition touched (convId : string) (timestamp : Z) (entity : Entity.t) : Prop :=
  convId ∈ Entity.conversations entity
  ∧ 1 ≤ Entity.occurrences entity
  ∧ (timestamp ≤ Entity.lastSeen entity)%Z.

Lemma touch_touched entity convId timestamp :
  touched convId timestamp (MemoryProcessor.touch entity convId timestamp).
Proof.
  unfold touched, MemoryProcessor.touch, array_includes. cbn. split_and!; [|lia..].
  case_bool_decide; [done|]. apply elem_of_app. right. apply list_elem_of_here.
Qed.

(** The ids resolved so far name touched entities. *)
Definition resolved (convId : string) (timestamp : Z)
    (s : list (string * Entity.t) * nat * list string) : Prop :=
  ∀ id, id ∈ s.2 → ∃ e, map_get id s.1.1 = Some e ∧ touched convId timestamp e.

Lemma resolve_resolved env convId timestamp s x s' :
  resolved convId timestamp s →
  MemoryProcessor.resolve env convId timestamp s x = Ok s' →
  resolved convId timestamp s' ∧ length s'.2 = S (length s.2).
Proof.
  destruct s as [[m tick] convEntities]. intros Hres.
  unfold MemoryProcessor.resolve.
  pose proof (getOrCreateEntity_other env tick m x convId timestamp) as Hother.
  destruct (MemoryProcessor.getOrCreateEntity _ _ _ _ _ _) as [[entityId m1] tick1].
  cbn [fst snd] in Hother.
  destruct (map_get entityId m1) as [entity|] eqn:Hget; [|done].
  intros [= <-]. cbn [fst snd]. split; [|rewrite length_app; cbn; lia].
  unfold resolved in *. cbn [fst snd] in *. intros id Hid. rewrite map_get_set.
  destruct (decide (entityId = id)) as [->|Hne].
  - eexists. split; [done|]. apply touch_touched.
  - apply elem_of_app in Hid as [Hid|Heq%list_elem_of_singleton]; [|done].
    rewrite Hother by done. by apply Hres.
Qed.

Lemma for_each_resolve_resolved env convId timestamp extracted s s' :
  resolved convId timestamp s →
  for_each (MemoryProcessor.resolve env convId timestamp) s extracted = Ok s' →
  resolved convId timestamp s' ∧ length s'.2 = length s.2 + length extracted.
Proof.
  revert s. induction extracted as [|x extracted IH]; intros s Hres; cbn [for_each].
  - intros [= <-]. split; [done|cbn; lia].
  - destruct (MemoryProcessor.resolve env convId timestamp s x) as [s1|e] eqn:Hstep;
      cbn [mbind result_bind]; [|done].
    intros Hrest.
    destruct (resolve_resolved _ _ _ _ _ _ Hres Hstep) as [Hres1 Hlen1].
    destruct (IH s1 Hres1 Hrest) as [Hres' Hlen'].
    split; [done|]. cbn [length]. lia.
Qed.

(** The entry of a date after [updateTimeline], and the other entries. *)
Lemma updateTimeline_get timeline date entityIds convId :
  ∃ entry,
    map_get date (MemoryProcessor.updateTimeline timeline date entityIds convId)
      = Some entry
    ∧ (∀ id, id ∈ entityIds → id ∈ TimelineEntry.entities entry)
    ∧ TimelineEntry.conversations entry
      = match map_get date timeline with
        | Some old => TimelineEntry.conversations old
        | None => []
        end ++ [convId]
    ∧ (∀ old id, map_get date timeline = Some old →
         id ∈ TimelineEntry.entities old → id ∈ TimelineEntry.entities entry).
Proof.
  assert (∀ ids0 id, id ∈ ids0 ∨ id ∈ entityIds →
            id ∈ foldl (λ s id, set_add id s) ids0 entityIds) as Hadd.
  { intros ids0 id Hid. apply (foldl_set_add_elem (λ b, b)).
    by rewrite list_fmap_id. }
  unfold MemoryProcessor.updateTimeline. cbn zeta. unfold map_has.
  case_bool_decide as Hhas.
  - destruct Hhas as [old Hold]. rewrite Hold.
    eexists. rewrite map_get_set_eq. split; [done|]. cbn. split_and!.
    + intros id Hid. apply Hadd. by right.
    + done.
    + intros old' id [= <-] Hid. apply Hadd. by left.
  - rewrite map_get_set_eq. eexists. rewrite map_get_set_eq. split; [done|]. cbn.
    apply eq_None_not_Some in Hhas. rewrite Hhas. split_and!.
    + intros id Hid. apply Hadd. by right.
    + done.
    + done.
Qed.

Lemma updateTimeline_other timeline date entityIds convId date' :
  date' ≠ date →
  map_get date' (MemoryProcessor.updateTimeline timeline date entityIds convId)
  = map_get date' timeline.
Proof.
  intros Hne. unfold MemoryProcessor.updateTimeline. cbn zeta.
  destruct (map_has date timeline).
  - destruct (map_get date timeline); [|done]. by rewrite map_get_set_ne.
  - rewrite map_get_set_eq. by rewrite !map_get_set_ne.
Qed.

(** X6. When [processConversation] returns, the summary of the
    conversation is in the map under its id, with the date of its
    timestamp and one entity id for each candidate of the extractor; every
    id of the summary is the key of an entity that lists the conversation,
    has at least one occurrence and was last seen no earlier than the
    conversation; the timeline entry of the date ends with the
    conversation and holds every id of the summary; the entries of other
    dates and the store are as they were. *)
Theorem processConversation_records env w c w' :
  MemoryProcessor.processConversation env w c = Ok w' →
  ∃ convData entry,
    map_get (conv_key c)
      (MemoryProcessor.conversationEntities (MemoryProcessor.this w'))
      = Some convData
    ∧ ConvData.id convData = conv_key c
    ∧ iso_date (ConvData.timestamp convData) = Ok (ConvData.date convData)
    ∧ length (ConvData.entities convData)
      = length (Extractor.extractEntities
                  (join (newline +:+ newline)
                     (Message.content <$> Extractor.extractMessages c))
                  (Extractor.extractMessages c))
    ∧ (∀ id, id ∈ ConvData.entities convData →
         ∃ e, map_get id (MemoryProcessor.entities (MemoryProcessor.this w'))
                = Some e
              ∧ conv_key c ∈ Entity.conversations e
              ∧ 1 ≤ Entity.occurrences e
              ∧ (ConvData.timestamp convData ≤ Entity.lastSeen e)%Z)
    ∧ map_get (ConvData.date convData)
        (MemoryProcessor.timeline (MemoryProcessor.this w')) = Some entry
    ∧ (∃ before, TimelineEntry.conversations entry = before ++ [conv_key c])
    ∧ (∀ id, id ∈ ConvData.entities convData → id ∈ TimelineEntry.entities entry)
    ∧ (∀ date, date ≠ ConvData.date convData →
         map_get date (MemoryProcessor.timeline (MemoryProcessor.this w'))
         = map_get date (MemoryProcessor.timeline (MemoryProcessor.this w)))
    ∧ MemoryProcessor.db w' = MemoryProcessor.db w.
Proof.
  unfold MemoryProcessor.processConversation, conv_key.
  set (convId := or_str _ _).
  destruct (if decide (_ = 0%Z) then _ else _) as [timestamp tick0].
  destruct (iso_date timestamp) as [date|e] eqn:Hdate; cbn [mbind result_bind];
    [|done].
  destruct (for_each _ _ _) as [[[m tick1] convEntities]|e] eqn:Hloop;
    cbn [mbind result_bind]; [|done].
  intros [= <-].
  apply for_each_resolve_resolved in Hloop as [Hres Hlen];
    [|by intros id ?%elem_of_nil].
  destruct (updateTimeline_get
              (MemoryProcessor.timeline (MemoryProcessor.this w)) date
              convEntities convId) as (entry & Hentry & Hids & Hconvs & _).
  eexists _, entry. cbn.
  rewrite map_get_set_eq. split; [done|]. cbn. split_and!; try done.
  - eexists. exact Hconvs.
  - intros date' Hne. by apply updateTimeline_other.
Qed.

(** A conversation that names two people. *)
Definition met : Conversation.t :=
  conv "c1" "John Smith and Mary Jones" 1700000000.

Definition met_world : MemoryProcessor.World :=
  match MemoryProcessor.processConversation env0 w0 met with
  | Ok w' => w'
  | Throw _ => w0
  end.

Lemma processConversation_records_witness :
  MemoryProcessor.processConversation env0 w0 met = Ok met_world
  ∧ ∃ convData,
      map_get "c1"
        (MemoryProcessor.conversationEntities (MemoryProcessor.this met_world))
        = Some convData
      ∧ ConvData.date convData = "2023-11-14"
      ∧ length (ConvData.entities convData) = 2.
Proof.
  assert (MemoryProcessor.processConversation env0 w0 met = Ok met_world) as Hrun
    by (by vm_compute).
  split; [exact Hrun|].
  destruct (processConversation_records env0 w0 met met_world Hrun)
    as (convData & entry & Hget & _ & Hdate & Hlen & _).
  exists convData. split; [exact Hget|]. split.
  - assert (ConvData.timestamp convData = 1700000000%Z) as Hts.
    { revert Hget. vm_compute. by intros [= <-]. }
    rewrite Hts in Hdate. vm_compute in Hdate. injection Hdate as Hdate.
    symmetry. exact Hdate.
  - rewrite Hlen. by vm_compute.
Defined.

(** ** The results of a search *)

Lemma getAllEntities_from env tick db s :
  let allEntities := (SearchEngine.getAllEntities env tick db s).1.1 in
  allEntities = DBManager.getAllEntities db
  ∨ ∃ lastUpdated, SearchEngine.cache s = Some (allEntities, lastUpdated).
Proof.
  unfold SearchEngine.getAllEntities.
  destruct (SearchEngine.cache s) as [[cached lastUpdated]|]; cbn; [|by left].
  repeat case_decide; cbn; eauto.
Qed.

Lemma take_elem {B : Type} (n : nat) (l : list B) (x : B) : x ∈ take n l → x ∈ l.
Proof. intros (i & Hi & _)%elem_of_take. by eapply list_elem_of_lookup_2. Qed.

Lemma searchIndexQuery_source db query e :
  e ∈ DBManager.searchIndexQuery db query →
  ∃ id, DBManager.entities db !! id = Some e.
Proof.
  unfold DBManager.searchIndexQuery. intros (id & _ & He)%list_elem_of_omap.
  by exists id.
Qed.

Lemma fuzzySearch_elem entities query h :
  h ∈ SearchEngine.fuzzySearch entities query → SearchEngine.entity h ∈ entities.
Proof.
  unfold SearchEngine.fuzzySearch. intros (e & He & Hh)%list_elem_of_omap.
  destruct (foldl _ _ _) as [score matches]. case_bool_decide; [|done].
  by injection Hh as <-.
Qed.

Lemma scoreResults_from math env tick results query h' :
  h' ∈ (SearchEngine.scoreResults math env tick results query).1 →
  ∃ h, h ∈ results ∧ SearchEngine.entity h' = SearchEngine.entity h.
Proof.
  unfold SearchEngine.scoreResults. cbn [fst]. rewrite js_sort_Permutation.
  intros (i & h & -> & Hh)%elem_of_lookup_imap_1. exists h. split; [|done].
  by eapply list_elem_of_lookup_2.
Qed.

Lemma scoreResults_sorted math env tick results query :
  StronglySorted SearchEngine.by_score
    (SearchEngine.scoreResults math env tick results query).1.
Proof. apply js_sort_StronglySorted; apply _. Qed.

(** The results before the score, for a query that is not blank. *)
Definition found (env : Env.t) (tick : nat) (db : DBManager.t)
    (s : SearchEngine.t) (searchTerm : string) (options : SearchEngine.Options)
  : list SearchEngine.Hit * SearchEngine.t * nat :=
  let results :=
    (λ e, SearchEngine.mkHit e 0%Q) <$> DBManager.searchIndexQuery db searchTerm in
  let '(results, s, tick) :=
    if bool_decide (length results = 0) || SearchEngine.fuzzy options then
      let '(allEntities, s, tick) := SearchEngine.getAllEntities env tick db s in
      (results
       ++ filter (λ r, Entity.id (SearchEngine.entity r)
                       ∉ foldl (λ ids r, set_add (Entity.id (SearchEngine.entity r)) ids)
                           [] results)
            (SearchEngine.fuzzySearch allEntities searchTerm),
       s, tick)
    else (results, s, tick) in
  let results :=
    if bool_decide (0 < length (SearchEngine.types options)) then
      filter (λ r, Entity.type (SearchEngine.entity r) ∈ SearchEngine.types options)
        results
    else results in
  let results :=
    match SearchEngine.dateRange options with
    | Some (startTime, endTime) =>
        filter (λ r,
          (startTime ≤ Entity.firstSeen (SearchEngine.entity r))%Z
          ∧ (Entity.lastSeen (SearchEngine.entity r) ≤ endTime)%Z) results
    | None => results
    end in
  (results, s, tick).

Lemma search_found math env tick db s query options :
  js_length (trim query) ≠ 0 →
  let searchTerm := trim (toLowerCase query) in
  let '(results, s', tick') := found env tick db s searchTerm options in
  SearchEngine.search math env tick db s query options
  = (take (SearchEngine.maxResults options)
       (SearchEngine.scoreResults math env tick' results searchTerm).1,
     s', tick' + length results).
Proof.
  intros Hquery. unfold SearchEngine.search, found.
  assert (bool_decide (query = "") || bool_decide (js_length (trim query) = 0)
          = false) as ->.
  { apply orb_false_intro; apply bool_decide_eq_false; [by intros ->|done]. }
  cbn zeta.
  destruct (bool_decide (length _ = 0) || SearchEngine.fuzzy options).
  - destruct (SearchEngine.getAllEntities env tick db s) as [[allEntities s1] tick1].
    by rewrite merge_results.
  - done.
Qed.

Lemma found_elem env tick db s searchTerm options r :
  r ∈ (found env tick db s searchTerm options).1.1 →
  (SearchEngine.types options ≠ [] →
     Entity.type (SearchEngine.entity r) ∈ SearchEngine.types options)
  ∧ (∀ startTime endTime,
       SearchEngine.dateRange options = Some (startTime, endTime) →
       (startTime ≤ Entity.firstSeen (SearchEngine.entity r))%Z
       ∧ (Entity.lastSeen (SearchEngine.entity r) ≤ endTime)%Z)
  ∧ (SearchEngine.entity r ∈ DBManager.searchIndexQuery db searchTerm
     ∨ (SearchEngine.entity r ∈ (SearchEngine.getAllEntities env tick db s).1.1
        ∧ (SearchEngine.fuzzy options = true
           ∨ DBManager.searchIndexQuery db searchTerm = []))).
Proof.
  unfold found.
  set (indexed := (λ e, SearchEngine.mkHit e 0%Q) <$> _).
  set (merged := if _ || _ then _ else _).
  assert (∀ r, r ∈ merged.1.1 →
            SearchEngine.entity r ∈ DBManager.searchIndexQuery db searchTerm
            ∨ (SearchEngine.entity r
                 ∈ (SearchEngine.getAllEntities env tick db s).1.1
               ∧ (SearchEngine.fuzzy options = true
                  ∨ DBManager.searchIndexQuery db searchTerm = []))) as Hmerged.
  { assert (∀ r, r ∈ indexed →
              SearchEngine.entity r ∈ DBManager.searchIndexQuery db searchTerm)
      as Hindexed.
    { intros r0 (e & -> & He)%list_elem_of_fmap. done. }
    subst merged.
    destruct (bool_decide (length indexed = 0) || SearchEngine.fuzzy options)
      eqn:Hscan.
    - destruct (SearchEngine.getAllEntities env tick db s)
        as [[allEntities s1] tick1]. cbn [fst].
      intros r0 [Hr0|Hr0]%elem_of_app; [left; by apply Hindexed|].
      apply list_elem_of_filter in Hr0 as [_ Hr0%fuzzySearch_elem].
      right. split; [done|].
      apply orb_true_iff in Hscan as [Hnone%bool_decide_eq_true|Hfuzzy];
        [right|by left].
      subst indexed. rewrite length_fmap in Hnone. by apply nil_length_inv.
    - cbn [fst]. intros r0 Hr0. left. by apply Hindexed. }
  destruct merged as [[results s1] tick1]. cbn [fst] in *.
  intros Hr.
  assert (r ∈ (if bool_decide (0 < length (SearchEngine.types options)) then
                 filter (λ r, Entity.type (SearchEngine.entity r)
                              ∈ SearchEngine.types options) results
               else results)) as Htyped.
  { destruct (SearchEngine.dateRange options) as [[startTime endTime]|];
      [|done]. by apply list_elem_of_filter in Hr as [_ Hr]. }
  split_and!.
  - intros Htypes. rewrite bool_decide_eq_true_2 in Htyped.
    + by apply list_elem_of_filter in Htyped as [? _].
    + destruct (SearchEngine.types options); [done|cbn; lia].
  - intros startTime endTime Hrange. rewrite Hrange in Hr.
    by apply list_elem_of_filter in Hr as [? _].
  - apply Hmerged. case_bool_decide; [|done].
    by apply list_elem_of_filter in Htyped as [_ ?].
Qed.

(** X7. For a query that is not blank, [search] returns at most
    [maxResults] results in the order of their scores, the highest first;
    every result has one of the types of the filter, when there is one,
    and lies in the date range, when there is one; every result is an
    entity of the store or of the cache. When the fuzzy scan is off and
    the index finds something, every result is an entity of the index and
    the cache is left as it was. *)
Theorem search_results math env tick db s query options :
  js_length (trim query) ≠ 0 →
  let results := (SearchEngine.search math env tick db s query options).1.1 in
  length results ≤ SearchEngine.maxResults options
  ∧ StronglySorted SearchEngine.by_score results
  ∧ (∀ r, r ∈ results →
       (SearchEngine.types options ≠ [] →
          Entity.type (SearchEngine.entity r) ∈ SearchEngine.types options)
       ∧ (∀ startTime endTime,
            SearchEngine.dateRange options = Some (startTime, endTime) →
            (startTime ≤ Entity.firstSeen (SearchEngine.entity r))%Z
            ∧ (Entity.lastSeen (SearchEngine.entity r) ≤ endTime)%Z)
       ∧ (SearchEngine.entity r ∈ DBManager.getAllEntities db
          ∨ ∃ cached lastUpdated,
              SearchEngine.cache s = Some (cached, lastUpdated)
              ∧ SearchEngine.entity r ∈ cached))
  ∧ (SearchEngine.fuzzy options = false →
     DBManager.searchIndexQuery db (trim (toLowerCase query)) ≠ [] →
     (SearchEngine.search math env tick db s query options).1.2 = s
     ∧ ∀ r, r ∈ results →
         SearchEngine.entity r
           ∈ DBManager.searchIndexQuery db (trim (toLowerCase query))).
Proof.
  intros Hquery results.
  pose proof (search_found math env tick db s query options Hquery) as Hsearch.
  cbn zeta in Hsearch.
  pose proof (found_elem env tick db s (trim (toLowerCase query)) options)
    as Hfound.
  assert (SearchEngine.fuzzy options = false →
          DBManager.searchIndexQuery db (trim (toLowerCase query)) ≠ [] →
          (found env tick db s (trim (toLowerCase query)) options).1.2 = s)
    as Hcache.
  { intros Hfuzzy Hsome. unfold found. rewrite Hfuzzy, orb_false_r.
    rewrite bool_decide_eq_false_2; [done|].
    rewrite length_fmap. intros Hnone%nil_length_inv. exact (Hsome Hnone). }
  destruct (found env tick db s (trim (toLowerCase query)) options)
    as [[before s'] tick'].
  subst results. rewrite Hsearch. cbn [fst snd] in *.
  assert (∀ r, r ∈ take (SearchEngine.maxResults options)
                     (SearchEngine.scoreResults math env tick' before
                        (trim (toLowerCase query))).1 →
            ∃ h, h ∈ before ∧ SearchEngine.entity r = SearchEngine.entity h)
    as Hfrom.
  { intros r Hr. apply scoreResults_from with math env tick' (trim (toLowerCase query)).
    by eapply take_elem. }
  split_and!.
  - rewrite length_take. lia.
  - apply StronglySorted_take, scoreResults_sorted.
  - intros r (h & Hh & ->)%Hfrom.
    destruct (Hfound h Hh) as (Htypes & Hrange & Hsource).
    split; [done|]. split; [done|].
    destruct Hsource as [Hindex|[Hscan _]].
    + left. apply getAll_elem.
      destruct (searchIndexQuery_source db (trim (toLowerCase query)) _ Hindex)
        as [id Hid]. by exists id.
    + destruct (getAllEntities_from env tick db s) as [Heq|[lastUpdated Hcached]].
      * left. by rewrite <-Heq.
      * right. by eexists _, _.
  - intros Hfuzzy Hsome. split; [by apply Hcache|].
    intros r (h & Hh & ->)%Hfrom.
    destruct (Hfound h Hh) as (_ & _ & [Hindex|[_ [Hon|Hnone]]]);
      [done|congruence|done].
Qed.

Lemma search_results_witness :
  js_length (trim "python") ≠ 0
  ∧ length (SearchEngine.search math0 env0 0 python_db SearchEngine.create
              "python" SearchEngine.defaults).1.1 ≤ 50.
Proof.
  assert (js_length (trim "python") ≠ 0) as Hquery by (by vm_compute).
  split; [exact Hquery|].
  exact (proj1 (search_results math0 env0 0 python_db SearchEngine.create
                  "python" SearchEngine.defaults Hquery)).
Defined.

Lemma getAllEntities_cached env tick db s :
  ∃ lastUpdated,
    SearchEngine.cache (SearchEngine.getAllEntities env tick db s).1.2
    = Some ((SearchEngine.getAllEntities env tick db s).1.1, lastUpdated).
Proof.
  unfold SearchEngine.getAllEntities.
  destruct (SearchEngine.cache s) as [[cached lastUpdated]|] eqn:Hcache; cbn;
    [|by eexists].
  repeat case_decide; cbn; by eexists.
Qed.

Lemma search_blank math env tick db s query :
  js_length (trim query) = 0 →
  ∀ options,
    SearchEngine.search math env tick db s query options
    = SearchEngine.getRecentEntities env tick db s (SearchEngine.maxResults options).
Proof.
  intros Hblank options. unfold SearchEngine.search.
  rewrite (bool_decide_eq_true_2 (js_length (trim query) = 0)) by done.
  by rewrite orb_true_r.
Qed.

(** X8. For a blank query [search] ignores the type filter, the date
    range and the fuzzy flag. It returns, with the score 0, the first
    [maxResults] of all entities put in the order of [lastSeen], the
    latest first; the cache holds all entities in this order afterwards,
    and as long as it is fresh [getAllEntities] returns them in this
    order, whatever the store holds by then. *)
Theorem search_blank_query math env tick db s query options :
  js_length (trim query) = 0 →
  (∀ options',
     SearchEngine.maxResults options' = SearchEngine.maxResults options →
     SearchEngine.search math env tick db s query options'
     = SearchEngine.search math env tick db s query options)
  ∧ ∃ sorted lastUpdated,
      let '(results, s', tick') :=
        SearchEngine.search math env tick db s query options in
      results
      = (λ e, SearchEngine.mkHit e 0%Q)
        <$> take (SearchEngine.maxResults options) sorted
      ∧ sorted ≡ₚ (SearchEngine.getAllEntities env tick db s).1.1
      ∧ StronglySorted SearchEngine.by_lastSeen sorted
      ∧ SearchEngine.cache s' = Some (sorted, lastUpdated)
      ∧ ∀ env' later db',
          lastUpdated ≠ 0%Z →
          (Env.now env' later - lastUpdated < 5 * 60 * 1000)%Z →
          (SearchEngine.getAllEntities env' later db' s').1.1 = sorted.
Proof.
  intros Hblank.
  pose proof (search_blank math env tick db s query Hblank) as Hsearch.
  split.
  { intros options' Hmax. by rewrite !Hsearch, Hmax. }
  rewrite Hsearch. unfold SearchEngine.getRecentEntities.
  destruct (getAllEntities_cached env tick db s) as [lastUpdated Hcached].
  destruct (SearchEngine.getAllEntities env tick db s) as [[allEntities s1] tick1].
  cbn [fst snd] in *. rewrite Hcached.
  exists (js_sort SearchEngine.by_lastSeen allEntities), lastUpdated.
  split_and!; [done| |apply js_sort_StronglySorted; apply _|done|].
  - apply js_sort_Permutation.
  - intros env' later db' Hset Hfresh. unfold SearchEngine.getAllEntities. cbn.
    by rewrite decide_True, decide_True.
Qed.

Lemma search_blank_query_witness :
  js_length (trim "  ") = 0
  ∧ SearchEngine.search math0 env0 0 python_db SearchEngine.create "  "
      (SearchEngine.mkOptions [person] (Some (0, 1)%Z) 50 false)
    = SearchEngine.search math0 env0 0 python_db SearchEngine.create "  "
        SearchEngine.defaults.
Proof.
  assert (js_length (trim "  ") = 0) as Hblank by (by vm_compute).
  split; [exact Hblank|].
  exact (proj1 (search_blank_query math0 env0 0 python_db SearchEngine.create
                  "  " SearchEngine.defaults Hblank)
           (SearchEngine.mkOptions [person] (Some (0, 1)%Z) 50 false) eq_refl).
Defined.

(** ** Popular entities and suggestions *)

(** What stays behind the first [n] elements of a sorted array. *)
Lemma take_sorted_rest {B : Type} (R : relation B) (n : nat) (l : list B) (x : B) :
  StronglySorted R l → x ∈ l → x ∉ take n l →
  length (take n l) = n ∧ ∀ c, c ∈ take n l → R c x.
Proof.
  intros Hsorted Hx Hout. rewrite <-(take_drop n l) in Hx, Hsorted.
  apply elem_of_app in Hx as [Hx|Hx]; [done|]. split.
  - rewrite length_take. apply Nat.min_l.
    destruct (decide (n ≤ length l)) as [|Hlong]; [done|].
    rewrite drop_ge in Hx by lia. by apply elem_of_nil in Hx.
  - intros c Hc. by eapply StronglySorted_app_1_elem_of.
Qed.

(** X9. [getSuggestions] returns nothing for a text of fewer than two
    characters, without reading the entities. Otherwise it returns at
    most [maxSuggestions] suggestions, each with the name, type and id of
    an entity whose name in lower case starts with the text in lower
    case, the entities with more occurrences first and those with equally
    many in the order of the entity array; an entity that matches and is
    left out has no more occurrences than any that is suggested. The
    order of the cached entities is not changed. *)
Theorem getSuggestions_spec env tick db s partialQuery maxSuggestions :
  let allEntities := (SearchEngine.getAllEntities env tick db s).1.1 in
  let matching (e : Entity.t) : Prop :=
    startsWith (toLowerCase (Entity.name e)) (toLowerCase partialQuery) in
  let '(suggestions, s', tick') :=
    SearchEngine.getSuggestions env tick db s partialQuery maxSuggestions in
  (js_length partialQuery < 2 → suggestions = [] ∧ s' = s ∧ tick' = tick)
  ∧ (2 ≤ js_length partialQuery →
     s' = (SearchEngine.getAllEntities env tick db s).1.2
     ∧ ∃ sorted,
         suggestions
         = (λ e, SearchEngine.mkSuggestion (Entity.name e) (Entity.type e)
                   (Entity.id e)) <$> take maxSuggestions sorted
         ∧ sorted ≡ₚ filter matching allEntities
         ∧ StronglySorted SearchEngine.by_occurrences sorted
         ∧ (∀ n, filter (λ e, Entity.occurrences e = n) sorted
                 = filter (λ e, Entity.occurrences e = n)
                     (filter matching allEntities))
         ∧ (∀ e, e ∈ allEntities → matching e → e ∉ take maxSuggestions sorted →
              length suggestions = maxSuggestions
              ∧ ∀ c, c ∈ take maxSuggestions sorted →
                  Entity.occurrences e ≤ Entity.occurrences c)).
Proof.
  intros allEntities matching. unfold SearchEngine.getSuggestions.
  destruct (bool_decide (partialQuery = "")
            || bool_decide (js_length partialQuery < 2)) eqn:Hshort.
  - split; [done|]. intros Hlong.
    apply orb_true_iff in Hshort as [->%bool_decide_eq_true|Hlt%bool_decide_eq_true];
      [cbn in Hlong|]; lia.
  - apply orb_false_iff in Hshort as [_ Hlong%bool_decide_eq_false].
    subst allEntities. cbn zeta.
    destruct (SearchEngine.getAllEntities env tick db s) as [[allEntities s1] tick1].
    cbn [fst snd]. split; [lia|]. intros _. split; [done|].
    set (sorted := js_sort SearchEngine.by_occurrences _).
    exists sorted. split; [done|].
    assert (StronglySorted SearchEngine.by_occurrences sorted) as Hsorted
      by (apply js_sort_StronglySorted; apply _).
    split_and!; [apply js_sort_Permutation|done| |].
    + intros n. apply js_sort_filter. unfold SearchEngine.by_occurrences. lia.
    + intros e He Hmatch Hout.
      destruct (take_sorted_rest SearchEngine.by_occurrences maxSuggestions sorted e)
        as [Hlen Htop]; [done| |done|].
      * apply js_sort_elem, list_elem_of_filter. done.
      * by rewrite length_fmap.
Qed.

(** X10. [getPopularEntities] returns the first [maxResults] of all
    entities sorted by their occurrences, the highest first and entities
    with equally many in the order they had; an entity left out has no
    more occurrences than any that is returned. The sort is done on the
    array of the cache, which holds the entities in the new order
    afterwards. *)
Theorem getPopularEntities_spec env tick db s maxResults :
  let allEntities := (SearchEngine.getAllEntities env tick db s).1.1 in
  let '(results, s', tick') :=
    SearchEngine.getPopularEntities env tick db s maxResults in
  ∃ sorted lastUpdated,
    results = take maxResults sorted
    ∧ sorted ≡ₚ allEntities
    ∧ StronglySorted SearchEngine.by_occurrences sorted
    ∧ (∀ n, filter (λ e, Entity.occurrences e = n) sorted
            = filter (λ e, Entity.occurrences e = n) allEntities)
    ∧ (∀ e, e ∈ allEntities → e ∉ results →
         length results = maxResults
         ∧ ∀ c, c ∈ results → Entity.occurrences e ≤ Entity.occurrences c)
    ∧ SearchEngine.cache s' = Some (sorted, lastUpdated)
    ∧ tick' = (SearchEngine.getAllEntities env tick db s).2.
Proof.
  intros allEntities. unfold SearchEngine.getPopularEntities. subst allEntities.
  destruct (getAllEntities_cached env tick db s) as [lastUpdated Hcached].
  destruct (SearchEngine.getAllEntities env tick db s) as [[allEntities s1] tick1].
  cbn [fst snd] in *.
  set (sorted := js_sort SearchEngine.by_occurrences allEntities).
  assert (StronglySorted SearchEngine.by_occurrences sorted) as Hsorted
    by (apply js_sort_StronglySorted; apply _).
  exists sorted, lastUpdated.
  split_and!; [done|apply js_sort_Permutation|done| | | |done].
  - intros n. apply js_sort_filter. unfold SearchEngine.by_occurrences. lia.
  - intros e He Hout.
    apply (take_sorted_rest SearchEngine.by_occurrences maxResults sorted e);
      [done| |done].
    by apply js_sort_elem.
  - unfold SearchEngine.sort_cached. by rewrite Hcached.
Qed.

(** ** Reading a store *)

Definition le_key {V : Type} (a b : string * V) : Prop := String.le a.1 b.1.

Global Instance le_key_total {V : Type} : Total (@le_key V).
Proof. intros a b. apply (total String.le). Qed.
Global Instance le_key_trans {V : Type} : Transitive (@le_key V).
Proof. intros a b c. unfold le_key. apply transitivity. Qed.

Lemma StronglySorted_of_fmap {B C : Type} (f : B → C) (R : relation C) (l : list B) :
  StronglySorted R (f <$> l) → StronglySorted (λ a b, R (f a) (f b)) l.
Proof.
  induction l as [|x l IH]; [constructor|]. rewrite fmap_cons.
  intros [Hall Hsorted]%StronglySorted_cons. constructor; [by apply IH|].
  by rewrite Forall_fmap in Hall.
Qed.

(** The records of a store with their keys, in the order of the keys. *)
Lemma getAll_keys {V : Type} (store : gmap string V) :
  ∃ records : list (string * V),
    DBManager.getAll store = records.*2
    ∧ records ≡ₚ map_to_list store
    ∧ StronglySorted String.le records.*1
    ∧ NoDup records.*1.
Proof.
  exists (merge_sort (λ a b : string * V, String.le a.1 b.1) (map_to_list store)).
  split; [done|]. split; [apply merge_sort_Permutation|]. split.
  - apply (StronglySorted_fmap fst le_key); [done|].
    apply (StronglySorted_merge_sort le_key).
  - rewrite merge_sort_Permutation. apply NoDup_fst_map_to_list.
Qed.

Lemma getAll_length {V : Type} (store : gmap string V) :
  length (DBManager.getAll store) = size store.
Proof.
  destruct (getAll_keys store) as (records & -> & Hperm & _).
  by rewrite length_fmap, Hperm, length_map_to_list.
Qed.

Lemma getAll_empty {V : Type} : DBManager.getAll (∅ : gmap string V) = [].
Proof. apply nil_length_inv. by rewrite getAll_length, map_size_empty. Qed.

(** The records of a store whose key is a field of the record. *)
Lemma getAll_keyed {V : Type} (key : V → string) (store : gmap string V) :
  (∀ k v, store !! k = Some v → key v = k) →
  StronglySorted (λ a b, String.le (key a) (key b)) (DBManager.getAll store)
  ∧ NoDup (key <$> DBManager.getAll store).
Proof.
  intros Hkeyed. destruct (getAll_keys store) as (records & -> & Hperm & Hsorted & Hdup).
  assert (key <$> records.*2 = records.*1) as Hkeys.
  { rewrite <-list_fmap_compose. apply list_fmap_ext. intros i [k v] Hi. cbn.
    apply Hkeyed, elem_of_map_to_list. rewrite <-Hperm.
    by eapply list_elem_of_lookup_2. }
  split; [|by rewrite Hkeys].
  apply StronglySorted_of_fmap. by rewrite Hkeys.
Qed.



(** [store.put(record)] for each record of an array. *)
Section PutAll.
Context {V : Type} (key : V → string).





End PutAll.

(** ** The timeline, built and stored *)


(** The order of the code units of the dates. *)
Definition by_code_units (a b : TimelineEntry.t) : Prop :=
  String.le (TimelineEntry.date a) (TimelineEntry.date b).
Global Instance by_code_units_dec : RelDecision by_code_units.
Proof. intros a b. unfold by_code_units. apply _. Defined.
Global Instance by_code_units_total : Total by_code_units.
Proof. intros a b. apply (total String.le). Qed.
Global Instance by_code_units_trans : Transitive by_code_units.
Proof. intros a b c. unfold by_code_units. apply transitivity. Qed.



(** ** Counting by type *)

Lemma count_up_get counts key k :
  map_get k (DBManager.count_up counts key)
  = if decide (key = k) then Some (default 0 (map_get key counts) + 1)
    else map_get k counts.
Proof. unfold DBManager.count_up. apply map_get_set. Qed.

Lemma count_up_sum counts key :
  sum_list (map_values (DBManager.count_up counts key))
  = S (sum_list (map_values counts)).
Proof.
  unfold DBManager.count_up.
  induction counts as [|[k' v'] counts IH]; cbn; [done|].
  destruct (decide (k' = key)) as [->|Hne]; cbn; [lia|].
  unfold map_values in IH. rewrite IH. lia.
Qed.

Lemma counts_get {B : Type} (f : B → string) (l : list B) counts k :
  map_get k (foldl (λ counts e, DBManager.count_up counts (f e)) counts l)
  = if decide (length (filter (λ e, f e = k) l) = 0) then map_get k counts
    else Some (default 0 (map_get k counts) + length (filter (λ e, f e = k) l)).
Proof.
  revert counts. induction l as [|e l IH]; intros counts; [done|].
  cbn [foldl]. rewrite IH, filter_cons, count_up_get.
  destruct (decide (f e = k)) as [->|Hne]; cbn [length default].
  - rewrite (decide_False (P := S _ = 0)) by done.
    case_decide as Hnone; [rewrite Hnone; f_equal; lia|f_equal; cbn; lia].
  - done.
Qed.

Lemma counts_sum {B : Type} (f : B → string) (l : list B) counts :
  sum_list (map_values (foldl (λ counts e, DBManager.count_up counts (f e)) counts l))
  = sum_list (map_values counts) + length l.
Proof.
  revert counts. induction l as [|e l IH]; intros counts; cbn [foldl length]; [lia|].
  rewrite IH, count_up_sum. lia.
Qed.

Lemma type_name_inj a b : type_name a = type_name b → a = b.
Proof. by destruct a, b. Qed.

(** The ends of an array in order. *)
Lemma sorted_ends {B : Type} (R : relation B) `{!Reflexive R} (l : list B)
    (first final : B) :
  StronglySorted R l → head l = Some first → last l = Some final →
  first ∈ l ∧ final ∈ l ∧ ∀ x, x ∈ l → R first x ∧ R x final.
Proof.
  intros Hsorted Hfirst Hfinal.
  split; [by apply head_Some_elem_of|]. split; [by apply last_Some_elem_of|].
  intros x Hx. split.
  - destruct l as [|a l]; [done|]. injection Hfirst as ->.
    apply StronglySorted_cons in Hsorted as [Hall _].
    apply elem_of_cons in Hx as [->|Hx]; [done|].
    rewrite Forall_forall in Hall. by apply Hall.
  - apply last_Some in Hfinal as [l' ->].
    apply elem_of_app in Hx as [Hx|Hx%list_elem_of_singleton]; [|by subst].
    eapply StronglySorted_app_1_elem_of; [done..|]. apply list_elem_of_here.
Qed.

(** X12. [getStats] counts the records of the three stores; the count
    under a type in [entityTypes] is the number of entities that
    [getEntitiesByType] returns for it, a type without entities has no
    key, and the counts add up to [totalEntities]. [dateRange] is [null]
    exactly on an empty timeline, and otherwise holds the first and the
    last of the dates of the timeline. After [clearAll] all counts are 0. *)
Theorem getStats_counts db :
  let stats := DBManager.getStats db in
  DBManager.totalEntities stats = size (DBManager.entities db)
  ∧ DBManager.totalConversations stats = size (DBManager.conversations db)
  ∧ DBManager.timelineEntries stats = size (DBManager.timeline db)
  ∧ (∀ type,
       default 0 (map_get (type_name type) (DBManager.entityTypes stats))
       = length (DBManager.getEntitiesByType db type))
  ∧ (∀ type,
       is_Some (map_get (type_name type) (DBManager.entityTypes stats))
       ↔ ∃ e, e ∈ DBManager.getAllEntities db ∧ Entity.type e = type)
  ∧ sum_list (map_values (DBManager.entityTypes stats))
    = DBManager.totalEntities stats
  ∧ (DBManager.dateRange stats = None ↔ DBManager.timeline db = ∅)
  ∧ (∀ first final,
       DBManager.dateRange stats = Some (first, final) →
       (∀ k entry, DBManager.timeline db !! k = Some entry →
                   TimelineEntry.date entry = k) →
       is_Some (DBManager.timeline db !! first)
       ∧ is_Some (DBManager.timeline db !! final)
       ∧ ∀ date, is_Some (DBManager.timeline db !! date) →
           String.le first date ∧ String.le date final)
  ∧ DBManager.getStats (DBManager.clearAll db) = DBManager.mkStats 0 0 0 [] None.
Proof.
  intros stats.
  assert (∀ type,
            filter (λ e, type_name (Entity.type e) = type_name type)
              (DBManager.getAllEntities db)
            = DBManager.getEntitiesByType db type) as Hfilter.
  { intros type. unfold DBManager.getEntitiesByType. apply list_filter_iff.
    intros e. split; [apply type_name_inj|by intros ->]. }
  split_and!.
  - apply getAll_length.
  - apply getAll_length.
  - apply getAll_length.
  - intros type. cbn. rewrite counts_get, Hfilter. cbn.
    case_decide as Hnone; [by rewrite Hnone|done].
  - intros type. cbn. rewrite counts_get, Hfilter. cbn.
    unfold DBManager.getEntitiesByType. split.
    + case_decide as Hnone; [by intros [? ?]|]. intros _.
      destruct (filter _ _) as [|e l] eqn:Hl; [done|].
      assert (e ∈ e :: l) as He by apply list_elem_of_here. rewrite <-Hl in He.
      apply list_elem_of_filter in He as [? ?]. by exists e.
    + intros (e & He & Htype). rewrite decide_False; [done|].
      intros Hnone%nil_length_inv.
      assert (e ∈ filter (λ e, Entity.type e = type) (DBManager.getAllEntities db))
        as Hin by (by apply list_elem_of_filter).
      rewrite Hnone in Hin. by apply elem_of_nil in Hin.
  - cbn [stats DBManager.getStats DBManager.entityTypes DBManager.totalEntities].
    by rewrite (counts_sum (λ e, type_name (Entity.type e))).
  - cbn. unfold DBManager.getTimeline.
    pose proof (getAll_length (DBManager.timeline db)) as Hlen.
    destruct (DBManager.getAll (DBManager.timeline db)) as [|entry l] eqn:Hall.
    + cbn. split; [|done]. intros _. apply map_size_empty_inv. by rewrite <-Hlen.
    + cbn [head]. destruct (last (entry :: l)) as [final|] eqn:Hlast.
      * split; [done|]. intros Hempty. by rewrite Hempty, map_size_empty in Hlen.
      * by apply last_None in Hlast.
  - intros first final Hrange Hkeyed. cbn in Hrange.
    destruct (getAll_keyed TimelineEntry.date _ Hkeyed) as [Hsorted _].
    unfold DBManager.getTimeline in Hrange.
    destruct (head (DBManager.getAll _)) as [a|] eqn:Hhead; [|done].
    destruct (last (DBManager.getAll _)) as [b|] eqn:Hlast; [|done].
    injection Hrange as <- <-.
    assert (Reflexive (λ a b : TimelineEntry.t,
              String.le (TimelineEntry.date a) (TimelineEntry.date b))) as Hrefl
      by (intros x; apply reflexivity).
    destruct (sorted_ends _ _ a b Hsorted Hhead Hlast) as (Ha & Hb & Hends).
    apply getAll_elem in Ha as [ka Ha], Hb as [kb Hb].
    rewrite (Hkeyed _ _ Ha), (Hkeyed _ _ Hb). split; [by eexists|].
    split; [by eexists|]. intros date [entry Hentry].
    rewrite <-(Hkeyed _ _ Ha), <-(Hkeyed _ _ Hb), <-(Hkeyed _ _ Hentry).
    apply Hends, getAll_elem. by exists date.
  - unfold DBManager.getStats, DBManager.clearAll, DBManager.getAllEntities,
      DBManager.getAllConversations, DBManager.getTimeline. cbn.
    by rewrite !getAll_empty.
Qed.

(** ** Searching titles and names *)

Lemma includes_empty (s : string) : includes s "" = true.
Proof.
  unfold includes. destruct (chars s) as [|c l]; cbn.
  - apply orb_true_iff. left. apply bool_decide_eq_true. apply prefix_nil.
  - apply orb_true_iff. left. apply bool_decide_eq_true. apply prefix_nil.
Qed.

(** X13. [searchConversations] returns at most [maxResults] stored
    conversations whose title contains the query, both taken in lower
    case, the latest first and those of one time in the order of the
    store; a conversation that matches and is left out is no later than
    any that is returned. An empty query matches every conversation.
    [searchEntitiesByName] returns, in the order of the store, exactly the
    entities whose name or description contains the term, and every
    entity for the empty term. *)
Theorem text_queries db query maxResults :
  let matching (conv : ConvData.t) : Prop :=
    includes (toLowerCase (ConvData.title conv)) (toLowerCase query) in
  let named (e : Entity.t) : Prop :=
    includes (toLowerCase (Entity.name e)) (toLowerCase query)
    ∨ includes (toLowerCase (Entity.description e)) (toLowerCase query) in
  let results := SearchEngine.searchConversations db query maxResults in
  (∃ sorted,
     results = take maxResults sorted
     ∧ sorted ≡ₚ filter matching (DBManager.getAllConversations db)
     ∧ StronglySorted SearchEngine.by_timestamp sorted
     ∧ (∀ time, filter (λ c, ConvData.timestamp c = time) sorted
                = filter (λ c, ConvData.timestamp c = time)
                    (filter matching (DBManager.getAllConversations db))))
  ∧ length results ≤ maxResults
  ∧ (∀ conv, conv ∈ results →
       conv ∈ DBManager.getAllConversations db ∧ matching conv)
  ∧ (∀ conv, conv ∈ DBManager.getAllConversations db → matching conv →
       conv ∉ results →
       length results = maxResults
       ∧ ∀ r, r ∈ results → (ConvData.timestamp conv ≤ ConvData.timestamp r)%Z)
  ∧ (length (SearchEngine.searchConversations db "" maxResults)
     = maxResults `min` size (DBManager.conversations db))
  ∧ DBManager.searchEntitiesByName db query `sublist_of` DBManager.getAllEntities db
  ∧ (∀ e, e ∈ DBManager.searchEntitiesByName db query
          ↔ e ∈ DBManager.getAllEntities db ∧ named e)
  ∧ DBManager.searchEntitiesByName db "" = DBManager.getAllEntities db.
Proof.
  intros matching named results.
  set (sorted := js_sort SearchEngine.by_timestamp
                   (filter matching (DBManager.getAllConversations db))).
  assert (results = take maxResults sorted) as Hresults by done.
  assert (StronglySorted SearchEngine.by_timestamp sorted) as Hsorted
    by (apply js_sort_StronglySorted; apply _).
  assert (∀ conv, conv ∈ sorted
                  ↔ conv ∈ DBManager.getAllConversations db ∧ matching conv)
    as Helem.
  { intros conv. unfold sorted. rewrite js_sort_elem, list_elem_of_filter. tauto. }
  split_and!.
  - exists sorted. split_and!; [done|apply js_sort_Permutation|done|].
    intros time. apply js_sort_filter. unfold SearchEngine.by_timestamp. lia.
  - rewrite Hresults, length_take. lia.
  - intros conv Hconv. apply Helem. rewrite Hresults in Hconv.
    by eapply take_elem.
  - intros conv Hconv Hmatch Hout. rewrite Hresults in *.
    apply (take_sorted_rest SearchEngine.by_timestamp); [done| |done].
    by apply Helem.
  - unfold SearchEngine.searchConversations.
    rewrite length_take, js_sort_length, filter_all.
    + unfold DBManager.getAllConversations. by rewrite getAll_length.
    + intros conv _. apply Is_true_true. apply includes_empty.
  - apply sublist_filter.
  - intros e. unfold DBManager.searchEntitiesByName.
    rewrite list_elem_of_filter. unfold named.
    rewrite orb_True. tauto.
  - unfold DBManager.searchEntitiesByName. apply filter_all.
    intros e _. apply Is_true_true, orb_true_iff. left. apply includes_empty.
Qed.

(** ** Related entities *)

(** The ids that the stored conversations of a list hold, as often as they
    are held. *)
Definition shared_ids (db : DBManager.t) (conversations : list string)
  : list string :=
  mjoin ((λ convId,
    match DBManager.getConversation db convId with
    | Some conv => ConvData.entities conv
    | None => []
    end) <$> conversations).

Lemma count_up_keys counts key :
  NoDup (map_keys counts) → NoDup (map_keys (DBManager.count_up counts key)).
Proof. apply map_keys_set_NoDup. Qed.

Lemma relatedCounts_foldl db entityId conversations counts :
  foldl (λ counts convId,
    match DBManager.getConversation db convId with
    | Some conv =>
        foldl (λ counts otherId,
          if decide (otherId ≠ entityId) then DBManager.count_up counts otherId
          else counts) counts (ConvData.entities conv)
    | None => counts
    end) counts conversations
  = foldl (λ counts otherId, DBManager.count_up counts otherId) counts
      (filter (λ otherId, otherId ≠ entityId) (shared_ids db conversations)).
Proof.
  assert (∀ ids counts,
            foldl (λ counts otherId,
              if decide (otherId ≠ entityId) then DBManager.count_up counts otherId
              else counts) counts ids
            = foldl (λ counts otherId, DBManager.count_up counts otherId) counts
                (filter (λ otherId, otherId ≠ entityId) ids)) as Hinner.
  { induction ids as [|id ids IH]; intros counts0; [done|].
    rewrite filter_cons. cbn [foldl]. rewrite IH.
    by destruct (decide (id ≠ entityId)). }
  revert counts. unfold shared_ids.
  induction conversations as [|convId conversations IH]; intros counts; [done|].
  rewrite fmap_cons, mjoin_cons, filter_app, foldl_app. cbn [foldl].
  rewrite IH. destruct (DBManager.getConversation db convId) as [conv|]; [|done].
  by rewrite Hinner.
Qed.

Lemma relatedCounts_keys db entityId conversations :
  NoDup (map_keys (SearchEngine.relatedCounts db entityId conversations)).
Proof.
  unfold SearchEngine.relatedCounts. rewrite relatedCounts_foldl.
  apply foldl_preserves; [|constructor].
  intros counts otherId. apply count_up_keys.
Qed.

Lemma filter_other (entityId otherId : string) (ids : list string) :
  otherId ≠ entityId →
  filter (λ id, id = otherId) (filter (λ id, id ≠ entityId) ids)
  = filter (λ id, id = otherId) ids.
Proof.
  intros Hne. rewrite list_filter_filter. apply list_filter_iff. intros id.
  split; [by intros [? _]|by intros ->].
Qed.

Lemma relatedCounts_get db entityId conversations otherId :
  otherId ≠ entityId →
  map_get otherId (SearchEngine.relatedCounts db entityId conversations)
  = if decide (otherId ∈ shared_ids db conversations) then
      Some (length (filter (λ id, id = otherId) (shared_ids db conversations)))
    else None.
Proof.
  intros Hne. unfold SearchEngine.relatedCounts.
  rewrite relatedCounts_foldl, (counts_get (λ id, id)), filter_other by done.
  cbn [map_get default].
  destruct (decide (otherId ∈ shared_ids db conversations)) as [Hin|Hout].
  - rewrite decide_False; [done|]. intros Hnone%nil_length_inv.
    by eapply filter_nil_not_elem_of.
  - rewrite decide_True; [done|].
    destruct (filter _ _) as [|id ids] eqn:Hfilter; [done|].
    assert (id ∈ id :: ids) as Hid by apply list_elem_of_here.
    rewrite <-Hfilter in Hid. by apply list_elem_of_filter in Hid as [-> ?].
Qed.

Lemma relatedCounts_elem db entityId conversations otherId count :
  (otherId, count) ∈ SearchEngine.relatedCounts db entityId conversations →
  otherId ≠ entityId
  ∧ otherId ∈ shared_ids db conversations
  ∧ count = length (filter (λ id, id = otherId) (shared_ids db conversations)).
Proof.
  intros Hin.
  assert (otherId ≠ entityId) as Hne.
  { unfold SearchEngine.relatedCounts in Hin. rewrite relatedCounts_foldl in Hin.
    apply elem_map_get in Hin as [n Hn].
    rewrite (counts_get (λ id, id)) in Hn. cbn [map_get default] in Hn.
    case_decide as Hnone; [done|].
    destruct (filter (λ e, e = otherId) _) as [|id ids] eqn:Hfilter; [done|].
    assert (id ∈ id :: ids) as Hid by apply list_elem_of_here.
    rewrite <-Hfilter in Hid.
    by apply list_elem_of_filter in Hid as [-> [? _]%list_elem_of_filter]. }
  apply elem_map_get_NoDup in Hin; [|apply relatedCounts_keys].
  rewrite relatedCounts_get in Hin by done. case_decide; [|done].
  by injection Hin as <-.
Qed.

Lemma StronglySorted_fmap_elem {B C : Type} (f : B → C) (R1 : relation B)
    (R2 : relation C) (l : list B) :
  (∀ x y, x ∈ l → y ∈ l → R1 x y → R2 (f x) (f y)) →
  StronglySorted R1 l → StronglySorted R2 (f <$> l).
Proof.
  intros Hmono Hsorted. induction Hsorted as [|x l Hsorted IH Hall]; [constructor|].
  rewrite fmap_cons. constructor.
  - apply IH. intros a b Ha Hb. apply Hmono; by right.
  - rewrite Forall_fmap. rewrite Forall_forall in Hall. apply Forall_forall.
    intros y Hy. apply Hmono; [by left|by right|by apply Hall].
Qed.

Lemma length_omap_le {B C : Type} (f : B → option C) (l : list B) :
  length (omap f l) ≤ length l.
Proof.
  induction l as [|x l IH]; cbn; [done|]. destruct (f x); cbn; lia.
Qed.

Lemma StronglySorted_omap {B C : Type} (f : B → option C) (R1 : relation B)
    (R2 : relation C) (l : list B) :
  (∀ x y x' y', R1 x y → f x = Some x' → f y = Some y' → R2 x' y') →
  StronglySorted R1 l → StronglySorted R2 (omap f l).
Proof.
  intros Hmono. induction 1 as [|x l Hsorted IH Hall]; cbn; [constructor|].
  destruct (f x) as [x'|] eqn:Hx; [|done]. constructor; [done|].
  apply Forall_forall. intros y' (y & Hy & Hfy)%list_elem_of_omap.
  rewrite Forall_forall in Hall. eapply Hmono; [by apply Hall|done..].
Qed.

(** X14. [findRelatedEntities] returns nothing for an id that is not
    stored. Otherwise it chooses at most [maxResults] ids, each once and
    none the id that was asked for, from the ids that the stored
    conversations of the entity list, in the order of the number of times
    they are listed there, the highest first; an id that is listed and not
    chosen is listed no more often than any that is chosen. The result
    holds the stored entities of the chosen ids with these numbers; it
    is in the order of the counts and, in a store that keeps each entity
    under its id, has no entity with the id that was asked for. *)
Theorem findRelatedEntities_spec db entityId maxResults :
  let results := SearchEngine.findRelatedEntities db entityId maxResults in
  (DBManager.getEntity db entityId = None → results = [])
  ∧ (∀ entity, DBManager.getEntity db entityId = Some entity →
       let listed := shared_ids db (Entity.conversations entity) in
       let times otherId := length (filter (λ id, id = otherId) listed) in
       ∃ chosen,
         results
         = omap (λ otherId,
             (λ otherEntity, SearchEngine.mkRelated otherEntity (times otherId))
             <$> DBManager.getEntity db otherId) chosen
         ∧ length chosen ≤ maxResults
         ∧ NoDup chosen
         ∧ StronglySorted (λ a b, times b ≤ times a) chosen
         ∧ (∀ otherId, otherId ∈ chosen → otherId ≠ entityId ∧ otherId ∈ listed)
         ∧ (∀ otherId, otherId ∈ listed → otherId ≠ entityId → otherId ∉ chosen →
              length chosen = maxResults
              ∧ ∀ c, c ∈ chosen → times otherId ≤ times c))
  ∧ length results ≤ maxResults
  ∧ StronglySorted
      (λ a b, SearchEngine.coOccurrenceCount b ≤ SearchEngine.coOccurrenceCount a)
      results
  ∧ (store_keyed db →
     ∀ r, r ∈ results → Entity.id (SearchEngine.related r) ≠ entityId).
Proof.
  intros results. subst results. unfold SearchEngine.findRelatedEntities.
  destruct (DBManager.getEntity db entityId) as [entity|] eqn:Hentity; cycle 1.
  { split_and!; [done|done|cbn; lia|constructor|]. by intros _ r ?%elem_of_nil. }
  set (counts := SearchEngine.relatedCounts db entityId (Entity.conversations entity)).
  set (sorted := js_sort SearchEngine.by_count counts).
  set (detail := λ '(otherId, count),
         (λ otherEntity, SearchEngine.mkRelated otherEntity count)
         <$> DBManager.getEntity db otherId).
  assert (StronglySorted SearchEngine.by_count sorted) as Hsorted
    by (apply js_sort_StronglySorted; apply _).
  assert (∀ otherId count, (otherId, count) ∈ take maxResults sorted →
            (otherId, count) ∈ counts) as Hchosen.
  { intros otherId count Hin%take_elem. by apply js_sort_elem in Hin. }
  assert (length (omap detail (take maxResults sorted)) ≤ maxResults) as Hlen.
  { etrans; [apply length_omap_le|]. rewrite length_take. lia. }
  assert (StronglySorted
            (λ a b, SearchEngine.coOccurrenceCount b ≤ SearchEngine.coOccurrenceCount a)
            (omap detail (take maxResults sorted))) as Hcounts.
  { apply (StronglySorted_omap detail SearchEngine.by_count);
      [|by apply StronglySorted_take].
    intros [x nx] [y ny] x' y' Hxy Hx Hy. unfold detail in Hx, Hy.
    destruct (DBManager.getEntity db x); [|done].
    destruct (DBManager.getEntity db y); [|done].
    injection Hx as <-. injection Hy as <-. exact Hxy. }
  split_and!; [done| |done|done|].
  - intros ? [= <-].
    set (listed := shared_ids db (Entity.conversations entity)).
    set (times := λ otherId, length (filter (λ id, id = otherId) listed)).
    exists (take maxResults sorted).*1.
    assert (∀ otherId count, (otherId, count) ∈ take maxResults sorted →
              count = times otherId) as Htimes.
    { intros otherId count Hin%Hchosen. by apply relatedCounts_elem in Hin as (_ & _ & ->). }
    assert (NoDup (take maxResults sorted).*1) as Hdup.
    { apply (sublist_NoDup _ sorted.*1).
      - unfold sorted. rewrite js_sort_Permutation. apply relatedCounts_keys.
      - apply fmap_sublist, sublist_take. }
    split_and!.
    + apply list_omap_ext, Forall2_fmap_r, Forall_Forall2_diag, Forall_forall.
      intros [otherId count] Hin. cbn. by rewrite (Htimes _ _ Hin).
    + rewrite length_fmap, length_take. lia.
    + done.
    + apply (StronglySorted_fmap_elem fst SearchEngine.by_count);
        [|by apply StronglySorted_take].
      intros [x nx] [y ny] Hx Hy Hxy.
      pose proof (Htimes _ _ Hx) as ->. pose proof (Htimes _ _ Hy) as ->.
      exact Hxy.
    + intros otherId ([id count] & -> & Hin%Hchosen)%list_elem_of_fmap. cbn.
      by apply relatedCounts_elem in Hin as (? & ? & _).
    + intros otherId Hlisted Hne Hout.
      assert ((otherId, times otherId) ∈ sorted) as Hin.
      { apply js_sort_elem, map_get_Some_elem.
        unfold counts. rewrite relatedCounts_get by done. by rewrite decide_True. }
      destruct (take_sorted_rest SearchEngine.by_count maxResults sorted
                  (otherId, times otherId)) as [Hfull Htop]; [done..| |].
      { intros Hchose. destruct Hout. apply list_elem_of_fmap.
        by exists (otherId, times otherId). }
      split; [by rewrite length_fmap|].
      intros c ([id count] & -> & Hc)%list_elem_of_fmap.
      pose proof (Htimes _ _ Hc) as ->. exact (Htop _ Hc).
  - intros Hkeyed r ([otherId count] & Hin%Hchosen & Hr)%list_elem_of_omap.
    apply relatedCounts_elem in Hin as (Hne & _ & _). unfold detail in Hr.
    destruct (DBManager.getEntity db otherId) as [other|] eqn:Hother; [|done].
    injection Hr as <-. cbn. destruct Hkeyed as [Hkeyed _].
    by rewrite (Hkeyed _ _ Hother).
Qed.

(** ** Statistics and the advanced search *)

Lemma count_entity_foldl (l : list Entity.t) (stats : SearchEngine.Stats) :
  let stats' := foldl SearchEngine.count_entity stats l in
  SearchEngine.totalEntities stats' = SearchEngine.totalEntities stats
  ∧ SearchEngine.byType stats'
    = foldl (λ counts e, DBManager.count_up counts (type_name (Entity.type e)))
        (SearchEngine.byType stats) l
  ∧ SearchEngine.totalOccurrences stats'
    = SearchEngine.totalOccurrences stats + sum_list_with Entity.occurrences l
  ∧ SearchEngine.averageOccurrences stats' = SearchEngine.averageOccurrences stats
  ∧ SearchEngine.entitiesWithLinks stats'
    = SearchEngine.entitiesWithLinks stats
      + length (filter (λ e, Entity.links e ≠ []) l)
  ∧ SearchEngine.totalLinks stats'
    = SearchEngine.totalLinks stats
      + sum_list_with (λ e, length (Entity.links e)) l.
Proof.
  revert stats. induction l as [|e l IH]; intros stats; cbn zeta.
  - cbn. split_and!; try done; lia.
  - cbn [foldl]. destruct (IH (SearchEngine.count_entity stats e))
      as (Htotal & Htypes & Hocc & Havg & Hwith & Hlinks).
    rewrite Htotal, Htypes, Hocc, Havg, Hwith, Hlinks. clear.
    rewrite filter_cons. cbn. split_and!; try done; try lia.
    + destruct (Entity.links e) as [|link links]; cbn.
      * rewrite decide_False by (by intros []).
        rewrite bool_decide_eq_false_2 by lia. lia.
      * rewrite decide_True by done.
        rewrite bool_decide_eq_true_2 by lia. cbn. lia.
    + destruct (Entity.links e) as [|link links]; cbn.
      * rewrite bool_decide_eq_false_2 by lia. lia.
      * rewrite bool_decide_eq_true_2 by lia. lia.
Qed.

(** X15. [getSearchStats] counts all entities of [getAllEntities]: under
    each type the number of entities of the type, these counts adding up
    to [totalEntities]; the sum of the occurrences; the number of entities
    that have links and the sum of the numbers of their links.
    [averageOccurrences] is the quotient of the occurrences by the number
    of entities, and [NaN] exactly when there is no entity. *)
Theorem getSearchStats_spec env tick db s :
  let allEntities := (SearchEngine.getAllEntities env tick db s).1.1 in
  let '(stats, s', tick') := SearchEngine.getSearchStats env tick db s in
  SearchEngine.totalEntities stats = length allEntities
  ∧ (∀ type,
       default 0 (map_get (type_name type) (SearchEngine.byType stats))
       = length (filter (λ e, Entity.type e = type) allEntities))
  ∧ sum_list (map_values (SearchEngine.byType stats))
    = SearchEngine.totalEntities stats
  ∧ SearchEngine.totalOccurrences stats
    = sum_list_with Entity.occurrences allEntities
  ∧ SearchEngine.entitiesWithLinks stats
    = length (filter (λ e, Entity.links e ≠ []) allEntities)
  ∧ SearchEngine.totalLinks stats
    = sum_list_with (λ e, length (Entity.links e)) allEntities
  ∧ SearchEngine.entitiesWithLinks stats ≤ SearchEngine.totalEntities stats
  ∧ SearchEngine.entitiesWithLinks stats ≤ SearchEngine.totalLinks stats
  ∧ (SearchEngine.averageOccurrences stats = SearchEngine.NaN ↔ allEntities = [])
  ∧ (allEntities ≠ [] →
     SearchEngine.averageOccurrences stats
     = SearchEngine.Quotient
         (Z.of_nat (sum_list_with Entity.occurrences allEntities)
          # Pos.of_nat (length allEntities)))
  ∧ s' = (SearchEngine.getAllEntities env tick db s).1.2
  ∧ tick' = (SearchEngine.getAllEntities env tick db s).2.
Proof.
  intros allEntities. subst allEntities. unfold SearchEngine.getSearchStats.
  destruct (SearchEngine.getAllEntities env tick db s) as [[allEntities s1] tick1].
  cbn [fst snd].
  destruct (count_entity_foldl allEntities
              (SearchEngine.mkStats (length allEntities) [] 0
                 (SearchEngine.Quotient 0) 0 0))
    as (Htotal & Htypes & Hocc & _ & Hwith & Hlinks).
  cbn [SearchEngine.totalEntities SearchEngine.byType SearchEngine.totalOccurrences
       SearchEngine.averageOccurrences SearchEngine.entitiesWithLinks
       SearchEngine.totalLinks] in *.
  rewrite Htotal, Htypes, Hocc, Hwith, Hlinks. cbn [Nat.add].
  assert (∀ type,
            filter (λ e, type_name (Entity.type e) = type_name type) allEntities
            = filter (λ e, Entity.type e = type) allEntities) as Hfilter.
  { intros type. apply list_filter_iff.
    intros e. split; [apply type_name_inj|by intros ->]. }
  split_and!; try done.
  - intros type. rewrite (counts_get (λ e, type_name (Entity.type e))), Hfilter.
    cbn. case_decide as Hnone; [by rewrite Hnone|done].
  - by rewrite (counts_sum (λ e, type_name (Entity.type e))).
  - apply length_filter.
  - clear. induction allEntities as [|e l IH]; [done|].
    rewrite filter_cons. cbn.
    destruct (Entity.links e) as [|link links]; cbn.
    + by rewrite decide_False by (by intros []).
    + rewrite decide_True by done. cbn. lia.
  - destruct allEntities as [|e l]; cbn; [done|]. split; [|done].
    by rewrite decide_False.
  - intros Hsome. rewrite decide_False; [done|].
    by intros ?%nil_length_inv.
Qed.


